(** * Peridigm contact manager: rebalance and contact search

    A shallow embedding of [src/core/Peridigm_ContactManager.cpp] and the
    properties of its rebalance / contact-search pipeline.

    Conventions of the embedding.
    - C++ [int] values are [Z]; the counts and indices handled here stay far
      below 2^31, so no wrap-around is written out.  [step % frequency] is
      C++ truncated remainder, [Z.rem], where C++ defines it.
    - C++ [double] values are Rocq's primitive binary64 floats.  The two
      vectors that only carry integers stored as doubles (bond counts and
      neighbour global IDs) are lists of [Z]: the casts [(double)] and [(int)]
      are exact on 32-bit integers.
    - An Epetra vector over a block map is the flat list of its values, as
      Epetra stores it; an Epetra multi-vector is kept as its columns.
    - Thrown exceptions and undefined behaviour (reads and writes outside an
      array, the read of an [int] that was never set, a remainder by zero or
      one whose quotient does not fit) are the two failure outcomes of
      [result].
    - One rank is modelled.  The data the collective operations bring in from
      the other ranks is computed by the same code from the other ranks'
      states ([peers]).
    - The members of the class are the fields of the [ContactManager]
      record; the constructor (lines 58-152) builds one from the parameter
      lists and the block names of the discretization.
    - An array from [new int[n]] is a list of [n] zeros that the loops then
      overwrite; the cells the code never writes are never read.
    - A [Teuchos::ParameterList] is the list of its entries in iteration
      order. *)

From Stdlib Require Import Floats.PrimFloat Strings.Ascii.
From stdpp Require Import base numbers list gmap sorting strings pretty.

Local Open Scope Z_scope.

Set Warnings "-clear-no-such-hyp".

(** ** Outcomes of a call *)

Inductive exn : Type :=
| InvalidParameter (msg : string)
| InvalidParameterName (msg : string)
| InvalidParameterType (msg : string)
| RangeError (msg : string)
| LogicError (msg : string).

Inductive result (A : Type) : Type :=
| Ok (a : A)
| Throw (e : exn)
| Undefined.

Arguments Ok {A} a.
Arguments Throw {A} e.
Arguments Undefined {A}.

#[global] Instance result_ret : MRet result := λ A a, Ok a.

#[global] Instance result_bind : MBind result := λ A B f m,
  match m with
  | Ok a => f a
  | Throw e => Throw e
  | Undefined => Undefined
  end.

#[global] Instance result_fmap : FMap result := λ A B f m,
  match m with
  | Ok a => Ok (f a)
  | Throw e => Throw e
  | Undefined => Undefined
  end.

(** A loop over a sequence with a loop state: the body runs on each item in
    turn, and the first failure ends the loop. *)
Fixpoint for_each {A St : Type} (items : list A) (body : A → St → result St)
    (s : St) : result St :=
  match items with
  | [] => Ok s
  | x :: items' => s' ← body x s; for_each items' body s'
  end.

(** [for (int i = 0; i < n; ++i) body]. *)
Definition for_loop {St : Type} (n : Z) (body : Z → St → result St) (s : St)
  : result St :=
  for_each (seqZ 0 n) body s.

Definition len {A : Type} (a : list A) : Z := Z.of_nat (length a).

(** [a[i]] as an rvalue and [a[i] = x]; outside the array both are undefined. *)
Definition at_ {A : Type} (a : list A) (i : Z) : result A :=
  if decide (0 ≤ i) then
    match a !! Z.to_nat i with
    | Some x => Ok x
    | None => Undefined
    end
  else Undefined.

Definition store {A : Type} (a : list A) (i : Z) (x : A) : result (list A) :=
  if decide (0 ≤ i < len a) then Ok (<[Z.to_nat i := x]> a) else Undefined.

(** ** Scalars held by Epetra vectors *)

Class Scalar (A : Type) := { zero : A; plus : A → A → A }.

#[global] Instance float_Scalar : Scalar float :=
  {| zero := 0%float; plus := PrimFloat.add |}.

#[global] Instance Z_Scalar : Scalar Z := {| zero := 0; plus := Z.add |}.

Inductive Epetra_CombineMode : Type := Insert | Add.

(** ** Epetra_BlockMap: the distributed index map, one rank's part *)

Record Epetra_BlockMap : Type := {
  MyGlobalElements : list Z;
  ElementSizeList : list Z
}.

Definition NumMyElements (m : Epetra_BlockMap) : Z :=
  len (MyGlobalElements m).

Fixpoint sum_list (l : list Z) : Z :=
  match l with
  | [] => 0
  | x :: l' => x + sum_list l'
  end.

Definition NumMyPoints (m : Epetra_BlockMap) : Z :=
  sum_list (ElementSizeList m).

Fixpoint find_index (g : Z) (l : list Z) (i : Z) : Z :=
  match l with
  | [] => -1
  | x :: l' => if decide (x = g) then i else find_index g l' (i + 1)
  end.

(** [LID]: local slot of a global ID, [-1] when the ID is not on this rank.
    Epetra requires the global IDs of a map to be distinct on a rank; on a
    list that repeats one, the first slot is the answer. *)
Definition LID (m : Epetra_BlockMap) (gid : Z) : Z :=
  find_index gid (MyGlobalElements m) 0.

Definition MyGID (m : Epetra_BlockMap) (gid : Z) : bool :=
  negb (LID m gid =? -1).

(** [GID]: global ID of a local slot, [IndexBase - 1] outside the map. *)
Definition GID (m : Epetra_BlockMap) (lid : Z) : Z :=
  if decide (0 ≤ lid) then default (-1) (MyGlobalElements m !! Z.to_nat lid)
  else -1.

Definition ElementSize (m : Epetra_BlockMap) (lid : Z) : result Z :=
  at_ (ElementSizeList m) lid.

Fixpoint first_points (start : Z) (sizes : list Z) : list Z :=
  match sizes with
  | [] => [start]
  | s :: sizes' => start :: first_points (start + s) sizes'
  end.

Definition FirstPointInElementList (m : Epetra_BlockMap) : list Z :=
  first_points 0 (ElementSizeList m).

(** The two constructors used here: constant element size and element size
    list.  Both read [NumMyElements] entries of the arrays they are given. *)
Definition Epetra_BlockMap_new (numMyElements : Z) (myGlobalElements : list Z)
    (elementSize : Z) : result Epetra_BlockMap :=
  if decide (0 ≤ numMyElements ≤ len myGlobalElements) then
    Ok {| MyGlobalElements := take (Z.to_nat numMyElements) myGlobalElements;
          ElementSizeList := replicate (Z.to_nat numMyElements) elementSize |}
  else Undefined.

Definition Epetra_BlockMap_new_sizes (numMyElements : Z)
    (myGlobalElements elementSizeList : list Z) : result Epetra_BlockMap :=
  if decide (0 ≤ numMyElements ≤ len myGlobalElements
             ∧ numMyElements ≤ len elementSizeList) then
    Ok {| MyGlobalElements := take (Z.to_nat numMyElements) myGlobalElements;
          ElementSizeList := take (Z.to_nat numMyElements) elementSizeList |}
  else Undefined.

(** ** Epetra vectors and the import / export of their values *)

(** [new Epetra_Vector(map)]: one value per point of the map, zeroed. *)
Definition Epetra_Vector_new {A : Type} `{Scalar A} (m : Epetra_BlockMap)
  : list A :=
  replicate (Z.to_nat (NumMyPoints m)) zero.

Definition PutScalar {A : Type} (x : A) (v : list A) : list A :=
  replicate (length v) x.

Fixpoint chunks {A : Type} (sizes : list Z) (v : list A) : list (list A) :=
  match sizes with
  | [] => []
  | s :: sizes' => take (Z.to_nat s) v :: chunks sizes' (drop (Z.to_nat s) v)
  end.

(** The values of a vector, element by element of its map, keyed by global
    ID. *)
Definition pieces {A : Type} (m : Epetra_BlockMap) (v : list A)
  : list (Z * list A) :=
  zip (MyGlobalElements m) (chunks (ElementSizeList m) v).

Fixpoint assoc {A : Type} (g : Z) (l : list (Z * A)) : option A :=
  match l with
  | [] => None
  | (k, x) :: l' => if decide (k = g) then Some x else assoc g l'
  end.

Definition combine {A : Type} `{Scalar A} (mode : Epetra_CombineMode)
    (old new : A) : A :=
  match mode with
  | Insert => new
  | Add => plus old new
  end.

(** One element of the target: untouched when no rank holds its global ID in
    the source, combined value by value otherwise.  Element sizes that
    disagree between source and target are outside Epetra's contract. *)
Definition transfer_element {A : Type} `{Scalar A} (mode : Epetra_CombineMode)
    (source : list (Z * list A)) (elt : Z * list A) : result (list A) :=
  match assoc elt.1 source with
  | None => Ok elt.2
  | Some b =>
      if decide (length b = length elt.2)
      then Ok (zip_with (combine mode) elt.2 b)
      else Undefined
  end.

(** [target.Import(source, importer, mode)] and, with the roles of the
    importer's maps exchanged, [target.Export(source, importer, mode)]:
    [source] is the source vector across all ranks, [targetMap] the layout
    of [target] on this rank. *)
Definition transfer {A : Type} `{Scalar A} (mode : Epetra_CombineMode)
    (source : list (Z * list A)) (targetMap : Epetra_BlockMap)
    (target : list A) : result (list A) :=
  if decide (len target = NumMyPoints targetMap) then
    blocks ← mapM (transfer_element mode source) (pieces targetMap target);
    Ok (concat blocks)
  else Undefined.

Record Epetra_Import : Type := {
  TargetMap : Epetra_BlockMap;
  SourceMap : Epetra_BlockMap
}.

Definition Epetra_Import_new (target source : Epetra_BlockMap) : Epetra_Import :=
  {| TargetMap := target; SourceMap := source |}.

Definition Import {A : Type} `{Scalar A} (target : list A)
    (source : list (Z * list A)) (importer : Epetra_Import)
    (mode : Epetra_CombineMode) : result (list A) :=
  transfer mode source (TargetMap importer) target.

Definition Export {A : Type} `{Scalar A} (target : list A)
    (source : list (Z * list A)) (importer : Epetra_Import)
    (mode : Epetra_CombineMode) : result (list A) :=
  transfer mode source (SourceMap importer) target.

(** ** Teuchos::ParameterList *)

#[warnings="-register-all"] Inductive ParameterEntry : Type :=
| PDouble (d : float)
| PInt (i : Z)
| PString (s : string)
| PSublist (l : list (string * ParameterEntry)).

Definition ParameterList : Type := list (string * ParameterEntry).

Fixpoint getEntry (name : string) (pl : ParameterList) : option ParameterEntry :=
  match pl with
  | [] => None
  | (k, e) :: pl' => if decide (k = name) then Some e else getEntry name pl'
  end.

Definition isParameter (pl : ParameterList) (name : string) : bool :=
  match getEntry name pl with
  | Some _ => true
  | None => false
  end.

(** [set]: the entry is replaced where it stands, or appended. *)
Fixpoint set (name : string) (e : ParameterEntry) (pl : ParameterList)
  : ParameterList :=
  match pl with
  | [] => [(name, e)]
  | (k, e0) :: pl' =>
      if decide (k = name) then (k, e) :: pl' else (k, e0) :: set name e pl'
  end.

Definition sublist (pl : ParameterList) (name : string)
    (mustAlreadyExist : bool) : result ParameterList :=
  match getEntry name pl with
  | Some (PSublist l) => Ok l
  | Some _ => Throw (InvalidParameterType name)
  | None =>
      if mustAlreadyExist then Throw (InvalidParameterName name) else Ok []
  end.

(** [get<T>(name)]: the entry has to exist and to hold a [T]. *)
Definition get_double (pl : ParameterList) (name : string) : result float :=
  match getEntry name pl with
  | Some (PDouble d) => Ok d
  | Some _ => Throw (InvalidParameterType name)
  | None => Throw (InvalidParameterName name)
  end.

Definition get_int (pl : ParameterList) (name : string) : result Z :=
  match getEntry name pl with
  | Some (PInt i) => Ok i
  | Some _ => Throw (InvalidParameterType name)
  | None => Throw (InvalidParameterName name)
  end.

Definition get_string (pl : ParameterList) (name : string) : result string :=
  match getEntry name pl with
  | Some (PString s) => Ok s
  | Some _ => Throw (InvalidParameterType name)
  | None => Throw (InvalidParameterName name)
  end.

(** ** std::string and std::stringstream, as the constructor uses them *)

Definition npos : Z := -1.

Fixpoint find_last_of_from (c : Ascii.ascii) (s : string) (i last : Z) : Z :=
  match s with
  | EmptyString => last
  | String x s' =>
      find_last_of_from c s' (i + 1) (if decide (x = c) then i else last)
  end.

(** [s.find_last_of(c)]: the last position of [c], [npos] when there is
    none. *)
Definition find_last_of (s : string) (c : Ascii.ascii) : Z :=
  find_last_of_from c s 0 npos.

(** [s.substr(pos, n)] for [pos <= s.size()], which holds where it is called
    here: at most [n] characters from [pos] on. *)
Definition substr (s : string) (pos n : Z) : string :=
  String.substring (Z.to_nat pos) (Z.to_nat n) s.

Definition INT_MAX : Z := 2147483647.

Definition INT_MIN : Z := -2147483648.

Fixpoint skipws (s : string) : string :=
  match s with
  | String c s' => if Ascii.is_space c then skipws s' else s
  | EmptyString => s
  end.

(** The number the leading decimal digits of [s] spell, after [acc]. *)
Fixpoint digits_value (s : string) (acc : Z) : Z :=
  match s with
  | EmptyString => acc
  | String c s' =>
      match Ascii.is_nat c with
      | Some d => digits_value s' (10 * acc + Z.of_nat d)
      | None => acc
      end
  end.

(** [int value; stream >> value;] and the use of [value] that follows, with
    the rules of C++11.  White space is skipped first.  When the stream ends
    there, the extraction stores nothing: [value] is still uninitialised, and
    reading it is undefined.  Otherwise an optional sign and the decimal
    digits that follow are read; the value is 0 when there is no digit and
    the nearest [int] when the number does not fit. *)
Definition extract_int (s : string) : result Z :=
  match skipws s with
  | EmptyString => Undefined
  | String "-"%char s' => Ok (Z.max INT_MIN (- digits_value s' 0))
  | String "+"%char s' => Ok (Z.min INT_MAX (digits_value s' 0))
  | s' => Ok (Z.min INT_MAX (digits_value s' 0))
  end.

(** ** QUICKGRID::Data, NeighborhoodData, and the external collaborators *)

Record QUICKGRID_Data : Type := {
  globalNumPoints : Z;
  numPoints : Z;
  myGlobalIDs : list Z;
  myX : list float;
  cellVolume : list float
}.

(** The result of a [PDNEIGH::NeighborhoodList] search:
    [get_neighborhood] is the flat list
    [count_0, gid, ..., gid, count_1, ...] of neighbour global IDs. *)
Record NeighborhoodList_t : Type := {
  get_neighborhood : list Z;
  get_owned_gids : list Z
}.

(** [PeridigmNS::NeighborhoodData].  A fresh array is modelled zero-filled;
    the tables built below write every cell they later publish as a count,
    a pointer or a neighbour. *)
Record NeighborhoodData : Type := {
  NumOwnedPoints : Z;
  OwnedIDs : list Z;
  NeighborhoodPtr : list Z;
  NeighborhoodListSize : Z;
  NeighborhoodList : list Z
}.

Definition NeighborhoodData_new : NeighborhoodData :=
  {| NumOwnedPoints := 0; OwnedIDs := []; NeighborhoodPtr := [];
     NeighborhoodListSize := 0; NeighborhoodList := [] |}.

Definition SetNumOwned (numOwned : Z) (nd : NeighborhoodData)
  : NeighborhoodData :=
  {| NumOwnedPoints := numOwned;
     OwnedIDs := replicate (Z.to_nat numOwned) 0;
     NeighborhoodPtr := replicate (Z.to_nat numOwned) 0;
     NeighborhoodListSize := NeighborhoodListSize nd;
     NeighborhoodList := NeighborhoodList nd |}.

Definition SetNeighborhoodListSize (size : Z) (nd : NeighborhoodData)
  : NeighborhoodData :=
  {| NumOwnedPoints := NumOwnedPoints nd;
     OwnedIDs := OwnedIDs nd;
     NeighborhoodPtr := NeighborhoodPtr nd;
     NeighborhoodListSize := size;
     NeighborhoodList := replicate (Z.to_nat size) 0 |}.

Definition set_OwnedIDs (a : list Z) (nd : NeighborhoodData) : NeighborhoodData :=
  {| NumOwnedPoints := NumOwnedPoints nd;
     OwnedIDs := a;
     NeighborhoodPtr := NeighborhoodPtr nd;
     NeighborhoodListSize := NeighborhoodListSize nd;
     NeighborhoodList := NeighborhoodList nd |}.

Definition set_Neighborhood (ptr list_ : list Z) (nd : NeighborhoodData)
  : NeighborhoodData :=
  {| NumOwnedPoints := NumOwnedPoints nd;
     OwnedIDs := OwnedIDs nd;
     NeighborhoodPtr := ptr;
     NeighborhoodListSize := NeighborhoodListSize nd;
     NeighborhoodList := list_ |}.

Inductive Step : Type := STEP_NONE | STEP_N | STEP_NP1.

(** What this file consumes from the rest of Peridigm and from Zoltan: the
    contact-model factory, the load balancer, the proximity search, and the
    per-block field storage. *)
Class Collaborators : Type := {
  ContactModel : Type;
  BlockData : Type;
  ContactModelFactory_create : ParameterList → result ContactModel;
  getLoadBalancedDiscretization :
    list QUICKGRID_Data → QUICKGRID_Data → QUICKGRID_Data;
  NeighborhoodList_new : QUICKGRID_Data → list float → NeighborhoodList_t;
  BlockData_initialize :
    Epetra_BlockMap → Epetra_BlockMap → Epetra_BlockMap → Epetra_BlockMap →
    Epetra_BlockMap → list float → NeighborhoodData → Z → BlockData →
    result BlockData;
  BlockData_rebalance :
    Epetra_BlockMap → Epetra_BlockMap → Epetra_BlockMap → Epetra_BlockMap →
    Epetra_BlockMap → list float → NeighborhoodData → Z → BlockData →
    result BlockData;
  BlockData_importData :
    list float → Z → Step → Epetra_CombineMode → BlockData →
    result BlockData;
  BlockData_exportData :
    BlockData → list float → Z → Step → Epetra_CombineMode →
    result (list float)
}.

Section ContactManager.
Context `{Collaborators}.

Record ContactBlock : Type := {
  getName : string;
  getID : Z;
  blockParams : ParameterList;
  getContactModel : option ContactModel;
  blockData : BlockData
}.

Definition setContactModel (model : ContactModel) (b : ContactBlock)
  : ContactBlock :=
  {| getName := getName b; getID := getID b; blockParams := blockParams b;
     getContactModel := Some model; blockData := blockData b |}.

Definition set_blockData (d : BlockData) (b : ContactBlock) : ContactBlock :=
  {| getName := getName b; getID := getID b; blockParams := blockParams b;
     getContactModel := getContactModel b; blockData := d |}.

Record ContactManager : Type := {
  params : ParameterList;
  contactRebalanceFrequency : Z;
  contactSearchRadius : float;
  blockIdFieldId : Z;
  volumeFieldId : Z;
  coordinatesFieldId : Z;
  velocityFieldId : Z;
  contactForceDensityFieldId : Z;
  contactBlocks : list ContactBlock;
  oneDimensionalMap : Epetra_BlockMap;
  threeDimensionalMap : Epetra_BlockMap;
  oneDimensionalOverlapMap : Epetra_BlockMap;
  threeDimensionalOverlapMap : Epetra_BlockMap;
  bondMap : Epetra_BlockMap;
  oneDimensionalContactMap : Epetra_BlockMap;
  threeDimensionalContactMap : Epetra_BlockMap;
  oneDimensionalOverlapContactMap : Epetra_BlockMap;
  bondContactMap : Epetra_BlockMap;
  oneDimensionalMothershipToContactMothershipImporter : Epetra_Import;
  threeDimensionalMothershipToContactMothershipImporter : Epetra_Import;
  contactBlockIDs : list float;
  contactVolume : list float;
  contactY : list float;
  contactV : list float;
  contactContactForce : list float;
  contactScratch : list float;
  neighborhoodData : NeighborhoodData;
  contactNeighborhoodData : NeighborhoodData
}.

(** *** initialize (lines 154-227) *)

Definition newline : string := String (Ascii.ascii_of_nat 10) EmptyString.

Definition noHorizonMessage (blockName : string) : string :=
  newline +:+ "**** Error, no Horizon parameter supplied for block " +:+ blockName
  +:+ " and no default block parameter list provided." +:+ newline.

Definition horizonInvalidMessage : string :=
  newline +:+ "**** Error, Horizon is an invalid contact model parameter."
  +:+ newline.

(** Lines 166-176: the horizon for a block. *)
Definition blockHorizon (blockHorizonValues : gmap string float)
    (blockName : string) : result float :=
  match blockHorizonValues !! blockName with
  | Some h => Ok h
  | None =>
      match blockHorizonValues !! "default"%string with
      | Some h => Ok h
      | None => Throw (LogicError (noHorizonMessage blockName))
      end
  end.

(** Lines 181-186: the parameter list handed to the contact-model factory. *)
Definition contactModelParameters (params : ParameterList) (horizon : float)
  : result ParameterList :=
  contactModelParams ← sublist params "Models" true;
  first ← match contactModelParams with
          | [] => Undefined
          | (name, _) :: _ => Ok name
          end;
  contactParams ← sublist contactModelParams first false;
  if isParameter contactParams "Horizon"
  then Throw (LogicError horizonInvalidMessage)
  else
    let contactParams := set "Horizon" (PDouble horizon) contactParams in
    let contactParams :=
      if isParameter contactParams "Friction Coefficient" then contactParams
      else set "Friction Coefficient" (PDouble 0%float) contactParams in
    Ok contactParams.

(** Lines 164-191: the body of the loop over the contact blocks. *)
Definition initializeBlock (params : ParameterList)
    (blockHorizonValues : gmap string float) (block : ContactBlock)
  : result ContactBlock :=
  let blockName := getName block in
  horizon ← blockHorizon blockHorizonValues blockName;
  contactParams ← contactModelParameters params horizon;
  contactModel ← ContactModelFactory_create contactParams;
  Ok (setContactModel contactModel block).

Definition initialize
    (oneDimensionalMap_ threeDimensionalMap_ oneDimensionalOverlapMap_
     bondMap_ : Epetra_BlockMap)
    (blockHorizonValues : gmap string float) (st : ContactManager)
  : result ContactManager :=
  blocks ← mapM (initializeBlock (params st) blockHorizonValues)
                (contactBlocks st);
  threeDimensionalOverlapMap_ ←
    Epetra_BlockMap_new (NumMyElements oneDimensionalOverlapMap_)
      (MyGlobalElements oneDimensionalOverlapMap_) 3;
  Ok {| params := params st;
        contactRebalanceFrequency := contactRebalanceFrequency st;
        contactSearchRadius := contactSearchRadius st;
        blockIdFieldId := blockIdFieldId st;
        volumeFieldId := volumeFieldId st;
        coordinatesFieldId := coordinatesFieldId st;
        velocityFieldId := velocityFieldId st;
        contactForceDensityFieldId := contactForceDensityFieldId st;
        contactBlocks := blocks;
        oneDimensionalMap := oneDimensionalMap_;
        threeDimensionalMap := threeDimensionalMap_;
        oneDimensionalOverlapMap := oneDimensionalOverlapMap_;
        threeDimensionalOverlapMap := threeDimensionalOverlapMap_;
        bondMap := bondMap_;
        oneDimensionalContactMap := oneDimensionalMap_;
        threeDimensionalContactMap := threeDimensionalMap_;
        oneDimensionalOverlapContactMap := oneDimensionalOverlapMap_;
        bondContactMap := bondMap_;
        oneDimensionalMothershipToContactMothershipImporter :=
          Epetra_Import_new oneDimensionalMap_ oneDimensionalMap_;
        threeDimensionalMothershipToContactMothershipImporter :=
          Epetra_Import_new threeDimensionalMap_ threeDimensionalMap_;
        contactBlockIDs := Epetra_Vector_new oneDimensionalMap_;
        contactVolume := Epetra_Vector_new oneDimensionalMap_;
        contactY := Epetra_Vector_new threeDimensionalMap_;
        contactV := Epetra_Vector_new threeDimensionalMap_;
        contactContactForce := Epetra_Vector_new threeDimensionalMap_;
        contactScratch := Epetra_Vector_new threeDimensionalMap_;
        neighborhoodData := neighborhoodData st;
        contactNeighborhoodData := contactNeighborhoodData st |}.

(** *** The constructor (lines 58-152)

    The debugging output is not modelled.  The field manager and the
    constructor of [ContactBlock] are outside this file: [getFieldId] and
    [newBlockData] stand for them. *)

Definition quote : string := String (Ascii.ascii_of_nat 34) EmptyString.

Definition notSpecifiedMessage (name : string) : string :=
  "Contact parameter " +:+ quote +:+ name +:+ quote +:+ " not specified.".

Definition invalidBlockNameMessage : string :=
  newline +:+ "**** Parse error, invalid block name." +:+ newline.

Definition invalidDiscretizationBlockNameMessage : string :=
  newline +:+ "**** Parse error, invalid block name in discretization object."
  +:+ newline.

(** Lines 110-115 and 135-139: the block ID read off a block name. *)
Definition blockIDOf (message name : string) : result Z :=
  let loc := find_last_of name "_"%char in
  if decide (loc = npos) then Throw (LogicError message)
  else extract_int (substr name (loc + 1) (Z.of_nat (String.length name))).

Definition ContactBlock_new (newBlockData : string → Z → ParameterList → BlockData)
    (name : string) (blockID : Z) (params : ParameterList) : ContactBlock :=
  {| getName := name; getID := blockID; blockParams := params;
     getContactModel := None;
     blockData := newBlockData name blockID params |}.

(** The loop state of lines 83-120: whether a default block was named, its
    parameter list, and the blocks created so far. *)
Definition BlocksState : Type := bool * ParameterList * list ContactBlock.

(** Lines 103-119: one block name of an entry. *)
Definition blockNameBody (newBlockData : string → Z → ParameterList → BlockData)
    (params : ParameterList) (blockName : string) (s : BlocksState)
  : result BlocksState :=
  let '(defaultBlocks, defaultBlockParams, blocks) := s in
  if decide (blockName = "Default"%string ∨ blockName = "default"%string)
  then Ok (true, params, blocks)
  else
    blockID ← blockIDOf invalidBlockNameMessage blockName;
    Ok (defaultBlocks, defaultBlockParams,
        blocks ++ [ContactBlock_new newBlockData blockName blockID params]).

(** Lines 93-120: one entry of the "Blocks" list. *)
Definition blocksEntryBody (newBlockData : string → Z → ParameterList → BlockData)
    (blockParams : ParameterList) (entry : string * ParameterEntry)
    (s : BlocksState) : result BlocksState :=
  let name := entry.1 in
  params ← sublist blockParams name false;
  blockNamesString ← get_string params "Block Names";
  let blockNames := String.words blockNamesString in
  for_each blockNames (blockNameBody newBlockData params) s.

(** Lines 125-144: one block name of the discretization. *)
Definition defaultBlockBody (newBlockData : string → Z → ParameterList → BlockData)
    (defaultBlockParams : ParameterList) (name : string)
    (blocks : list ContactBlock) : result (list ContactBlock) :=
  let blockMatch := existsb (λ b, bool_decide (name = getName b)) blocks in
  if blockMatch then Ok blocks
  else
    blockID ← blockIDOf invalidDiscretizationBlockNameMessage name;
    Ok (blocks ++ [ContactBlock_new newBlockData name blockID defaultBlockParams]).

(** Lines 83-145: the contact blocks. *)
Definition createContactBlocks
    (newBlockData : string → Z → ParameterList → BlockData)
    (discretizationBlockNames : list string) (peridigmParams : ParameterList)
  : result (list ContactBlock) :=
  blockParams ← sublist peridigmParams "Blocks" true;
  '(defaultBlocks, defaultBlockParams, blocks) ←
    for_each blockParams (blocksEntryBody newBlockData blockParams)
      (false, [], []);
  if defaultBlocks : bool then
    for_each discretizationBlockNames
      (defaultBlockBody newBlockData defaultBlockParams) blocks
  else Ok blocks.

(** What a map, an importer and a table are modelled as while the member is
    still a null pointer. *)
Definition null_map : Epetra_BlockMap :=
  {| MyGlobalElements := []; ElementSizeList := [] |}.

Definition null_importer : Epetra_Import := Epetra_Import_new null_map null_map.

Definition ContactManager_new (getFieldId : string → result Z)
    (newBlockData : string → Z → ParameterList → BlockData)
    (contactParams : ParameterList) (discretizationBlockNames : list string)
    (peridigmParams : ParameterList) : result ContactManager :=
  blockIdFieldId_ ← getFieldId "Block_Id"%string;
  volumeFieldId_ ← getFieldId "Volume"%string;
  coordinatesFieldId_ ← getFieldId "Coordinates"%string;
  velocityFieldId_ ← getFieldId "Velocity"%string;
  contactForceDensityFieldId_ ← getFieldId "Contact_Force_Density"%string;
  if negb (isParameter contactParams "Search Radius")
  then Throw (InvalidParameter (notSpecifiedMessage "Search Radius"))
  else
    contactSearchRadius_ ← get_double contactParams "Search Radius";
    if negb (isParameter contactParams "Search Frequency")
    then Throw (InvalidParameter (notSpecifiedMessage "Search Frequency"))
    else
      contactRebalanceFrequency_ ← get_int contactParams "Search Frequency";
      contactBlocks_ ←
        createContactBlocks newBlockData discretizationBlockNames
          peridigmParams;
      Ok {| params := contactParams;
            contactRebalanceFrequency := contactRebalanceFrequency_;
            contactSearchRadius := contactSearchRadius_;
            blockIdFieldId := blockIdFieldId_;
            volumeFieldId := volumeFieldId_;
            coordinatesFieldId := coordinatesFieldId_;
            velocityFieldId := velocityFieldId_;
            contactForceDensityFieldId := contactForceDensityFieldId_;
            contactBlocks := contactBlocks_;
            oneDimensionalMap := null_map;
            threeDimensionalMap := null_map;
            oneDimensionalOverlapMap := null_map;
            threeDimensionalOverlapMap := null_map;
            bondMap := null_map;
            oneDimensionalContactMap := null_map;
            threeDimensionalContactMap := null_map;
            oneDimensionalOverlapContactMap := null_map;
            bondContactMap := null_map;
            oneDimensionalMothershipToContactMothershipImporter := null_importer;
            threeDimensionalMothershipToContactMothershipImporter :=
              null_importer;
            contactBlockIDs := [];
            contactVolume := [];
            contactY := [];
            contactV := [];
            contactContactForce := [];
            contactScratch := [];
            neighborhoodData := NeighborhoodData_new;
            contactNeighborhoodData := NeighborhoodData_new |}.

(** The six columns of the two contact mothership multi-vectors. *)
Definition set_mothership
    (blockIDs volume y v contactForce scratch : list float)
    (st : ContactManager) : ContactManager :=
  {| params := params st;
     contactRebalanceFrequency := contactRebalanceFrequency st;
     contactSearchRadius := contactSearchRadius st;
     blockIdFieldId := blockIdFieldId st;
     volumeFieldId := volumeFieldId st;
     coordinatesFieldId := coordinatesFieldId st;
     velocityFieldId := velocityFieldId st;
     contactForceDensityFieldId := contactForceDensityFieldId st;
     contactBlocks := contactBlocks st;
     oneDimensionalMap := oneDimensionalMap st;
     threeDimensionalMap := threeDimensionalMap st;
     oneDimensionalOverlapMap := oneDimensionalOverlapMap st;
     threeDimensionalOverlapMap := threeDimensionalOverlapMap st;
     bondMap := bondMap st;
     oneDimensionalContactMap := oneDimensionalContactMap st;
     threeDimensionalContactMap := threeDimensionalContactMap st;
     oneDimensionalOverlapContactMap := oneDimensionalOverlapContactMap st;
     bondContactMap := bondContactMap st;
     oneDimensionalMothershipToContactMothershipImporter :=
       oneDimensionalMothershipToContactMothershipImporter st;
     threeDimensionalMothershipToContactMothershipImporter :=
       threeDimensionalMothershipToContactMothershipImporter st;
     contactBlockIDs := blockIDs;
     contactVolume := volume;
     contactY := y;
     contactV := v;
     contactContactForce := contactForce;
     contactScratch := scratch;
     neighborhoodData := neighborhoodData st;
     contactNeighborhoodData := contactNeighborhoodData st |}.

Definition set_contactBlocks (blocks : list ContactBlock) (st : ContactManager)
  : ContactManager :=
  {| params := params st;
     contactRebalanceFrequency := contactRebalanceFrequency st;
     contactSearchRadius := contactSearchRadius st;
     blockIdFieldId := blockIdFieldId st;
     volumeFieldId := volumeFieldId st;
     coordinatesFieldId := coordinatesFieldId st;
     velocityFieldId := velocityFieldId st;
     contactForceDensityFieldId := contactForceDensityFieldId st;
     contactBlocks := blocks;
     oneDimensionalMap := oneDimensionalMap st;
     threeDimensionalMap := threeDimensionalMap st;
     oneDimensionalOverlapMap := oneDimensionalOverlapMap st;
     threeDimensionalOverlapMap := threeDimensionalOverlapMap st;
     bondMap := bondMap st;
     oneDimensionalContactMap := oneDimensionalContactMap st;
     threeDimensionalContactMap := threeDimensionalContactMap st;
     oneDimensionalOverlapContactMap := oneDimensionalOverlapContactMap st;
     bondContactMap := bondContactMap st;
     oneDimensionalMothershipToContactMothershipImporter :=
       oneDimensionalMothershipToContactMothershipImporter st;
     threeDimensionalMothershipToContactMothershipImporter :=
       threeDimensionalMothershipToContactMothershipImporter st;
     contactBlockIDs := contactBlockIDs st;
     contactVolume := contactVolume st;
     contactY := contactY st;
     contactV := contactV st;
     contactContactForce := contactContactForce st;
     contactScratch := contactScratch st;
     neighborhoodData := neighborhoodData st;
     contactNeighborhoodData := contactNeighborhoodData st |}.

Definition set_neighborhoodData (nd cnd : NeighborhoodData)
    (st : ContactManager) : ContactManager :=
  {| params := params st;
     contactRebalanceFrequency := contactRebalanceFrequency st;
     contactSearchRadius := contactSearchRadius st;
     blockIdFieldId := blockIdFieldId st;
     volumeFieldId := volumeFieldId st;
     coordinatesFieldId := coordinatesFieldId st;
     velocityFieldId := velocityFieldId st;
     contactForceDensityFieldId := contactForceDensityFieldId st;
     contactBlocks := contactBlocks st;
     oneDimensionalMap := oneDimensionalMap st;
     threeDimensionalMap := threeDimensionalMap st;
     oneDimensionalOverlapMap := oneDimensionalOverlapMap st;
     threeDimensionalOverlapMap := threeDimensionalOverlapMap st;
     bondMap := bondMap st;
     oneDimensionalContactMap := oneDimensionalContactMap st;
     threeDimensionalContactMap := threeDimensionalContactMap st;
     oneDimensionalOverlapContactMap := oneDimensionalOverlapContactMap st;
     bondContactMap := bondContactMap st;
     oneDimensionalMothershipToContactMothershipImporter :=
       oneDimensionalMothershipToContactMothershipImporter st;
     threeDimensionalMothershipToContactMothershipImporter :=
       threeDimensionalMothershipToContactMothershipImporter st;
     contactBlockIDs := contactBlockIDs st;
     contactVolume := contactVolume st;
     contactY := contactY st;
     contactV := contactV st;
     contactContactForce := contactContactForce st;
     contactScratch := contactScratch st;
     neighborhoodData := nd;
     contactNeighborhoodData := cnd |}.

(** The maps and importers replaced at the end of [rebalance]
    (lines 394-402). *)
Definition set_contactMaps
    (oneD oneDOverlap threeD bond : Epetra_BlockMap)
    (st : ContactManager) : ContactManager :=
  {| params := params st;
     contactRebalanceFrequency := contactRebalanceFrequency st;
     contactSearchRadius := contactSearchRadius st;
     blockIdFieldId := blockIdFieldId st;
     volumeFieldId := volumeFieldId st;
     coordinatesFieldId := coordinatesFieldId st;
     velocityFieldId := velocityFieldId st;
     contactForceDensityFieldId := contactForceDensityFieldId st;
     contactBlocks := contactBlocks st;
     oneDimensionalMap := oneDimensionalMap st;
     threeDimensionalMap := threeDimensionalMap st;
     oneDimensionalOverlapMap := oneDimensionalOverlapMap st;
     threeDimensionalOverlapMap := threeDimensionalOverlapMap st;
     bondMap := bondMap st;
     oneDimensionalContactMap := oneD;
     threeDimensionalContactMap := threeD;
     oneDimensionalOverlapContactMap := oneDOverlap;
     bondContactMap := bond;
     oneDimensionalMothershipToContactMothershipImporter :=
       Epetra_Import_new oneD (oneDimensionalMap st);
     threeDimensionalMothershipToContactMothershipImporter :=
       Epetra_Import_new threeD (threeDimensionalMap st);
     contactBlockIDs := contactBlockIDs st;
     contactVolume := contactVolume st;
     contactY := contactY st;
     contactV := contactV st;
     contactContactForce := contactContactForce st;
     contactScratch := contactScratch st;
     neighborhoodData := neighborhoodData st;
     contactNeighborhoodData := contactNeighborhoodData st |}.

(** A distributed vector as the collective operations see it: the pieces
    held by all ranks. *)
Definition gather {A : Type} (maps : list Epetra_BlockMap) (vs : list (list A))
  : list (Z * list A) :=
  concat (zip_with pieces maps vs).

(** *** loadAllMothershipData (lines 229-240) *)

Definition loadAllMothershipData (blockIds volume y v : list (Z * list float))
    (st : ContactManager) : result ContactManager :=
  contactBlockIDs' ←
    Import (contactBlockIDs st) blockIds
      (oneDimensionalMothershipToContactMothershipImporter st) Insert;
  contactVolume' ←
    Import (contactVolume st) volume
      (oneDimensionalMothershipToContactMothershipImporter st) Insert;
  contactY' ←
    Import (contactY st) y
      (threeDimensionalMothershipToContactMothershipImporter st) Insert;
  contactV' ←
    Import (contactV st) v
      (threeDimensionalMothershipToContactMothershipImporter st) Insert;
  Ok (set_mothership contactBlockIDs' contactVolume' contactY' contactV'
        (PutScalar 0%float (contactContactForce st))
        (PutScalar 0%float (contactScratch st)) st).

(** *** loadNeighborhoodData and initializeContactBlocks (lines 242-259) *)

Definition loadNeighborhoodData (globalNeighborhoodData : NeighborhoodData)
    (st : ContactManager) : ContactManager :=
  set_neighborhoodData globalNeighborhoodData globalNeighborhoodData st.

Definition initializeContactBlocks (st : ContactManager)
  : result ContactManager :=
  blocks ← mapM (λ b,
      d ← BlockData_initialize (oneDimensionalMap st)
             (oneDimensionalOverlapMap st) (threeDimensionalMap st)
             (threeDimensionalOverlapMap st) (bondMap st)
             (contactBlockIDs st) (contactNeighborhoodData st)
             (getID b) (blockData b);
      Ok (set_blockData d b)) (contactBlocks st);
  Ok (set_contactBlocks blocks st).

(** *** importData (lines 261-276) *)

Definition ContactBlock_importData (source : list float) (fieldId : Z)
    (step : Step) (mode : Epetra_CombineMode) (b : ContactBlock)
  : result ContactBlock :=
  d ← BlockData_importData source fieldId step mode (blockData b);
  Ok (set_blockData d b).

Definition importData (volume coordinates velocity : list (Z * list float))
    (st : ContactManager) : result ContactManager :=
  contactVolume' ←
    Import (contactVolume st) volume
      (oneDimensionalMothershipToContactMothershipImporter st) Insert;
  contactY' ←
    Import (contactY st) coordinates
      (threeDimensionalMothershipToContactMothershipImporter st) Insert;
  contactV' ←
    Import (contactV st) velocity
      (threeDimensionalMothershipToContactMothershipImporter st) Insert;
  blocks ← mapM (λ b,
      b' ← ContactBlock_importData contactY' (coordinatesFieldId st)
             STEP_NP1 Insert b;
      ContactBlock_importData contactV' (velocityFieldId st)
        STEP_NP1 Insert b') (contactBlocks st);
  Ok (set_contactBlocks blocks
        (set_mothership (contactBlockIDs st) contactVolume' contactY' contactV'
           (contactContactForce st) (contactScratch st) st)).

(** *** exportData (lines 278-288) *)

(** [this->Update(1.0, A, 1.0)]: [this = 1.0 * this + 1.0 * A], which Epetra
    evaluates as [this + A] cell by cell. *)
Definition Update_1_1 (this A : list float) : result (list float) :=
  if decide (length this = length A)
  then Ok (zip_with PrimFloat.add this A)
  else Undefined.

(** Lines 280-285: the contact force of every block summed into
    [contactContactForce]. *)
Definition sumBlockContactForces (st : ContactManager) : result ContactManager :=
  '(contactForce, scratch) ←
    for_each (contactBlocks st) (λ b '(contactForce, scratch),
        let scratch := PutScalar 0%float scratch in
        scratch ← BlockData_exportData (blockData b) scratch
                    (contactForceDensityFieldId st) STEP_NP1 Add;
        contactForce ← Update_1_1 contactForce scratch;
        Ok (contactForce, scratch))
      (PutScalar 0%float (contactContactForce st), contactScratch st);
  Ok (set_mothership (contactBlockIDs st) (contactVolume st) (contactY st)
        (contactV st) contactForce scratch st).

Definition exportData (peers : list ContactManager) (contactForce : list float)
    (st : ContactManager) : result (ContactManager * list float) :=
  st' ← sumBlockContactForces st;
  peers' ← mapM sumBlockContactForces peers;
  let all := st' :: peers' in
  contactForce' ←
    Export contactForce
      (gather (threeDimensionalContactMap <$> all) (contactContactForce <$> all))
      (threeDimensionalMothershipToContactMothershipImporter st') Insert;
  Ok (st', contactForce').

(** *** currentConfigurationDecomp (lines 405-442) *)

(** [memcpy(dst, src, n * sizeof(T))] into a fresh array of [n] cells. *)
Definition memcpy {A : Type} (src : list A) (n : Z) : result (list A) :=
  if decide (0 ≤ n ≤ len src) then Ok (take (Z.to_nat n) src) else Undefined.

Definition NumGlobalElements (maps : list Epetra_BlockMap) : Z :=
  sum_list (NumMyElements <$> maps).

(** Lines 407-436: the decomposition this rank hands to the load balancer. *)
Definition localDecomp (numGlobal : Z) (st : ContactManager)
  : result QUICKGRID_Data :=
  let myNumElements := NumMyElements (oneDimensionalContactMap st) in
  let dimension := 3 in
  myGlobalIDs_ ←
    memcpy (MyGlobalElements (oneDimensionalContactMap st)) myNumElements;
  myX_ ← memcpy (contactY st) (myNumElements * dimension);
  cellVolume_ ← memcpy (contactVolume st) myNumElements;
  Ok {| globalNumPoints := numGlobal;
        numPoints := myNumElements;
        myGlobalIDs := myGlobalIDs_;
        myX := myX_;
        cellVolume := cellVolume_ |}.

Definition currentConfigurationDecomp (peers : list ContactManager)
    (st : ContactManager) : result QUICKGRID_Data :=
  let numGlobal :=
    NumGlobalElements (oneDimensionalContactMap <$> st :: peers) in
  decomp ← localDecomp numGlobal st;
  others ← mapM (localDecomp numGlobal) peers;
  Ok (getLoadBalancedDiscretization others decomp).

(** Modelled from the spec: [PdQuickGridDiscretization::getOwnedMap] is
    declared outside this file.  Section 4.5 (Partitioning) has it derive the
    owned index map, with one or three components per point, from the
    partitioner's owned global IDs. *)
Definition getOwnedMap (decomp : QUICKGRID_Data) (ndf : Z)
  : result Epetra_BlockMap :=
  Epetra_BlockMap_new (numPoints decomp) (myGlobalIDs decomp) ndf.

(** *** createRebalancedBondMap (lines 444-487) *)

(** Lines 450-456: the number of bonds of each point owned by a rank. *)
Definition numberOfBondsBody (st : ContactManager) (i : Z)
    (numberOfBonds : list Z) : result (list Z) :=
  let globalID := GID (oneDimensionalContactMap st) i in
  let bondMapLocalID := LID (bondContactMap st) globalID in
  if decide (bondMapLocalID ≠ -1) then
    size ← ElementSize (bondContactMap st) i;
    store numberOfBonds i size
  else Ok numberOfBonds.

Definition numberOfBonds (st : ContactManager) : result (list Z) :=
  for_loop (NumMyElements (oneDimensionalContactMap st))
    (numberOfBondsBody st)
    (Epetra_Vector_new (oneDimensionalContactMap st)).

(** Lines 450-458: the counts of all ranks, imported into the rebalanced
    owned map. *)
Definition rebalancedNumberOfBonds (peers : list ContactManager)
    (st : ContactManager) (rebalancedOneDimensionalMap : Epetra_BlockMap)
    (importer : Epetra_Import) : result (list Z) :=
  let all := st :: peers in
  counts ← mapM numberOfBonds all;
  Import (Epetra_Vector_new rebalancedOneDimensionalMap)
    (gather (oneDimensionalContactMap <$> all) counts) importer Insert.

Record BondMapArrays : Type := {
  numMyElements : Z;
  myGlobalElements : list Z;
  elementSizeList : list Z;
  numPointsWithZeroNeighbors : Z
}.

(** Lines 469-479. *)
Definition bondMapBody (rebalancedOneDimensionalMapGlobalElements : list Z)
    (rebalancedNumberOfBonds_ : list Z) (i : Z) (a : BondMapArrays)
  : result BondMapArrays :=
  numBonds ← at_ rebalancedNumberOfBonds_ i;
  if decide (numBonds > 0) then
    gid ← at_ rebalancedOneDimensionalMapGlobalElements i;
    myGlobalElements' ←
      store (myGlobalElements a) (i - numPointsWithZeroNeighbors a) gid;
    elementSizeList' ←
      store (elementSizeList a) (i - numPointsWithZeroNeighbors a) numBonds;
    Ok {| numMyElements := numMyElements a + 1;
          myGlobalElements := myGlobalElements';
          elementSizeList := elementSizeList';
          numPointsWithZeroNeighbors := numPointsWithZeroNeighbors a |}
  else
    Ok {| numMyElements := numMyElements a;
          myGlobalElements := myGlobalElements a;
          elementSizeList := elementSizeList a;
          numPointsWithZeroNeighbors := numPointsWithZeroNeighbors a + 1 |}.

(** Lines 462-479: the arrays the rebalanced bond map is built from. *)
Definition bondMapArrays (rebalancedOneDimensionalMap : Epetra_BlockMap)
    (rebalancedNumberOfBonds_ : list Z) : result BondMapArrays :=
  let numMyElementsUpperBound := NumMyElements rebalancedOneDimensionalMap in
  for_loop numMyElementsUpperBound
    (bondMapBody (MyGlobalElements rebalancedOneDimensionalMap)
       rebalancedNumberOfBonds_)
    {| numMyElements := 0;
       myGlobalElements := replicate (Z.to_nat numMyElementsUpperBound) 0;
       elementSizeList := replicate (Z.to_nat numMyElementsUpperBound) 0;
       numPointsWithZeroNeighbors := 0 |}.

(** Lines 460-486. *)
Definition buildRebalancedBondMap (rebalancedOneDimensionalMap : Epetra_BlockMap)
    (rebalancedNumberOfBonds_ : list Z) : result Epetra_BlockMap :=
  a ← bondMapArrays rebalancedOneDimensionalMap rebalancedNumberOfBonds_;
  Epetra_BlockMap_new_sizes (numMyElements a) (myGlobalElements a)
    (elementSizeList a).

Definition createRebalancedBondMap (peers : list ContactManager)
    (st : ContactManager) (rebalancedOneDimensionalMap : Epetra_BlockMap)
    (oneDimensionalMapToRebalancedOneDimensionalMapImporter : Epetra_Import)
  : result Epetra_BlockMap :=
  counts ← rebalancedNumberOfBonds peers st rebalancedOneDimensionalMap
             oneDimensionalMapToRebalancedOneDimensionalMapImporter;
  buildRebalancedBondMap rebalancedOneDimensionalMap counts.

(** *** createRebalancedNeighborGlobalIDList (lines 549-569) *)

(** Lines 552-562: the bonded global IDs of a rank's points, laid out on its
    bond map. *)
Definition neighborGlobalIDs (st : ContactManager) : result (list Z) :=
  let neighborhoodList := NeighborhoodList (neighborhoodData st) in
  '(_, _, ids) ←
    for_loop (NumOwnedPoints (neighborhoodData st))
      (λ i '(neighborhoodListIndex, neighborGlobalIDIndex, ids),
         numNeighbors ← at_ neighborhoodList neighborhoodListIndex;
         for_loop numNeighbors
           (λ j '(neighborhoodListIndex, neighborGlobalIDIndex, ids),
              neighborLocalID ← at_ neighborhoodList neighborhoodListIndex;
              ids' ← store ids neighborGlobalIDIndex
                       (GID (oneDimensionalOverlapContactMap st) neighborLocalID);
              Ok (neighborhoodListIndex + 1, neighborGlobalIDIndex + 1, ids'))
           (neighborhoodListIndex + 1, neighborGlobalIDIndex, ids))
      (0, 0, Epetra_Vector_new (bondContactMap st));
  Ok ids.

Definition createRebalancedNeighborGlobalIDList (peers : list ContactManager)
    (st : ContactManager) (rebalancedBondMap : Epetra_BlockMap)
    (bondMapToRebalancedBondMapImporter : Epetra_Import) : result (list Z) :=
  let all := st :: peers in
  ids ← mapM neighborGlobalIDs all;
  Import (Epetra_Vector_new rebalancedBondMap)
    (gather (bondContactMap <$> all) ids)
    bondMapToRebalancedBondMapImporter Insert.

(** *** contactSearch (lines 494-547) *)

(** Lines 521-532: the global IDs a point is bonded to. *)
Definition bondedNeighbors (rebalancedBondMap : Epetra_BlockMap)
    (rebalancedNeighborGlobalIDs : list Z) (globalID : Z) : result (list Z) :=
  let tempLocalID := LID rebalancedBondMap globalID in
  if decide (tempLocalID ≠ -1) then
    firstNeighbor ← at_ (FirstPointInElementList rebalancedBondMap) tempLocalID;
    numNeighbors ← ElementSize rebalancedBondMap tempLocalID;
    for_loop numNeighbors
      (λ i bonded,
         neighborGlobalID ← at_ rebalancedNeighborGlobalIDs (firstNeighbor + i);
         Ok (bonded ++ [neighborGlobalID]))
      []
  else Ok [].

(** The loop state of the search: the read position in the search result,
    the contact neighbours by owned global ID, and the off-processor IDs. *)
Definition SearchState : Type := Z * gmap Z (list Z) * gset Z.

(** Lines 538-544: one neighbour found by the search. *)
Definition retainBody (rebalancedOneDimensionalMap : Epetra_BlockMap)
    (searchNeighborhood : list Z) (globalID : Z) (bonded : list Z)
    (iNeighbor : Z) (s : SearchState) : result SearchState :=
  let '(searchListIndex, contactNeighborGlobalIDs, offProcessorContactIDs) := s in
  globalNeighborID ← at_ searchNeighborhood searchListIndex;
  if decide (globalNeighborID ∈ bonded) then
    Ok (searchListIndex + 1, contactNeighborGlobalIDs, offProcessorContactIDs)
  else
    let contactNeighborGlobalIDs :=
      <[globalID := default [] (contactNeighborGlobalIDs !! globalID)
                    ++ [globalNeighborID]]> contactNeighborGlobalIDs in
    let offProcessorContactIDs :=
      if decide (LID rebalancedOneDimensionalMap globalNeighborID = -1)
      then {[globalNeighborID]} ∪ offProcessorContactIDs
      else offProcessorContactIDs in
    Ok (searchListIndex + 1, contactNeighborGlobalIDs, offProcessorContactIDs).

(** Lines 516-546: one owned point.  [operator[]] on the map creates the
    point's entry, empty, when it has none. *)
Definition searchBody (rebalancedOneDimensionalMap rebalancedBondMap : Epetra_BlockMap)
    (rebalancedNeighborGlobalIDs searchNeighborhood searchGlobalIDs : list Z)
    (iPt : Z) (s : SearchState) : result SearchState :=
  let '(searchListIndex, contactNeighborGlobalIDs, offProcessorContactIDs) := s in
  globalID ← at_ searchGlobalIDs iPt;
  let contactNeighborGlobalIDs :=
    match contactNeighborGlobalIDs !! globalID with
    | Some _ => contactNeighborGlobalIDs
    | None => <[globalID := []]> contactNeighborGlobalIDs
    end in
  bonded ← bondedNeighbors rebalancedBondMap rebalancedNeighborGlobalIDs globalID;
  searchNumNeighbors ← at_ searchNeighborhood searchListIndex;
  for_loop searchNumNeighbors
    (retainBody rebalancedOneDimensionalMap searchNeighborhood globalID bonded)
    (searchListIndex + 1, contactNeighborGlobalIDs, offProcessorContactIDs).

Definition contactSearch (st : ContactManager)
    (rebalancedOneDimensionalMap rebalancedBondMap : Epetra_BlockMap)
    (rebalancedNeighborGlobalIDs : list Z) (rebalancedDecomp : QUICKGRID_Data)
    (contactNeighborGlobalIDs : gmap Z (list Z))
    (offProcessorContactIDs : gset Z)
  : result (gmap Z (list Z) * gset Z) :=
  let d := rebalancedDecomp in
  let contactSearchRadii :=
    PutScalar (contactSearchRadius st)
      (Epetra_Vector_new rebalancedOneDimensionalMap) in
  let neighList := NeighborhoodList_new d contactSearchRadii in
  let searchNeighborhood := get_neighborhood neighList in
  let searchGlobalIDs := get_owned_gids neighList in
  '(_, contactNeighborGlobalIDs', offProcessorContactIDs') ←
    for_loop (numPoints rebalancedDecomp)
      (searchBody rebalancedOneDimensionalMap rebalancedBondMap
         rebalancedNeighborGlobalIDs searchNeighborhood searchGlobalIDs)
      (0, contactNeighborGlobalIDs, offProcessorContactIDs);
  Ok (contactNeighborGlobalIDs', offProcessorContactIDs').

(** *** createRebalancedNeighborhoodData (lines 571-618) *)

Definition invalidOverlapIndex : exn :=
  RangeError "Invalid index into rebalancedOneDimensionalOverlapMap".

Definition invalidContactIndex : exn :=
  RangeError "Invalid index into contactNeighborGlobalIDs".

(** Lines 577-584 and 627-634: the overlap slots of the owned points. *)
Definition ownedIDsBody (rebalancedOneDimensionalMap
    rebalancedOneDimensionalOverlapMap : Epetra_BlockMap) (i : Z)
    (ownedIDs : list Z) : result (list Z) :=
  let globalID := GID rebalancedOneDimensionalMap i in
  let localID := LID rebalancedOneDimensionalOverlapMap globalID in
  if decide (localID = -1) then Throw invalidOverlapIndex
  else store ownedIDs i localID.

Definition recordOwnedIDs (rebalancedOneDimensionalMap
    rebalancedOneDimensionalOverlapMap : Epetra_BlockMap)
  : result NeighborhoodData :=
  let nd :=
    SetNumOwned (NumMyElements rebalancedOneDimensionalMap)
      NeighborhoodData_new in
  ownedIDs ←
    for_loop (NumMyElements rebalancedOneDimensionalMap)
      (ownedIDsBody rebalancedOneDimensionalMap
         rebalancedOneDimensionalOverlapMap)
      (OwnedIDs nd);
  Ok (set_OwnedIDs ownedIDs nd).

(** The arrays a table is written into, and the write position. *)
Definition TableState : Type := list Z * list Z * Z.

(** Lines 605-610: one bonded neighbour. *)
Definition bondNeighborBody (rebalancedOneDimensionalOverlapMap : Epetra_BlockMap)
    (rebalancedNeighborGlobalIDs : list Z) (offset : Z) (iN : Z)
    (s : list Z * Z) : result (list Z * Z) :=
  let '(neighborhoodList, neighborhoodIndex) := s in
  globalNeighborID ← at_ rebalancedNeighborGlobalIDs (offset + iN);
  let localNeighborID := LID rebalancedOneDimensionalOverlapMap globalNeighborID in
  if decide (localNeighborID = -1) then Throw invalidOverlapIndex
  else
    neighborhoodList' ← store neighborhoodList neighborhoodIndex localNeighborID;
    Ok (neighborhoodList', neighborhoodIndex + 1).

(** Lines 594-615: one owned point of the bond table. *)
Definition bondTableBody (rebalancedOneDimensionalMap
    rebalancedOneDimensionalOverlapMap rebalancedBondMap : Epetra_BlockMap)
    (rebalancedNeighborGlobalIDs : list Z) (iLID : Z) (s : TableState)
  : result TableState :=
  let '(neighborhoodList, neighborhoodPtr, neighborhoodIndex) := s in
  let firstPointInElementList := FirstPointInElementList rebalancedBondMap in
  neighborhoodPtr' ← store neighborhoodPtr iLID neighborhoodIndex;
  let globalID := GID rebalancedOneDimensionalMap iLID in
  let rebalancedBondMapLocalID := LID rebalancedBondMap globalID in
  if decide (rebalancedBondMapLocalID ≠ -1) then
    numNeighbors ← ElementSize rebalancedBondMap rebalancedBondMapLocalID;
    neighborhoodList' ← store neighborhoodList neighborhoodIndex numNeighbors;
    offset ← at_ firstPointInElementList rebalancedBondMapLocalID;
    '(neighborhoodList'', neighborhoodIndex') ←
      for_loop numNeighbors
        (bondNeighborBody rebalancedOneDimensionalOverlapMap
           rebalancedNeighborGlobalIDs offset)
        (neighborhoodList', neighborhoodIndex + 1);
    Ok (neighborhoodList'', neighborhoodPtr', neighborhoodIndex')
  else
    neighborhoodList' ← store neighborhoodList neighborhoodIndex 0;
    Ok (neighborhoodList', neighborhoodPtr', neighborhoodIndex + 1).

Definition createRebalancedNeighborhoodData (rebalancedOneDimensionalMap
    rebalancedOneDimensionalOverlapMap rebalancedBondMap : Epetra_BlockMap)
    (rebalancedNeighborGlobalIDs : list Z) : result NeighborhoodData :=
  nd ← recordOwnedIDs rebalancedOneDimensionalMap
         rebalancedOneDimensionalOverlapMap;
  let nd :=
    SetNeighborhoodListSize
      (NumMyElements rebalancedOneDimensionalMap + NumMyPoints rebalancedBondMap)
      nd in
  '(neighborhoodList, neighborhoodPtr, _) ←
    for_loop (NumMyElements rebalancedOneDimensionalMap)
      (bondTableBody rebalancedOneDimensionalMap
         rebalancedOneDimensionalOverlapMap rebalancedBondMap
         rebalancedNeighborGlobalIDs)
      (NeighborhoodList nd, NeighborhoodPtr nd, 0);
  Ok (set_Neighborhood neighborhoodPtr neighborhoodList nd).

(** *** createRebalancedContactNeighborhoodData (lines 621-662) *)

(** Lines 657-659: one contact neighbour; the slot is written as [LID]
    returns it. *)
Definition contactNeighborBody (rebalancedOneDimensionalOverlapMap : Epetra_BlockMap)
    (neighborGlobalIDs_ : list Z) (iNeighbor : Z) (s : list Z * Z)
  : result (list Z * Z) :=
  let '(neighborhoodList, neighborhoodIndex) := s in
  globalNeighborID ← at_ neighborGlobalIDs_ iNeighbor;
  neighborhoodList' ←
    store neighborhoodList neighborhoodIndex
      (LID rebalancedOneDimensionalOverlapMap globalNeighborID);
  Ok (neighborhoodList', neighborhoodIndex + 1).

(** Lines 646-660: one owned point of the contact table. *)
Definition contactTableBody (contactNeighborGlobalIDs : gmap Z (list Z))
    (rebalancedOneDimensionalMap
     rebalancedOneDimensionalOverlapMap : Epetra_BlockMap)
    (iLID : Z) (s : TableState) : result TableState :=
  let '(neighborhoodList, neighborhoodPtr, neighborhoodIndex) := s in
  neighborhoodPtr' ← store neighborhoodPtr iLID neighborhoodIndex;
  let globalID := GID rebalancedOneDimensionalMap iLID in
  match contactNeighborGlobalIDs !! globalID with
  | None => Throw invalidContactIndex
  | Some neighborGlobalIDs_ =>
      neighborhoodList' ←
        store neighborhoodList neighborhoodIndex (len neighborGlobalIDs_);
      '(neighborhoodList'', neighborhoodIndex') ←
        for_loop (len neighborGlobalIDs_)
          (contactNeighborBody rebalancedOneDimensionalOverlapMap
             neighborGlobalIDs_)
          (neighborhoodList', neighborhoodIndex + 1);
      Ok (neighborhoodList'', neighborhoodPtr', neighborhoodIndex')
  end.

(** Lines 636-638. *)
Definition contactNeighborhoodListSize
    (contactNeighborGlobalIDs : gmap Z (list Z)) : Z :=
  foldl (λ neighborhoodListSize kv, neighborhoodListSize + (len kv.2 + 1)) 0
    (map_to_list contactNeighborGlobalIDs).

Definition createRebalancedContactNeighborhoodData
    (contactNeighborGlobalIDs : gmap Z (list Z))
    (rebalancedOneDimensionalMap
     rebalancedOneDimensionalOverlapMap : Epetra_BlockMap)
  : result NeighborhoodData :=
  nd ← recordOwnedIDs rebalancedOneDimensionalMap
         rebalancedOneDimensionalOverlapMap;
  let nd :=
    SetNeighborhoodListSize
      (contactNeighborhoodListSize contactNeighborGlobalIDs) nd in
  '(neighborhoodList, neighborhoodPtr, _) ←
    for_loop (NumMyElements rebalancedOneDimensionalMap)
      (contactTableBody contactNeighborGlobalIDs rebalancedOneDimensionalMap
         rebalancedOneDimensionalOverlapMap)
      (NeighborhoodList nd, NeighborhoodPtr nd, 0);
  Ok (set_Neighborhood neighborhoodPtr neighborhoodList nd).

(** *** rebalance (lines 290-403) *)

(** A [std::set<int>] is visited in increasing order. *)
Definition set_iter (s : gset Z) : list Z := merge_sort Z.le (elements s).

(** Lines 313-319: the bonded neighbours that are not owned. *)
Definition bondedOffProcessorIDs (rebalancedOneDimensionalMap : Epetra_BlockMap)
    (rebalancedNeighborGlobalIDs : list Z) : result (gset Z) :=
  for_loop (len rebalancedNeighborGlobalIDs)
    (λ i offProcessorIDs,
       globalID ← at_ rebalancedNeighborGlobalIDs i;
       if MyGID rebalancedOneDimensionalMap globalID then Ok offProcessorIDs
       else Ok ({[globalID]} ∪ offProcessorIDs))
    ∅.

(** Lines 329-332. *)
Definition addContactIDs (offProcessorContactIDs offProcessorIDs : gset Z)
  : gset Z :=
  foldl (λ ids gid, {[gid]} ∪ ids) offProcessorIDs
    (set_iter offProcessorContactIDs).

(** Lines 336-343: the global IDs of the overlap map, owned first. *)
Definition overlapGlobalElements (rebalancedOneDimensionalMap : Epetra_BlockMap)
    (offProcessorIDs : gset Z) : result (Z * list Z) :=
  let numMyElements_ :=
    NumMyElements rebalancedOneDimensionalMap
    + Z.of_nat (size offProcessorIDs) in
  let owned := MyGlobalElements rebalancedOneDimensionalMap in
  let myGlobalElements_ :=
    owned ++ replicate (Z.to_nat numMyElements_ - length owned)%nat 0 in
  let offset := NumMyElements rebalancedOneDimensionalMap in
  '(_, myGlobalElements') ←
    for_each (set_iter offProcessorIDs)
      (λ gid '(index, a), a' ← store a (offset + index) gid; Ok (index + 1, a'))
      (0, myGlobalElements_);
  Ok (numMyElements_, myGlobalElements').

(** Lines 334-350. *)
Definition rebalancedOverlapMaps (rebalancedOneDimensionalMap : Epetra_BlockMap)
    (offProcessorIDs : gset Z) : result (Epetra_BlockMap * Epetra_BlockMap) :=
  '(numMyElements_, myGlobalElements_) ←
    overlapGlobalElements rebalancedOneDimensionalMap offProcessorIDs;
  rebalancedOneDimensionalOverlapMap ←
    Epetra_BlockMap_new numMyElements_ myGlobalElements_ 1;
  rebalancedThreeDimensionalOverlapMap ←
    Epetra_BlockMap_new numMyElements_ myGlobalElements_ 3;
  Ok (rebalancedOneDimensionalOverlapMap, rebalancedThreeDimensionalOverlapMap).

(** The maps, ghost set and tables of the new decomposition
    (lines 298-361). *)
Record Rebalanced : Type := {
  rebalancedOneDimensionalMap : Epetra_BlockMap;
  rebalancedThreeDimensionalMap : Epetra_BlockMap;
  rebalancedBondMap : Epetra_BlockMap;
  rebalancedNeighborGlobalIDs : list Z;
  contactNeighborGlobalIDs : gmap Z (list Z);
  offProcessorIDs : gset Z;
  rebalancedOneDimensionalOverlapMap : Epetra_BlockMap;
  rebalancedThreeDimensionalOverlapMap : Epetra_BlockMap;
  rebalancedNeighborhoodData : NeighborhoodData;
  rebalancedContactNeighborhoodData : NeighborhoodData
}.

Definition rebalanceTopology (peers : list ContactManager)
    (st : ContactManager) : result Rebalanced :=
  rebalancedDecomp ← currentConfigurationDecomp peers st;
  map1 ← getOwnedMap rebalancedDecomp 1;
  let oneDimensionalMapImporter :=
    Epetra_Import_new map1 (oneDimensionalContactMap st) in
  map3 ← getOwnedMap rebalancedDecomp 3;
  bond ← createRebalancedBondMap peers st map1 oneDimensionalMapImporter;
  let bondMapImporter := Epetra_Import_new bond (bondContactMap st) in
  ids ← createRebalancedNeighborGlobalIDList peers st bond bondMapImporter;
  off ← bondedOffProcessorIDs map1 ids;
  '(contact, offContact) ←
    contactSearch st map1 bond ids rebalancedDecomp ∅ ∅;
  let off := addContactIDs offContact off in
  '(overlap1, overlap3) ← rebalancedOverlapMaps map1 off;
  nd ← createRebalancedNeighborhoodData map1 overlap1 bond ids;
  cnd ← createRebalancedContactNeighborhoodData contact map1 overlap1;
  Ok {| rebalancedOneDimensionalMap := map1;
        rebalancedThreeDimensionalMap := map3;
        rebalancedBondMap := bond;
        rebalancedNeighborGlobalIDs := ids;
        contactNeighborGlobalIDs := contact;
        offProcessorIDs := off;
        rebalancedOneDimensionalOverlapMap := overlap1;
        rebalancedThreeDimensionalOverlapMap := overlap3;
        rebalancedNeighborhoodData := nd;
        rebalancedContactNeighborhoodData := cnd |}.

(** Lines 363-376: the two mothership multi-vectors, column by column, into
    fresh vectors on the rebalanced maps. *)
Definition rebalanceMothership (peers : list ContactManager)
    (st : ContactManager) (r : Rebalanced) : result ContactManager :=
  let all := st :: peers in
  let oneDimensionalMapImporter :=
    Epetra_Import_new (rebalancedOneDimensionalMap r)
      (oneDimensionalContactMap st) in
  let threeDimensionalMapImporter :=
    Epetra_Import_new (rebalancedThreeDimensionalMap r)
      (threeDimensionalContactMap st) in
  let import1 column :=
    Import (Epetra_Vector_new (rebalancedOneDimensionalMap r))
      (gather (oneDimensionalContactMap <$> all) (column <$> all))
      oneDimensionalMapImporter Insert in
  let import3 column :=
    Import (Epetra_Vector_new (rebalancedThreeDimensionalMap r))
      (gather (threeDimensionalContactMap <$> all) (column <$> all))
      threeDimensionalMapImporter Insert in
  blockIDs ← import1 contactBlockIDs;
  volume ← import1 contactVolume;
  y ← import3 contactY;
  v ← import3 contactV;
  contactForce ← import3 contactContactForce;
  scratch ← import3 contactScratch;
  Ok (set_mothership blockIDs volume y v contactForce scratch st).

(** Lines 378-392: the contact blocks follow the new decomposition. *)
Definition rebalanceBlocks (st : ContactManager) (r : Rebalanced)
  : result ContactManager :=
  blocks ← mapM (λ b,
      d ← BlockData_rebalance (rebalancedOneDimensionalMap r)
            (rebalancedOneDimensionalOverlapMap r)
            (rebalancedThreeDimensionalMap r)
            (rebalancedThreeDimensionalOverlapMap r)
            (rebalancedBondMap r) (contactBlockIDs st)
            (rebalancedContactNeighborhoodData r) (getID b) (blockData b);
      Ok (set_blockData d b)) (contactBlocks st);
  blocks' ← mapM (λ b,
      b' ← ContactBlock_importData (contactVolume st) (volumeFieldId st)
             STEP_NONE Insert b;
      ContactBlock_importData (contactBlockIDs st) (blockIdFieldId st)
        STEP_NONE Insert b') blocks;
  Ok (set_contactBlocks blocks' st).

(** Line 292: [step % contactRebalanceFrequency] is undefined for a
    frequency of 0 and for [INT_MIN % -1], whose quotient is no [int]. *)
Definition rebalance (peers : list ContactManager) (step : Z)
    (st : ContactManager) : result ContactManager :=
  if decide (contactRebalanceFrequency st = 0) then Undefined
  else if decide (step = INT_MIN ∧ contactRebalanceFrequency st = -1)
  then Undefined
  else if decide (Z.rem step (contactRebalanceFrequency st) ≠ 0) then Ok st
  else
    r ← rebalanceTopology peers st;
    let st := set_neighborhoodData (rebalancedNeighborhoodData r)
                (rebalancedContactNeighborhoodData r) st in
    st ← rebalanceMothership peers st r;
    st ← rebalanceBlocks st r;
    Ok (set_contactMaps (rebalancedOneDimensionalMap r)
          (rebalancedOneDimensionalOverlapMap r)
          (rebalancedThreeDimensionalMap r) (rebalancedBondMap r) st).

End ContactManager.

(** ** Vocabulary of the properties *)

(** What a call may do: return a value that satisfies [Q], throw an
    exception that satisfies [E], or be undefined, which [U] has to allow. *)
Definition outcome {A : Type} (Q : A → Prop) (E : exn → Prop) (U : Prop)
    (r : result A) : Prop :=
  match r with
  | Ok a => Q a
  | Throw e => E e
  | Undefined => U
  end.

(** A point with its migrated bond count keeps a bond-map entry. *)
Definition positive (p : Z * Z) : Prop := 0 < p.2.

(** The state of the bond-map loop after [i] points. *)
Definition bondMapInv (gids counts : list Z) (i : Z) (a : BondMapArrays) : Prop :=
  let kept := filter positive (take (Z.to_nat i) (zip gids counts)) in
  numMyElements a = len kept ∧
  numMyElements a + numPointsWithZeroNeighbors a = i ∧
  length (myGlobalElements a) = length gids ∧
  length (elementSizeList a) = length gids ∧
  take (length kept) (myGlobalElements a) = kept.*1 ∧
  take (length kept) (elementSizeList a) = kept.*2.

(** The flat list a proximity search returns for the per-point lists
    [nbrs]. *)
Definition encodeNeighborhood (nbrs : list (list Z)) : list Z :=
  concat ((λ l, len l :: l) <$> nbrs).

(** The neighbours found for a point that the search keeps. *)
Definition retained (bonded found : list Z) : list Z :=
  filter (λ n, n ∉ bonded) found.

(** The IDs among [l] that the owned map does not hold. *)
Definition notOwned (map1 : Epetra_BlockMap) (l : list Z) : gset Z :=
  list_to_set (filter (λ n, LID map1 n = -1) l).

(** The contact neighbours and the off-processor IDs after the points
    [pts], each given with the neighbours found for it. *)
Fixpoint searchResult (B : Z → list Z) (pts : list (Z * list Z))
    (m : gmap Z (list Z)) : gmap Z (list Z) :=
  match pts with
  | [] => m
  | (g, l) :: pts' =>
      searchResult B pts' (<[g := default [] (m !! g) ++ retained (B g) l]> m)
  end.

Fixpoint searchGhosts (map1 : Epetra_BlockMap) (B : Z → list Z)
    (pts : list (Z * list Z)) (off : gset Z) : gset Z :=
  match pts with
  | [] => off
  | (g, l) :: pts' =>
      searchGhosts map1 B pts' (notOwned map1 (retained (B g) l) ∪ off)
  end.

(** The bonded global IDs of a point, empty when they cannot be read. *)
Definition bondedOf (bond : Epetra_BlockMap) (ids : list Z) (g : Z) : list Z :=
  match bondedNeighbors bond ids g with
  | Ok b => b
  | _ => []
  end.

(** A bond map whose element sizes are counts, with the bonded global IDs
    laid out on it. *)
Definition bondLayout (bond : Epetra_BlockMap) (ids : list Z) : Prop :=
  length (MyGlobalElements bond) = length (ElementSizeList bond) ∧
  Forall (λ s, 0 ≤ s) (ElementSizeList bond) ∧
  len ids = NumMyPoints bond.

(** The bonded global IDs of a point as the bond map lays them out: a point
    without an entry in the bond map has none; for a point with the entry
    [lid], they are the cells of [ids] that start after the cells of the
    entries before [lid], as many as the element size of [lid]. *)
Definition bondSegment (bond : Epetra_BlockMap) (ids : list Z) (g : Z)
  : list Z :=
  let lid := LID bond g in
  if decide (lid = -1) then []
  else
    let before := take (Z.to_nat lid) (ElementSizeList bond) in
    let size := default 0 (ElementSizeList bond !! Z.to_nat lid) in
    take (Z.to_nat size) (drop (Z.to_nat (sum_list before)) ids).

(** What the search keeps true of its two results, whatever it is given:
    a retained neighbour is not bonded to its point, and it is owned or in
    the off-processor set, which holds no owned ID. *)
Definition searchInv (map1 bond : Epetra_BlockMap) (ids : list Z)
    (s : SearchState) : Prop :=
  let '(_, contact, off) := s in
  (∀ P l N, contact !! P = Some l → N ∈ l →
      (∃ bonded, bondedNeighbors bond ids P = Ok bonded ∧ N ∉ bonded)
      ∧ (LID map1 N ≠ -1 ∨ N ∈ off))
  ∧ (∀ N, N ∈ off → LID map1 N = -1).

(** The overlap map of section 4.5: the owned global IDs followed by the
    ghost-need set in increasing order. *)
Definition overlapMap (owned : Epetra_BlockMap) (ghosts : gset Z) (size : Z)
  : Epetra_BlockMap :=
  {| MyGlobalElements := MyGlobalElements owned ++ set_iter ghosts;
     ElementSizeList :=
       replicate (length (MyGlobalElements owned ++ set_iter ghosts)) size |}.

(** The neighbour slots a table holds for the owned point in slot [iLID]:
    the count found through [NeighborhoodPtr], then that many entries. *)
Definition tableNeighbors (nd : NeighborhoodData) (iLID : nat)
  : option (list Z) :=
  ptr ← NeighborhoodPtr nd !! iLID;
  count ← NeighborhoodList nd !! Z.to_nat ptr;
  let slots :=
    take (Z.to_nat count) (drop (S (Z.to_nat ptr)) (NeighborhoodList nd)) in
  if decide (0 ≤ ptr ∧ len slots = count) then Some slots else None.

(** A slot of the overlap map that holds the global ID [gid]. *)
Definition resolves (overlap : Epetra_BlockMap) (slot gid : Z) : Prop :=
  0 ≤ slot < NumMyElements overlap
  ∧ MyGlobalElements overlap !! Z.to_nat slot = Some gid.

(** The table layout for the neighbour global IDs [nbs] of the owned points,
    in order, and the position of each point's count in it. *)
Definition encodeSlots (overlap : Epetra_BlockMap) (nbs : list (list Z))
  : list Z :=
  concat ((λ l, len l :: (LID overlap <$> l)) <$> nbs).

Fixpoint offsets (start : Z) (nbs : list (list Z)) : list Z :=
  match nbs with
  | [] => []
  | l :: nbs' => start :: offsets (start + 1 + len l) nbs'
  end.

(** The state of a table loop after [i] owned points. *)
Definition tableInv (overlap : Epetra_BlockMap) (nbs : list (list Z))
    (size : nat) (i : Z) (s : TableState) : Prop :=
  let '(neighborhoodList, neighborhoodPtr, neighborhoodIndex) := s in
  let done := take (Z.to_nat i) nbs in
  neighborhoodIndex = len (encodeSlots overlap done) ∧
  length neighborhoodList = size ∧
  length neighborhoodPtr = length nbs ∧
  take (Z.to_nat neighborhoodIndex) neighborhoodList = encodeSlots overlap done ∧
  take (Z.to_nat i) neighborhoodPtr = offsets 0 done ∧
  Forall (Forall (λ g, LID overlap g ≠ -1)) done.

(** What one pass of a table loop does for a point with neighbours [l]. *)
Definition pointWritten (overlap : Epetra_BlockMap) (iLID : Z) (l : list Z)
    (s s' : TableState) : Prop :=
  let '(neighborhoodList, neighborhoodPtr, neighborhoodIndex) := s in
  let '(neighborhoodList', neighborhoodPtr', neighborhoodIndex') := s' in
  0 ≤ iLID < len neighborhoodPtr ∧
  neighborhoodPtr' = <[Z.to_nat iLID := neighborhoodIndex]> neighborhoodPtr ∧
  neighborhoodIndex' = neighborhoodIndex + 1 + len l ∧
  length neighborhoodList' = length neighborhoodList ∧
  take (Z.to_nat neighborhoodIndex') neighborhoodList'
  = take (Z.to_nat neighborhoodIndex) neighborhoodList
    ++ len l :: (LID overlap <$> l) ∧
  Forall (λ g, LID overlap g ≠ -1) l.

(** A table that holds, for every owned point, the overlap slots of the
    neighbour global IDs [neighbors] gives for it. *)
Definition tableOf (map1 overlap : Epetra_BlockMap) (neighbors : Z → list Z)
    (nd : NeighborhoodData) : Prop :=
  ∀ (iLID : nat) (g : Z),
    MyGlobalElements map1 !! iLID = Some g →
    tableNeighbors nd iLID = Some (LID overlap <$> neighbors g)
    ∧ Forall2 (resolves overlap) (LID overlap <$> neighbors g) (neighbors g).

(** The element size a bond map holds for a global ID, 0 when it holds
    none. *)
Fixpoint sizeOf (gids sizes : list Z) (g : Z) : Z :=
  match gids, sizes with
  | g0 :: gids', s0 :: sizes' =>
      if decide (g0 = g) then s0 else sizeOf gids' sizes' g
  | _, _ => 0
  end.

(** An index map with one element size, not negative, per global ID. *)
Definition mapLayout (m : Epetra_BlockMap) : Prop :=
  length (MyGlobalElements m) = length (ElementSizeList m)
  ∧ Forall (λ s, 0 ≤ s) (ElementSizeList m).

(** The values a vector holds for the element in slot [j] of its map. *)
Definition elementValues {A : Type} (m : Epetra_BlockMap) (v : list A)
    (j : nat) : option (list A) :=
  chunks (ElementSizeList m) v !! j.

(** [v], laid out on [m], holds for every element the values that some rank
    held for its global ID in [source], and zeros when no rank held it. *)
Definition migrated {A : Type} `{Scalar A} (source : list (Z * list A))
    (m : Epetra_BlockMap) (v : list A) : Prop :=
  ∀ (j : nat) (g size : Z),
    MyGlobalElements m !! j = Some g → ElementSizeList m !! j = Some size →
    elementValues m v j
    = Some (default (replicate (Z.to_nat size) zero) (assoc g source)).

Section SpecificationWords.
Context `{Collaborators}.

(** [exportContactForces] as section 6 of the specification words it: the
    summed contribution of the blocks is accumulated, by global ID, into the
    caller's buffer. *)
Definition exportContactForces_accumulating (peers : list ContactManager)
    (contactForce : list float) (st : ContactManager)
  : result (ContactManager * list float) :=
  st' ← sumBlockContactForces st;
  peers' ← mapM sumBlockContactForces peers;
  let all := st' :: peers' in
  contactForce' ←
    Export contactForce
      (gather (threeDimensionalContactMap <$> all) (contactContactForce <$> all))
      (threeDimensionalMothershipToContactMothershipImporter st') Add;
  Ok (st', contactForce').

(** What a block contributes: its export, with [Add], into a cleared
    scratch buffer. *)
Definition contributes (fieldId : Z) (b : ContactBlock) (c : list float)
  : Prop :=
  ∃ n : nat,
    BlockData_exportData (blockData b) (replicate n 0%float) fieldId
      STEP_NP1 Add = Ok c.

End SpecificationWords.

(** Whether a character occurs in a string, and whether a string holds
    decimal digits only. *)
Fixpoint occurs (c : Ascii.ascii) (s : string) : bool :=
  match s with
  | EmptyString => false
  | String x s' => bool_decide (x = c) || occurs c s'
  end.

Fixpoint all_digits (s : string) : bool :=
  match s with
  | EmptyString => true
  | String c s' =>
      match Ascii.is_nat c with
      | Some _ => all_digits s'
      | None => false
      end
  end.

(** A string that holds nothing but white space. *)
Fixpoint blank (s : string) : bool :=
  match s with
  | EmptyString => true
  | String c s' => Ascii.is_space c && blank s'
  end.

(** A block name that stands for the blocks the deck does not name. *)
Definition isDefaultName (name : string) : Prop :=
  name = "Default"%string ∨ name = "default"%string.

(** The block names an entry of the "Blocks" list gives, each with the
    parameter list of the entry, and the names of the whole list in the
    order of the deck. *)
Definition entryBlockNames (blockParams : ParameterList)
    (entry : string * ParameterEntry) : list (string * ParameterList) :=
  match sublist blockParams entry.1 false with
  | Ok params =>
      match get_string params "Block Names" with
      | Ok blockNamesString =>
          (λ name, (name, params)) <$> String.words blockNamesString
      | _ => []
      end
  | _ => []
  end.

Definition listedBlockNames (blockParams : ParameterList)
  : list (string * ParameterList) :=
  concat (entryBlockNames blockParams <$> blockParams).

(** The parameter list of the last listed default name, [dp] when there is
    none. *)
Definition defaultParamsOf (listed : list (string * ParameterList))
    (dp : ParameterList) : ParameterList :=
  default dp (snd <$> last (filter (λ p, isDefaultName p.1) listed)).

Section BlockWords.
Context `{Collaborators}.

Definition nameAndParams (b : ContactBlock) : string * ParameterList :=
  (getName b, blockParams b).

(** A block as the constructor makes it from a name. *)
Definition made (newBlockData : string → Z → ParameterList → BlockData)
    (message : string) (b : ContactBlock) : Prop :=
  blockIDOf message (getName b) = Ok (getID b)
  ∧ getContactModel b = None
  ∧ blockData b = newBlockData (getName b) (getID b) (blockParams b).

End BlockWords.

Section IdentityWords.
Context `{Collaborators}.

(** The two importers lead from the mesh maps to the contact maps. *)
Definition importersFollowMaps (st : ContactManager) : Prop :=
  oneDimensionalMothershipToContactMothershipImporter st
  = Epetra_Import_new (oneDimensionalContactMap st) (oneDimensionalMap st)
  ∧ threeDimensionalMothershipToContactMothershipImporter st
    = Epetra_Import_new (threeDimensionalContactMap st) (threeDimensionalMap st).

End IdentityWords.

Section AlignmentWords.
Context `{Collaborators}.

(** The state between [initialize] and the first full cycle of [rebalance]:
    the owned contact maps are the owned mesh maps, which hold every global
    ID once and one size per ID, and the importers lead from each to
    itself. *)
Definition meshAligned (st : ContactManager) : Prop :=
  importersFollowMaps st
  ∧ oneDimensionalContactMap st = oneDimensionalMap st
  ∧ threeDimensionalContactMap st = threeDimensionalMap st
  ∧ mapLayout (oneDimensionalMap st) ∧ mapLayout (threeDimensionalMap st)
  ∧ NoDup (MyGlobalElements (oneDimensionalMap st))
  ∧ NoDup (MyGlobalElements (threeDimensionalMap st)).

(** The mothership columns have the lengths of their maps. *)
Definition mothershipSized (st : ContactManager) : Prop :=
  len (contactBlockIDs st) = NumMyPoints (oneDimensionalContactMap st)
  ∧ len (contactVolume st) = NumMyPoints (oneDimensionalContactMap st)
  ∧ len (contactY st) = NumMyPoints (threeDimensionalContactMap st)
  ∧ len (contactV st) = NumMyPoints (threeDimensionalContactMap st)
  ∧ len (contactContactForce st) = NumMyPoints (threeDimensionalContactMap st)
  ∧ len (contactScratch st) = NumMyPoints (threeDimensionalContactMap st).

End AlignmentWords.

(** What the search keeps true of the entries it makes, after [i] points:
    every off-processor ID stands in some contact list, the points searched
    so far have an entry, and only searched points have one. *)
Definition searchEntries (gids : list Z) (i : Z) (s : SearchState) : Prop :=
  let '(_, contact, off) := s in
  (∀ N, N ∈ off → ∃ P l, contact !! P = Some l ∧ N ∈ l)
  ∧ (∀ k g, 0 ≤ k < i → gids !! Z.to_nat k = Some g → is_Some (contact !! g))
  ∧ (∀ P, is_Some (contact !! P) →
          ∃ k, 0 ≤ k < i ∧ gids !! Z.to_nat k = Some P).

Section DecompositionWords.
Context `{Collaborators}.

(** The decomposition a rank describes itself by: its owned global IDs, its
    current positions and its cell volumes. *)
Definition decompOf (numGlobal : Z) (st : ContactManager) : QUICKGRID_Data :=
  {| globalNumPoints := numGlobal;
     numPoints := NumMyElements (oneDimensionalContactMap st);
     myGlobalIDs := MyGlobalElements (oneDimensionalContactMap st);
     myX := contactY st;
     cellVolume := contactVolume st |}.

(** The positions and volumes of a rank have one point per owned ID. *)
Definition pointsSized (st : ContactManager) : Prop :=
  len (contactY st) = 3 * NumMyElements (oneDimensionalContactMap st)
  ∧ len (contactVolume st) = NumMyElements (oneDimensionalContactMap st).

End DecompositionWords.

(** ** A concrete set of collaborators and concrete states

    Used to run the functions above on explicit inputs. *)
Module Examples.

(** The points of a decomposition: global ID, position, volume. *)
Definition points (d : QUICKGRID_Data) : list (Z * (list float * float)) :=
  zip (myGlobalIDs d)
    (zip (chunks (replicate (length (myGlobalIDs d)) 3) (myX d)) (cellVolume d)).

Definition leftOf (x : float) (p : Z * (list float * float)) : bool :=
  match p.2.1 with
  | px :: _ => PrimFloat.ltb px x
  | [] => false
  end.

(** A load balancer, as seen from the rank that receives the half-space
    [x < 1.5]: it owns every point of every rank that lies there. *)
Definition leftHalf (others : list QUICKGRID_Data) (d : QUICKGRID_Data)
  : QUICKGRID_Data :=
  let mine :=
    List.filter (leftOf 1.5%float) (concat (points <$> d :: others)) in
  {| globalNumPoints := globalNumPoints d;
     numPoints := len mine;
     myGlobalIDs := mine.*1;
     myX := concat ((λ p, p.2.1) <$> mine);
     cellVolume := (λ p, p.2.2) <$> mine |}.

(** A search on a chain of points [1 .. globalNumPoints] in which the radius
    reaches the two adjacent points. *)
Definition chainNeighbors (numGlobal : Z) (g : Z) : list Z :=
  filter (λ n, 1 ≤ n ≤ numGlobal) [g - 1; g + 1].

Definition chainSearch (d : QUICKGRID_Data) : list Z :=
  concat ((λ g, let found := chainNeighbors (globalNumPoints d) g in
                len found :: found) <$> myGlobalIDs d).

(** Blocks whose field storage is the force they contribute, in the layout
    of the three-dimensional contact map; a contact model is the parameter
    list it was created from. *)
#[export] Instance collaborators : Collaborators := {|
  ContactModel := ParameterList;
  BlockData := list float;
  ContactModelFactory_create := λ p, Ok p;
  getLoadBalancedDiscretization := leftHalf;
  NeighborhoodList_new := λ d _,
    {| get_neighborhood := chainSearch d;
       get_owned_gids := myGlobalIDs d |};
  BlockData_initialize := λ _ _ _ _ _ _ _ _ d, Ok d;
  BlockData_rebalance := λ _ _ _ _ _ _ _ _ d, Ok d;
  BlockData_importData := λ _ _ _ _ d, Ok d;
  BlockData_exportData := λ d scratch _ _ mode,
    if decide (length d = length scratch)
    then Ok (zip_with (combine mode) scratch d)
    else Undefined
|}.

Definition constantMap (gids : list Z) (size : Z) : Epetra_BlockMap :=
  {| MyGlobalElements := gids;
     ElementSizeList := replicate (length gids) size |}.

Definition block (name : string) (id : Z) (force : list float) : ContactBlock :=
  {| getName := name; getID := id; blockParams := [];
     getContactModel := None; blockData := force |}.

Definition modelParams : ParameterList :=
  [("Search Radius"%string, PDouble 2%float);
   ("Search Frequency"%string, PInt 2);
   ("Models"%string,
     PSublist [("My Contact Model"%string,
                PSublist [("Contact Model"%string, PString "Short Range Force");
                          ("Spring Constant"%string, PDouble 1000%float)])])].

(** A rank that owns the points [gids], bonded as [bonds] says (a list of
    neighbour global IDs per point that has any), with the given fields. *)
Definition rank (gids : list Z) (bonds : list (Z * list Z))
    (table : NeighborhoodData) (ghosts : list Z)
    (y v force : list float) (blocks : list ContactBlock) : ContactManager :=
  {| params := modelParams;
     contactRebalanceFrequency := 2;
     contactSearchRadius := 2%float;
     blockIdFieldId := 0;
     volumeFieldId := 1;
     coordinatesFieldId := 2;
     velocityFieldId := 3;
     contactForceDensityFieldId := 4;
     contactBlocks := blocks;
     oneDimensionalMap := constantMap gids 1;
     threeDimensionalMap := constantMap gids 3;
     oneDimensionalOverlapMap := constantMap (gids ++ ghosts) 1;
     threeDimensionalOverlapMap := constantMap (gids ++ ghosts) 3;
     bondMap := {| MyGlobalElements := bonds.*1;
                   ElementSizeList := (λ b, len b.2) <$> bonds |};
     oneDimensionalContactMap := constantMap gids 1;
     threeDimensionalContactMap := constantMap gids 3;
     oneDimensionalOverlapContactMap := constantMap (gids ++ ghosts) 1;
     bondContactMap := {| MyGlobalElements := bonds.*1;
                          ElementSizeList := (λ b, len b.2) <$> bonds |};
     oneDimensionalMothershipToContactMothershipImporter :=
       Epetra_Import_new (constantMap gids 1) (constantMap gids 1);
     threeDimensionalMothershipToContactMothershipImporter :=
       Epetra_Import_new (constantMap gids 3) (constantMap gids 3);
     contactBlockIDs := replicate (length gids) 1%float;
     contactVolume := replicate (length gids) 1%float;
     contactY := y;
     contactV := v;
     contactContactForce := force;
     contactScratch := replicate (length y) 0%float;
     neighborhoodData := table;
     contactNeighborhoodData := table |}.

(** Two ranks and four points on a line, point [g] at [x = g - 1], with
    bonds 1-2 and 3-4.  Before the rebalance rank A owns 1 and 3 and ghosts
    2 and 4; rank B owns 2 and 4 and ghosts 1 and 3. *)
Definition rankA : ContactManager :=
  rank [1; 3] [(1, [2]); (3, [4])]
    {| NumOwnedPoints := 2; OwnedIDs := [0; 1]; NeighborhoodPtr := [0; 2];
       NeighborhoodListSize := 4; NeighborhoodList := [1; 2; 1; 3] |}
    [2; 4]
    [0; 0; 0; 2; 0; 0]%float [0; 0; 0; 0; 0; 0]%float
    [0.5; 0; 0; 0.5; 0; 0]%float
    [block "block_1" 1 [3; 0; 0; 3; 0; 0]%float].

Definition rankB : ContactManager :=
  rank [2; 4] [(2, [1]); (4, [3])]
    {| NumOwnedPoints := 2; OwnedIDs := [0; 1]; NeighborhoodPtr := [0; 2];
       NeighborhoodListSize := 4; NeighborhoodList := [1; 2; 1; 3] |}
    [1; 3]
    [1; 0; 0; 3; 0; 0]%float [0; 0; 0; 0; 0; 0]%float
    [0.25; 0; 0; 0.25; 0; 0]%float
    [block "block_1" 1 [1; 0; 0; 1; 0; 0]%float].

(** Rank A after the load balancer has given it the half-space: it owns the
    points 1 and 2. *)
Definition decompA : QUICKGRID_Data :=
  {| globalNumPoints := 4;
     numPoints := 2;
     myGlobalIDs := [1; 2];
     myX := [0; 0; 0; 1; 0; 0]%float;
     cellVolume := [1; 1]%float |}.

(** The topology rank A rebuilds: point 3 is found next to point 2 and is
    ghosted; the bond 1-2 is kept out of the contact lists. *)
Definition rebalancedA : Rebalanced :=
  {| rebalancedOneDimensionalMap := constantMap [1; 2] 1;
     rebalancedThreeDimensionalMap := constantMap [1; 2] 3;
     rebalancedBondMap := constantMap [1; 2] 1;
     rebalancedNeighborGlobalIDs := [2; 1];
     contactNeighborGlobalIDs := <[2 := [3]]> (<[1 := []]> ∅);
     offProcessorIDs := {[3]};
     rebalancedOneDimensionalOverlapMap := constantMap [1; 2; 3] 1;
     rebalancedThreeDimensionalOverlapMap := constantMap [1; 2; 3] 3;
     rebalancedNeighborhoodData :=
       {| NumOwnedPoints := 2; OwnedIDs := [0; 1]; NeighborhoodPtr := [0; 2];
          NeighborhoodListSize := 4; NeighborhoodList := [1; 1; 1; 0] |};
     rebalancedContactNeighborhoodData :=
       {| NumOwnedPoints := 2; OwnedIDs := [0; 1]; NeighborhoodPtr := [0; 1];
          NeighborhoodListSize := 3; NeighborhoodList := [0; 1; 2] |} |}.

(** The two ranks after the contact forces of their blocks are summed
    (lines 280-285), and rank A after the full cycle of [rebalance] that
    follows. *)
Definition summedRankA : ContactManager :=
  match sumBlockContactForces rankA with
  | Ok st' => st'
  | _ => rankA
  end.

Definition summedRankB : ContactManager :=
  match sumBlockContactForces rankB with
  | Ok st' => st'
  | _ => rankB
  end.

Definition rebalancedRankA : ContactManager :=
  match rebalance [summedRankB] 4 summedRankA with
  | Ok st' => st'
  | _ => rankA
  end.

(** A rank whose first point has no bonds: its bond map holds the points 20
    and 30 only, in the slots 0 and 1. *)
Definition rankIsolated : ContactManager :=
  rank [10; 20; 30] [(20, [30; 10]); (30, [20])]
    {| NumOwnedPoints := 3; OwnedIDs := [0; 1; 2];
       NeighborhoodPtr := [0; 1; 4];
       NeighborhoodListSize := 6; NeighborhoodList := [0; 2; 2; 0; 1; 1] |}
    []
    [0; 0; 0; 1; 0; 0; 2; 0; 0]%float [0; 0; 0; 0; 0; 0; 0; 0; 0]%float
    [0; 0; 0; 0; 0; 0; 0; 0; 0]%float
    [block "block_1" 1 [0; 0; 0; 0; 0; 0; 0; 0; 0]%float].

(** A field manager that knows every label, blocks that start with no field
    storage, and two decks: one that names its two blocks, and one that also
    names a default block. *)
Definition fieldIds (label : string) : result Z :=
  Ok (Z.of_nat (String.length label)).

Definition noData (name : string) (blockID : Z) (params : ParameterList)
  : @BlockData collaborators := @nil float.

Definition namedDeck : ParameterList :=
  [("Blocks"%string,
    PSublist [("Steel"%string,
               PSublist [("Block Names"%string, PString "block_1 block_12")])])].

Definition defaultDeck : ParameterList :=
  [("Blocks"%string,
    PSublist [("Steel"%string,
               PSublist [("Block Names"%string, PString "block_1")]);
              ("Others"%string,
               PSublist [("Block Names"%string, PString "default");
                         ("Density"%string, PDouble 1%float)])])].

Definition constructedNamed : ContactManager :=
  match ContactManager_new fieldIds noData modelParams [] namedDeck with
  | Ok st => st
  | _ => rankA
  end.

Definition constructedDefault : ContactManager :=
  match ContactManager_new fieldIds noData modelParams
          ["block_1"; "block_2"; "block_2"]%string defaultDeck with
  | Ok st => st
  | _ => rankA
  end.

(** Contact parameters with a search frequency of 0, and what the
    constructor and [initialize] make of them. *)
Definition zeroFrequencyParams : ParameterList :=
  [("Search Radius"%string, PDouble 2%float);
   ("Search Frequency"%string, PInt 0);
   ("Models"%string,
     PSublist [("My Contact Model"%string,
                PSublist [("Contact Model"%string, PString "Short Range Force")])])].

Definition constructedZero : ContactManager :=
  match ContactManager_new fieldIds noData zeroFrequencyParams [] namedDeck with
  | Ok st => st
  | _ => rankA
  end.

Definition horizons : gmap string float := {[ "default"%string := 3%float ]}.

Definition initializedZero : ContactManager :=
  match initialize (constantMap [1; 3] 1) (constantMap [1; 3] 3)
          (constantMap [1; 3; 2; 4] 1) (constantMap [1; 3] 1) horizons
          constructedZero with
  | Ok st => st
  | _ => rankA
  end.

Definition initializedNamed : ContactManager :=
  match initialize (constantMap [1; 3] 1) (constantMap [1; 3] 3)
          (constantMap [1; 3; 2; 4] 1) (constantMap [1; 3] 1) horizons
          constructedNamed with
  | Ok st => st
  | _ => rankA
  end.

(** Rank A after new positions and velocities were imported. *)
Definition importedRankA : ContactManager :=
  match importData (pieces (constantMap [1; 3] 1) [2; 2]%float)
          (pieces (constantMap [1; 3] 3) [0; 1; 0; 2; 1; 0]%float)
          (pieces (constantMap [1; 3] 3) [1; 1; 1; 1; 1; 1]%float) rankA with
  | Ok st => st
  | _ => rankA
  end.

End Examples.

(** * Properties *)

(** ** Reasoning about outcomes and loops *)

Lemma bind_Ok {A B : Type} (m : result A) (f : A → result B) b :
  m ≫= f = Ok b ↔ ∃ a, m = Ok a ∧ f a = Ok b.
Proof.
  destruct m as [a| |]; simpl; split; try (intros [a' [? ?]]); try done.
  - intros Hf. by exists a.
  - by simplify_eq.
Qed.

Lemma outcome_bind {A B : Type} (Q : A → Prop) (R : B → Prop) E U (m : result A)
    (f : A → result B) :
  outcome Q E U m → (∀ a, Q a → outcome R E U (f a)) →
  outcome R E U (m ≫= f).
Proof. destruct m; simpl; auto. Qed.

Lemma outcome_weaken {A : Type} (Q Q' : A → Prop) (E E' : exn → Prop) (U U' : Prop) r :
  outcome Q E U r → (∀ a, Q a → Q' a) → (∀ e, E e → E' e) → (U → U') →
  outcome Q' E' U' r.
Proof. destruct r; simpl; auto. Qed.

Lemma outcome_Ok {A : Type} (Q : A → Prop) E U r a : outcome Q E U r → r = Ok a → Q a.
Proof. by intros Hr ->. Qed.

Lemma for_each_outcome {A St : Type} (I : list A → St → Prop) E U
    (body : A → St → result St) (items done : list A) (s : St) :
  I done s →
  (∀ k x s, items !! k = Some x → I (done ++ take k items) s →
            outcome (I (done ++ take (S k) items)) E U (body x s)) →
  outcome (I (done ++ items)) E U (for_each items body s).
Proof.
  revert done s. induction items as [|x items IH]; intros done s Hs Hstep.
  - simpl. by rewrite app_nil_r.
  - simpl. eapply outcome_bind.
    + apply (Hstep 0%nat x s); [done|]. simpl. by rewrite app_nil_r.
    + intros s' Hs'. simpl in Hs'.
      replace (done ++ x :: items) with ((done ++ [x]) ++ items)
        by (by rewrite <- app_assoc).
      apply IH; [done|]. intros k y s'' Hk Hs''.
      rewrite <- !app_assoc. simpl. apply (Hstep (S k) y s''); [done|].
      simpl. by rewrite <- app_assoc in Hs''.
Qed.


Lemma for_loop_outcome {St : Type} (I : Z → St → Prop) E U
    (body : Z → St → result St) (n : Z) (s : St) :
  I 0 s →
  (∀ i s, 0 ≤ i < n → I i s → outcome (I (i + 1)) E U (body i s)) →
  outcome (I (Z.max 0 n)) E U (for_loop n body s).
Proof.
  intros Hs Hstep. unfold for_loop.
  assert (Z.max 0 n = len ([] ++ seqZ 0 n)) as ->.
  { unfold len. rewrite app_nil_l, length_seqZ. lia. }
  apply (for_each_outcome (λ done, I (len done))); [done|].
  intros k x s' Hk Hs'. apply lookup_seqZ in Hk as [-> Hk].
  unfold len in *. rewrite app_nil_l, length_take, length_seqZ in *.
  replace (Z.of_nat (k `min` Z.to_nat n)) with (Z.of_nat k) in Hs' by lia.
  replace (Z.of_nat (S k `min` Z.to_nat n)) with (0 + Z.of_nat k + 1) by lia.
  apply Hstep; [lia|]. by rewrite Z.add_0_l.
Qed.

Lemma at_outcome {A : Type} (Q : A → Prop) E (U : Prop) (a : list A) (i : Z) :
  (∀ x, 0 ≤ i < len a → a !! Z.to_nat i = Some x → Q x) →
  (¬ 0 ≤ i < len a → U) →
  outcome Q E U (at_ a i).
Proof.
  intros HQ HU. unfold at_, len in *. case_decide.
  - destruct (a !! Z.to_nat i) as [x|] eqn:Hx; simpl.
    + apply HQ; [|done]. apply lookup_lt_Some in Hx. lia.
    + apply HU. apply lookup_ge_None in Hx. lia.
  - apply HU. lia.
Qed.

Lemma store_outcome {A : Type} (Q : list A → Prop) E (U : Prop) (a : list A)
    (i : Z) (x : A) :
  (0 ≤ i < len a → Q (<[Z.to_nat i := x]> a)) →
  (¬ 0 ≤ i < len a → U) →
  outcome Q E U (store a i x).
Proof. intros HQ HU. unfold store. case_decide; simpl; auto. Qed.

Lemma at_spec {A : Type} E (U : Prop) (a : list A) (i : Z) :
  (¬ 0 ≤ i < len a → U) →
  outcome (λ x, a !! Z.to_nat i = Some x ∧ 0 ≤ i < len a) E U (at_ a i).
Proof. intros HU. apply at_outcome; auto. Qed.

Lemma store_spec {A : Type} E (U : Prop) (a : list A) (i : Z) (x : A) :
  (¬ 0 ≤ i < len a → U) →
  outcome (λ a', a' = <[Z.to_nat i := x]> a ∧ 0 ≤ i < len a) E U (store a i x).
Proof. intros HU. apply store_outcome; auto. Qed.

Lemma at_Ok {A : Type} (a : list A) (i : Z) x :
  at_ a i = Ok x ↔ 0 ≤ i ∧ a !! Z.to_nat i = Some x.
Proof.
  unfold at_. case_decide; [|split; [done|lia]].
  destruct (a !! Z.to_nat i); split; intros; simplify_eq; try done.
  - destruct H0; by simplify_eq.
  - by destruct H0.
Qed.

Lemma store_Ok {A : Type} (a a' : list A) (i : Z) x :
  store a i x = Ok a' ↔ 0 ≤ i < len a ∧ a' = <[Z.to_nat i := x]> a.
Proof.
  unfold store. case_decide; split; intros; simplify_eq; try done.
  - by destruct H0 as [_ ->].
  - by destruct H0.
Qed.

Lemma take_S_insert {A : Type} (l : list A) (n : nat) (x : A) :
  (n < length l)%nat → take (S n) (<[n := x]> l) = take n l ++ [x].
Proof.
  intros Hn. rewrite (take_S_r _ _ x) by (by apply list_lookup_insert_eq).
  by rewrite take_insert_ge by lia.
Qed.

(** ** The rebalanced bond map (createRebalancedBondMap) *)

Lemma bondMapBody_outcome gids counts i a :
  length counts = length gids → 0 ≤ i < len gids →
  bondMapInv gids counts i a →
  outcome (bondMapInv gids counts (i + 1)) (λ _, False) False
    (bondMapBody gids counts i a).
Proof.
  intros Hlen Hi (Hn & Hsum & Hlg & Hls & Hg & Hs). unfold bondMapBody, len in *.
  assert (length (filter positive (take (Z.to_nat i) (zip gids counts)))
          ≤ Z.to_nat i)%nat as Hkept.
  { etrans; [apply length_filter|]. rewrite length_take. lia. }
  eapply outcome_bind; [apply at_spec; unfold len; lia|].
  intros c [Hc _].
  assert (∃ g, gids !! Z.to_nat i = Some g) as [g Hgid].
  { apply lookup_lt_is_Some. lia. }
  assert (take (Z.to_nat (i + 1)) (zip gids counts)
          = take (Z.to_nat i) (zip gids counts) ++ [(g, c)]) as Htake.
  { replace (Z.to_nat (i + 1)) with (S (Z.to_nat i)) by lia.
    apply take_S_r. rewrite lookup_zip_with, Hgid. simpl. by rewrite Hc. }
  unfold bondMapInv. rewrite Htake, filter_app.
  case_decide as Hpos.
  - eapply outcome_bind; [apply at_spec; unfold len; lia|].
    intros g' [Hg' _]. rewrite Hgid in Hg'. injection Hg' as <-.
    replace (i - numPointsWithZeroNeighbors a)
      with (Z.of_nat (length (filter positive
              (take (Z.to_nat i) (zip gids counts))))) by lia.
    eapply outcome_bind; [apply store_spec; unfold len; lia|].
    intros ? [-> _].
    eapply outcome_bind; [apply store_spec; unfold len; lia|].
    intros ? [-> _]. simpl.
    rewrite filter_cons_True, filter_nil by (unfold positive; simpl; lia).
    rewrite !length_app, !fmap_app, !length_insert, Nat2Z.id. simpl.
    rewrite !Nat.add_1_r, !take_S_insert by lia.
    rewrite Hg, Hs. unfold len. rewrite length_app. simpl.
    repeat split; try done; lia.
  - simpl. rewrite filter_cons_False, filter_nil by (unfold positive; simpl; lia).
    rewrite !app_nil_r. unfold len. repeat split; try done; lia.
Qed.




(** ** Index maps *)

Lemma find_index_spec (g : Z) (l : list Z) (i : Z) :
  (find_index g l i = -1 ∧ (0 ≤ i → g ∉ l))
  ∨ (i ≤ find_index g l i < i + len l
     ∧ l !! Z.to_nat (find_index g l i - i) = Some g).
Proof.
  revert i. induction l as [|x l IH]; intros i; simpl.
  - left. split; [done|]. intros _. apply not_elem_of_nil.
  - case_decide as Hx.
    + subst. right. unfold len. simpl. split; [lia|].
      by replace (i - i) with 0 by lia.
    + destruct (IH (i + 1)) as [[-> Hl]|[Hr Hg]].
      * left. split; [done|]. intros Hi. rewrite not_elem_of_cons.
        split; [done|]. apply Hl. lia.
      * right. unfold len in *. simpl. split; [lia|].
        replace (Z.to_nat (find_index g l (i + 1) - i))
          with (S (Z.to_nat (find_index g l (i + 1) - (i + 1)))) by lia.
        done.
Qed.

Lemma LID_absent (m : Epetra_BlockMap) (g : Z) :
  LID m g = -1 ↔ g ∉ MyGlobalElements m.
Proof.
  unfold LID. destruct (find_index_spec g (MyGlobalElements m) 0)
    as [[Hf Hl]|[Hr Hg]].
  - split; [intros _; by apply Hl|done].
  - split; [lia|]. intros Hnot. exfalso. apply Hnot.
    by eapply list_elem_of_lookup_2.
Qed.

Lemma LID_present (m : Epetra_BlockMap) (g : Z) :
  LID m g ≠ -1 →
  0 ≤ LID m g < NumMyElements m
  ∧ MyGlobalElements m !! Z.to_nat (LID m g) = Some g.
Proof.
  unfold LID, NumMyElements.
  destruct (find_index_spec g (MyGlobalElements m) 0) as [[Hf Hl]|[Hr Hg]];
    [done|].
  intros _. rewrite Z.sub_0_r in Hg. split; [lia|done].
Qed.

Lemma LID_elem_of (m : Epetra_BlockMap) (g : Z) :
  LID m g ≠ -1 ↔ g ∈ MyGlobalElements m.
Proof.
  rewrite LID_absent. split; [|tauto].
  intros Hnn. by destruct (decide (g ∈ MyGlobalElements m)).
Qed.

Lemma first_points_lookup (sizes : list Z) (start : Z) (k : nat) :
  (k ≤ length sizes)%nat →
  first_points start sizes !! k = Some (start + sum_list (take k sizes)).
Proof.
  revert start k. induction sizes as [|s sizes IH]; intros start [|k] Hk;
    simpl in *; try lia.
  - f_equal. lia.
  - f_equal. lia.
  - rewrite IH by lia. f_equal. lia.
Qed.

Lemma sum_list_app (l1 l2 : list Z) :
  sum_list (l1 ++ l2) = sum_list l1 + sum_list l2.
Proof. induction l1; simpl; lia. Qed.

Lemma sum_list_nonneg (l : list Z) : Forall (λ s, 0 ≤ s) l → 0 ≤ sum_list l.
Proof. induction 1; simpl; lia. Qed.

Lemma sum_list_take_S (sizes : list Z) (k : nat) (s : Z) :
  Forall (λ s, 0 ≤ s) sizes → sizes !! k = Some s →
  0 ≤ sum_list (take k sizes)
  ∧ sum_list (take k sizes) + s ≤ sum_list sizes.
Proof.
  intros Hnn Hk.
  rewrite <- (take_drop_middle sizes k s Hk) at 3.
  rewrite sum_list_app. simpl.
  assert (0 ≤ sum_list (take k sizes))
    by (apply sum_list_nonneg, Forall_take, Hnn).
  assert (0 ≤ sum_list (drop (S k) sizes))
    by (apply sum_list_nonneg, Forall_drop, Hnn).
  lia.
Qed.

Lemma bondedNeighbors_total (bond : Epetra_BlockMap) (ids : list Z) (g : Z) :
  bondLayout bond ids →
  ∃ b, bondedNeighbors bond ids g = Ok b.
Proof.
  intros (Hlen & Hnn & Hids). unfold bondedNeighbors.
  case_decide as Hlid; [|by eexists].
  apply LID_present in Hlid as [Hrange Hg]. unfold NumMyElements, len in Hrange.
  set (lid := LID bond g) in *.
  assert (∃ s, ElementSizeList bond !! Z.to_nat lid = Some s) as [s Hs].
  { apply lookup_lt_is_Some. lia. }
  unfold FirstPointInElementList, ElementSize, at_.
  rewrite decide_True by lia.
  rewrite first_points_lookup by lia. simpl.
  rewrite decide_True by lia. rewrite Hs. simpl.
  destruct (sum_list_take_S _ _ _ Hnn Hs) as [Hoff Hend].
  set (off := 0 + sum_list (take (Z.to_nat lid) (ElementSizeList bond))) in *.
  pose proof (for_loop_outcome
    (λ i acc, acc = take (Z.to_nat i) (drop (Z.to_nat off) ids))
    (λ _, False) False
    (λ i bonded, neighborGlobalID ← at_ ids (off + i);
                 Ok (bonded ++ [neighborGlobalID])) s []) as Hloop.
  destruct (for_loop s _ []) as [b| |]; simpl in Hloop; [by eexists|..];
    exfalso; apply Hloop; try done.
  all: intros i acc Hi ->; eapply outcome_bind;
    [apply at_spec; unfold NumMyPoints, len in *; lia|];
    intros n [Hn _]; simpl;
    replace (Z.to_nat (i + 1)) with (S (Z.to_nat i)) by lia;
    symmetry; apply take_S_r; rewrite lookup_drop;
    by replace (Z.to_nat off + Z.to_nat i)%nat with (Z.to_nat (off + i)) by lia.
Qed.

Lemma bondedNeighbors_never_throws (bond : Epetra_BlockMap) (ids : list Z)
    (g : Z) (e : exn) :
  bondedNeighbors bond ids g ≠ Throw e.
Proof.
  assert (outcome (λ _, True) (λ _, False) True (bondedNeighbors bond ids g))
    as Hout.
  { unfold bondedNeighbors, ElementSize. case_decide; [|done].
    eapply outcome_bind; [by apply at_spec|]. intros first _.
    eapply outcome_bind; [by apply at_spec|]. intros n _.
    eapply outcome_weaken;
      [apply (for_loop_outcome (λ _ _, True) (λ _, False) True)|..];
      try done.
    intros i acc _ _. eapply outcome_bind; [by apply at_spec|].
    intros ? _. exact I. }
  intros Hthrow. by rewrite Hthrow in Hout.
Qed.

(** ** The contact search (contactSearch) *)

Lemma at_app_middle {A : Type} (pre post : list A) (x : A) :
  at_ (pre ++ x :: post) (len pre) = Ok x.
Proof.
  unfold at_, len. rewrite decide_True by lia. rewrite Nat2Z.id.
  by rewrite list_lookup_middle.
Qed.

Lemma retain_loop (map1 : Epetra_BlockMap) (sn : list Z) (g : Z)
    (bonded found : list Z) :
  ∀ (indices pre post l0 : list Z) (m : gmap Z (list Z)) (off : gset Z),
    sn = pre ++ found ++ post → length indices = length found →
    m !! g = Some l0 →
    for_each indices (retainBody map1 sn g bonded) (len pre, m, off)
    = Ok (len pre + len found,
          <[g := l0 ++ retained bonded found]> m,
          notOwned map1 (retained bonded found) ∪ off).
Proof.
  induction found as [|n found IH];
    intros [|i indices] pre post l0 m off Hsn Hlen Hm; simplify_eq/=.
  - unfold len, retained, notOwned. simpl. rewrite app_nil_r, Z.add_0_r.
    rewrite insert_id by done. f_equal. f_equal. set_solver.
  - rewrite at_app_middle. simpl.
    assert (len (pre ++ [n]) = len pre + 1) as Hpre
      by (unfold len; rewrite length_app; simpl; lia).
    assert (len pre + len (n :: found) = len (pre ++ [n]) + len found) as ->
      by (unfold len in *; simpl; lia).
    unfold retained at 1 2. destruct (decide (n ∈ bonded)) as [Hb|Hb].
    + rewrite filter_cons_False by tauto. rewrite <- Hpre.
      apply (IH indices (pre ++ [n]) post); [|done..].
      by rewrite <- app_assoc.
    + rewrite filter_cons_True by done. rewrite <- Hpre, Hm. simpl.
      erewrite (IH indices (pre ++ [n]) post (l0 ++ [n]));
        [| by rewrite <- app_assoc | done | by rewrite lookup_insert_eq].
      rewrite insert_insert_eq, <- app_assoc. simpl.
      f_equal. f_equal. unfold notOwned. rewrite filter_cons.
      case_decide; [rewrite list_to_set_cons|]; set_solver.
Qed.

Lemma searchBody_step (map1 bond : Epetra_BlockMap) (ids sn gids : list Z)
    (iPt g : Z) (bonded found pre post : list Z) (m : gmap Z (list Z))
    (off : gset Z) :
  at_ gids iPt = Ok g →
  bondedNeighbors bond ids g = Ok bonded →
  sn = pre ++ (len found :: found) ++ post →
  searchBody map1 bond ids sn gids iPt (len pre, m, off)
  = Ok (len pre + 1 + len found,
        <[g := default [] (m !! g) ++ retained bonded found]> m,
        notOwned map1 (retained bonded found) ∪ off).
Proof.
  intros Hg Hbonded Hsn. unfold searchBody. rewrite Hg. simpl.
  rewrite Hbonded. simpl. rewrite Hsn at 1. simpl.
  rewrite at_app_middle. simpl. unfold for_loop.
  assert (len pre + 1 = len (pre ++ [len found])) as ->
    by (unfold len; rewrite length_app; simpl; lia).
  destruct (m !! g) as [l0|] eqn:Hm; simpl.
  - apply (retain_loop _ _ _ _ _ _ _ post);
      [by rewrite Hsn, <- app_assoc | | done].
    rewrite length_seqZ. unfold len. lia.
  - erewrite (retain_loop _ _ _ _ _ _ _ post []);
      [| by rewrite Hsn, <- app_assoc | | by rewrite lookup_insert_eq].
    + by rewrite insert_insert_eq.
    + rewrite length_seqZ. unfold len. lia.
Qed.

Lemma seqZ_S (m : Z) (n : nat) :
  seqZ m (Z.of_nat (S n)) = m :: seqZ (m + 1) (Z.of_nat n).
Proof.
  rewrite seqZ_cons by lia. f_equal. f_equal; lia.
Qed.

Lemma encodeNeighborhood_cons (found : list Z) (nbrs : list (list Z)) :
  encodeNeighborhood (found :: nbrs)
  = (len found :: found) ++ encodeNeighborhood nbrs.
Proof. done. Qed.

Lemma search_loop (map1 bond : Epetra_BlockMap) (ids sn gids : list Z)
    (B : Z → list Z) :
  ∀ (nbrs : list (list Z)) (gs gpre pre post : list Z) (m : gmap Z (list Z))
    (off : gset Z),
    gids = gpre ++ gs → length gs = length nbrs →
    sn = pre ++ encodeNeighborhood nbrs ++ post →
    (∀ g, g ∈ gs → bondedNeighbors bond ids g = Ok (B g)) →
    for_each (seqZ (len gpre) (len nbrs)) (searchBody map1 bond ids sn gids)
      (len pre, m, off)
    = Ok (len pre + len (encodeNeighborhood nbrs),
          searchResult B (zip gs nbrs) m,
          searchGhosts map1 B (zip gs nbrs) off).
Proof.
  induction nbrs as [|found nbrs IH];
    intros [|g gs] gpre pre post m off Hgids Hlen Hsn HB; try discriminate.
  - unfold len. simpl. by rewrite Z.add_0_r.
  - injection Hlen as Hlen. unfold len at 2. simpl length. rewrite seqZ_S.
    cbn [for_each]. rewrite encodeNeighborhood_cons in Hsn |- *.
    erewrite (searchBody_step _ _ _ _ _ _ g (B g) found pre
                (encodeNeighborhood nbrs ++ post));
      [| rewrite Hgids; apply at_app_middle | apply HB; set_solver
       | by rewrite Hsn, <- app_assoc ].
    cbn [mbind result_bind].
    assert (len pre + 1 + len found = len (pre ++ len found :: found)) as ->
      by (unfold len; rewrite length_app; simpl; lia).
    assert (len gpre + 1 = len (gpre ++ [g])) as ->
      by (unfold len; rewrite length_app; simpl; lia).
    erewrite (IH gs (gpre ++ [g]) (pre ++ len found :: found) post);
      [| by rewrite Hgids, <- app_assoc | done
       | rewrite Hsn, <- !app_assoc; done
       | intros; apply HB; set_solver ].
    simpl. f_equal. f_equal. f_equal.
    unfold len. rewrite !length_app. simpl. rewrite length_app. lia.
Qed.

Lemma searchResult_elem (B : Z → list Z) (pts : list (Z * list Z)) :
  ∀ (m : gmap Z (list Z)) (P N : Z),
    N ∈ default [] (searchResult B pts m !! P) ↔
    N ∈ default [] (m !! P)
    ∨ ∃ found, (P, found) ∈ pts ∧ N ∈ found ∧ N ∉ B P.
Proof.
  induction pts as [|[g l] pts IH]; intros m P N; simpl.
  - split; [by left|]. intros [?|(? & Hin & _)]; [done|].
    by apply elem_of_nil in Hin.
  - rewrite IH. destruct (decide (g = P)) as [->|Hne].
    + rewrite lookup_insert_eq. simpl. rewrite elem_of_app.
      unfold retained. rewrite list_elem_of_filter. split.
      * intros [[?|[? ?]]|(found & ? & ? & ?)]; [by left|right..].
        -- exists l. split; [left|done].
        -- exists found. split; [by right|done].
      * intros [?|(found & Hin & ? & ?)]; [left; by left|].
        apply elem_of_cons in Hin as [[= <-]|Hin].
        -- left; right. done.
        -- right. by exists found.
    + rewrite lookup_insert_ne by done. split.
      * intros [?|(found & ? & ? & ?)]; [by left|right].
        exists found. split; [by right|done].
      * intros [?|(found & Hin & ? & ?)]; [by left|right].
        apply elem_of_cons in Hin as [[= ? ?]|Hin]; [done|].
        by exists found.
Qed.

Lemma searchGhosts_elem (map1 : Epetra_BlockMap) (B : Z → list Z)
    (pts : list (Z * list Z)) :
  ∀ (off : gset Z) (N : Z),
    N ∈ searchGhosts map1 B pts off ↔
    N ∈ off
    ∨ ∃ P found,
        (P, found) ∈ pts ∧ N ∈ found ∧ (N ∉ B P) ∧ LID map1 N = -1.
Proof.
  induction pts as [|[g l] pts IH]; intros off N; simpl.
  - split; [by left|]. intros [?|(? & ? & Hin & _)]; [done|].
    by apply elem_of_nil in Hin.
  - rewrite IH, elem_of_union. unfold notOwned, retained.
    rewrite elem_of_list_to_set, !list_elem_of_filter. split.
    + intros [[(? & ? & ?)|?]|(P & found & ? & ?)]; [right|by left|right].
      * exists g, l. split; [left|done].
      * exists P, found. split; [by right|done].
    + intros [?|(P & found & Hin & ? & ? & ?)]; [left; by right|].
      apply elem_of_cons in Hin as [[= <- <-]|Hin].
      * left; by left.
      * right. by exists P, found.
Qed.

Lemma retainBody_inv (map1 bond : Epetra_BlockMap) (ids sn : list Z) (g : Z)
    (bonded : list Z) (i : Z) (s : SearchState) :
  bondedNeighbors bond ids g = Ok bonded →
  searchInv map1 bond ids s →
  outcome (searchInv map1 bond ids) (λ _, False) True
    (retainBody map1 sn g bonded i s).
Proof.
  intros Hbonded. destruct s as [[idx m] off]. intros [Hm Hoff].
  unfold retainBody. eapply outcome_bind; [by apply at_spec|].
  intros n _. case_decide as Hn; simpl; [done|]. split.
  - intros P l N Hl HN. destruct (decide (g = P)) as [->|Hne].
    + rewrite lookup_insert_eq in Hl. injection Hl as <-.
      apply elem_of_app in HN as [HN|HN].
      * destruct (m !! P) as [l0|] eqn:Hl0; simpl in HN;
          [|by apply elem_of_nil in HN].
        destruct (Hm P l0 N Hl0 HN) as [Hb [Hown|Hin]]; split; try done;
          [by left|]. right. case_decide; set_solver.
      * apply list_elem_of_singleton in HN as ->. split; [by eexists|].
        case_decide as Hlid; [right; set_solver|by left].
    + rewrite lookup_insert_ne in Hl by done.
      destruct (Hm P l N Hl HN) as [Hb [Hown|Hin]]; split; try done;
        [by left|]. right. case_decide; set_solver.
  - intros N HN. case_decide as Hlid; [|by apply Hoff].
    apply elem_of_union in HN as [HN|HN]; [|by apply Hoff].
    by apply elem_of_singleton in HN as ->.
Qed.

Lemma searchBody_inv (map1 bond : Epetra_BlockMap) (ids sn gids : list Z)
    (iPt : Z) (s : SearchState) :
  searchInv map1 bond ids s →
  outcome (searchInv map1 bond ids) (λ _, False) True
    (searchBody map1 bond ids sn gids iPt s).
Proof.
  destruct s as [[idx m] off]. intros [Hm Hoff]. unfold searchBody.
  eapply outcome_bind; [by apply at_spec|]. intros g _.
  destruct (bondedNeighbors bond ids g) as [bonded| |] eqn:Hbonded;
    simpl; [|by apply (bondedNeighbors_never_throws bond ids g e)|done].
  eapply outcome_bind; [by apply at_spec|]. intros n _.
  eapply outcome_weaken;
    [apply (for_loop_outcome (λ _, searchInv map1 bond ids) (λ _, False) True)
    |..]; try done.
  - split; [|done]. intros P l N Hl HN.
    destruct (m !! g) eqn:Hg; [by eapply Hm|].
    destruct (decide (g = P)) as [->|Hne].
    + rewrite lookup_insert_eq in Hl. injection Hl as <-.
      by apply elem_of_nil in HN.
    + rewrite lookup_insert_ne in Hl by done. by eapply Hm.
  - intros i s _ Hs. by eapply retainBody_inv.
Qed.

Lemma bondedNeighbors_layout (bond : Epetra_BlockMap) (ids : list Z) (g : Z) :
  bondLayout bond ids → LID bond g ≠ -1 →
  ∃ s off,
    ElementSize bond (LID bond g) = Ok s ∧
    at_ (FirstPointInElementList bond) (LID bond g) = Ok off ∧
    0 ≤ s ∧ 0 ≤ off ∧ off + s ≤ len ids ∧
    bondedNeighbors bond ids g
    = Ok (take (Z.to_nat s) (drop (Z.to_nat off) ids)).
Proof.
  intros (Hlen & Hnn & Hids) Hlid. unfold bondedNeighbors.
  rewrite decide_True by done.
  apply LID_present in Hlid as [Hrange Hg]. unfold NumMyElements, len in Hrange.
  set (lid := LID bond g) in *.
  assert (∃ s, ElementSizeList bond !! Z.to_nat lid = Some s) as [s Hs].
  { apply lookup_lt_is_Some. lia. }
  destruct (sum_list_take_S _ _ _ Hnn Hs) as [Hoff Hend].
  rewrite Forall_lookup in Hnn. specialize (Hnn _ _ Hs). simpl in Hnn.
  set (off := 0 + sum_list (take (Z.to_nat lid) (ElementSizeList bond))) in *.
  assert (0 ≤ off ∧ off + s ≤ len ids) as [Hoff' Hend'].
  { unfold off. unfold NumMyPoints in Hids. lia. }
  assert (ElementSize bond lid = Ok s) as HES.
  { apply at_Ok. split; [lia|done]. }
  assert (at_ (FirstPointInElementList bond) lid = Ok off) as HFP.
  { apply at_Ok. split; [lia|]. apply first_points_lookup. lia. }
  rewrite HES, HFP. simpl.
  exists s, off. split; [done|]. split; [done|].
  split; [done|]. split; [done|]. split; [done|].
  match goal with |- context [for_loop ?n ?body ?s0] =>
    assert (outcome
      (λ acc, acc = take (Z.to_nat (Z.max 0 n)) (drop (Z.to_nat off) ids))
      (λ _, False) False (for_loop n body s0)) as Hloop
  end.
  { apply (for_loop_outcome
      (λ i acc, acc = take (Z.to_nat i) (drop (Z.to_nat off) ids))); [done|].
    intros i acc Hi ->. eapply outcome_bind;
      [apply at_spec; unfold NumMyPoints, len in *; lia|].
    intros n [Hn _]. simpl.
    replace (Z.to_nat (i + 1)) with (S (Z.to_nat i)) by lia.
    symmetry. apply take_S_r. rewrite lookup_drop.
    by replace (Z.to_nat off + Z.to_nat i)%nat with (Z.to_nat (off + i)) by lia. }
  destruct (for_loop _ _ _) as [b| |]; simpl in Hloop; [|done..].
  rewrite Hloop. by replace (Z.max 0 s) with s by lia.
Qed.

Lemma bondedNeighbors_absent (bond : Epetra_BlockMap) (ids : list Z) (g : Z) :
  LID bond g = -1 → bondedNeighbors bond ids g = Ok [].
Proof. intros Hlid. unfold bondedNeighbors. by rewrite decide_False by lia. Qed.

(** The bonded IDs the search reads for a point are the point's cells of
    the bonded-ID vector. *)
Lemma bondedNeighbors_segment (bond : Epetra_BlockMap) (ids : list Z) (g : Z) :
  bondLayout bond ids →
  bondedNeighbors bond ids g = Ok (bondSegment bond ids g).
Proof.
  intros Hlayout. unfold bondSegment. cbv zeta. case_decide as Hlid.
  - by apply bondedNeighbors_absent.
  - destruct (bondedNeighbors_layout bond ids g Hlayout Hlid)
      as (s & off & Hs & Hoff & _ & _ & _ & ->).
    apply at_Ok in Hs as [_ ->]. apply at_Ok in Hoff as [Hnn Hoff].
    destruct Hlayout as (Hlen & _ & _).
    apply LID_present in Hlid as [Hrange _].
    unfold NumMyElements, len in Hrange. unfold FirstPointInElementList in Hoff.
    rewrite first_points_lookup in Hoff by lia. injection Hoff as <-.
    simpl. by rewrite Z.add_0_l.
Qed.

Section SearchProperties.
Context `{Collaborators}.

Lemma contactSearch_inv (st : ContactManager) (map1 bond : Epetra_BlockMap)
    (ids : list Z) (decomp : QUICKGRID_Data) :
  outcome (λ r, searchInv map1 bond ids (0, r.1, r.2)) (λ _, False) True
    (contactSearch st map1 bond ids decomp ∅ ∅).
Proof.
  unfold contactSearch. eapply outcome_bind.
  - apply (for_loop_outcome (λ _, searchInv map1 bond ids) (λ _, False) True).
    + split; [|set_solver]. intros P l N Hl. by rewrite lookup_empty in Hl.
    + intros i s _ Hs. by apply searchBody_inv.
  - by intros [[idx m] off] Hs.
Qed.

(** C1: the search returns, for every owned point, exactly the neighbours
    found within the radius that are not among the point's migrated bonded
    global IDs, the cells of the rebalanced bonded-ID vector that the
    rebalanced bond map gives the point; so no contact neighbour of a point
    is also a bonded neighbour of it. *)
Theorem contact_neighbors_exclude_bonded (st : ContactManager)
    (map1 bond : Epetra_BlockMap) (ids : list Z) (decomp : QUICKGRID_Data)
    (nbrs : list (list Z)) :
  let searched :=
    NeighborhoodList_new decomp
      (PutScalar (contactSearchRadius st) (Epetra_Vector_new map1)) in
  get_neighborhood searched = encodeNeighborhood nbrs →
  length (get_owned_gids searched) = length nbrs →
  numPoints decomp = len nbrs →
  bondLayout bond ids →
  ∃ contact off,
    contactSearch st map1 bond ids decomp ∅ ∅ = Ok (contact, off) ∧
    (∀ P N,
       N ∈ default [] (contact !! P) ↔
       ∃ i found,
         get_owned_gids searched !! i = Some P ∧ nbrs !! i = Some found ∧
         N ∈ found ∧ N ∉ bondSegment bond ids P) ∧
    (∀ P N,
       N ∈ default [] (contact !! P) → N ∉ bondSegment bond ids P).
Proof.
  intros searched Hsn Hgids Hnum Hlayout.
  pose proof (search_loop map1 bond ids (get_neighborhood searched)
    (get_owned_gids searched) (bondSegment bond ids) nbrs
    (get_owned_gids searched) [] [] [] ∅ ∅) as Hloop.
  unfold contactSearch, for_loop. fold searched. rewrite Hnum.
  change (len (@nil Z)) with 0 in Hloop. rewrite Hloop; clear Hloop;
    [|done|done|by rewrite Hsn, app_nil_r
     |intros g _; by apply bondedNeighbors_segment].
  simpl. eexists _, _. split; [done|].
  assert (∀ P N,
    N ∈ default []
          (searchResult (bondSegment bond ids)
             (zip (get_owned_gids searched) nbrs) ∅ !! P) ↔
    ∃ i found,
      get_owned_gids searched !! i = Some P ∧ nbrs !! i = Some found ∧
      N ∈ found ∧ N ∉ bondSegment bond ids P) as Hiff.
  { intros P N. rewrite searchResult_elem, lookup_empty. simpl. split.
    - intros [HN|(found & Hin & HN & Hb)]; [by apply elem_of_nil in HN|].
      apply list_elem_of_lookup in Hin as [i Hi].
      apply lookup_zip_with_Some in Hi as (P' & found' & [= <- <-] & HP & Hf).
      by exists i, found.
    - intros (i & found & HP & Hf & HN & Hb). right.
      exists found. split; [|done]. apply list_elem_of_lookup. exists i.
      rewrite lookup_zip_with, HP. simpl. by rewrite Hf. }
  split; [exact Hiff|].
  intros P N HN. apply Hiff in HN as (_ & _ & _ & _ & _ & Hb). exact Hb.
Qed.

End SearchProperties.

(** ** The ghost set and the overlap map *)

Lemma set_iter_Permutation (s : gset Z) : set_iter s ≡ₚ elements s.
Proof. apply merge_sort_Permutation. Qed.

Lemma elem_of_set_iter (s : gset Z) (x : Z) : x ∈ set_iter s ↔ x ∈ s.
Proof. by rewrite set_iter_Permutation, elem_of_elements. Qed.

Lemma length_set_iter (s : gset Z) : length (set_iter s) = size s.
Proof. by rewrite set_iter_Permutation. Qed.

Lemma NoDup_set_iter (s : gset Z) : NoDup (set_iter s).
Proof. rewrite set_iter_Permutation. apply NoDup_elements. Qed.

Lemma elem_of_addContactIDs (offContact off : gset Z) (x : Z) :
  x ∈ addContactIDs offContact off ↔ x ∈ offContact ∨ x ∈ off.
Proof.
  unfold addContactIDs. rewrite <- (elem_of_set_iter offContact).
  generalize (set_iter offContact). intros l. revert off.
  induction l as [|y l IH]; intros off; simpl.
  - rewrite elem_of_nil. tauto.
  - rewrite IH, elem_of_cons. set_solver.
Qed.

Lemma MyGID_false (m : Epetra_BlockMap) (g : Z) :
  MyGID m g = false ↔ LID m g = -1.
Proof. unfold MyGID. rewrite negb_false_iff. apply Z.eqb_eq. Qed.

Lemma bondedOffProcessorIDs_spec (map1 : Epetra_BlockMap) (ids : list Z) :
  ∃ off, bondedOffProcessorIDs map1 ids = Ok off
         ∧ ∀ g, g ∈ off ↔ g ∈ ids ∧ LID map1 g = -1.
Proof.
  unfold bondedOffProcessorIDs.
  match goal with |- context [for_loop ?n ?body ?s] =>
    assert (outcome
      (λ off : gset Z,
         ∀ g, g ∈ off ↔ g ∈ take (Z.to_nat (Z.max 0 n)) ids ∧ LID map1 g = -1)
      (λ _, False) False (for_loop n body s)) as Hloop
  end.
  { apply (for_loop_outcome
      (λ i (off : gset Z),
         ∀ g, g ∈ off ↔ g ∈ take (Z.to_nat i) ids ∧ LID map1 g = -1)).
    - intros g'. simpl. rewrite elem_of_nil. set_solver.
    - intros i off' Hi Hoff. eapply outcome_bind; [apply at_spec; lia|].
      intros g' [Hg' _]. replace (Z.to_nat (i + 1)) with (S (Z.to_nat i)) by lia.
      rewrite (take_S_r _ _ _ Hg').
      destruct (MyGID map1 g') eqn:Hmy; simpl; intros g''.
      + rewrite Hoff, elem_of_app, list_elem_of_singleton. split; [tauto|].
        intros [[?| ->] Hlid]; [done|]. apply MyGID_false in Hlid. congruence.
      + apply MyGID_false in Hmy.
        rewrite elem_of_union, elem_of_singleton, Hoff, elem_of_app,
          list_elem_of_singleton.
        split; [intros [->|?]; tauto|]. intros [[?| ->] ?]; tauto. }
  destruct (for_loop _ _ _) as [off| |]; simpl in Hloop; [|done..].
  exists off. split; [done|]. intros g. rewrite Hloop.
  replace (Z.to_nat (Z.max 0 (len ids))) with (length ids)
    by (unfold len; lia).
  by rewrite firstn_all.
Qed.

Lemma insert_app_replicate {A : Type} (pre : list A) (x y : A) (n : nat) :
  <[length pre := x]> (pre ++ replicate (S n) y) = (pre ++ [x]) ++ replicate n y.
Proof.
  rewrite insert_app_r_alt by lia. rewrite Nat.sub_diag. simpl.
  by rewrite <- app_assoc.
Qed.

Lemma overlapGlobalElements_spec (map1 : Epetra_BlockMap) (off : gset Z) :
  overlapGlobalElements map1 off
  = Ok (NumMyElements map1 + Z.of_nat (size off),
        MyGlobalElements map1 ++ set_iter off).
Proof.
  unfold overlapGlobalElements, NumMyElements, len.
  set (owned := MyGlobalElements map1).
  replace (Z.to_nat (Z.of_nat (length owned) + Z.of_nat (size off))
           - length owned)%nat with (size off) by lia.
  rewrite <- length_set_iter.
  match goal with |- context [for_each ?l ?body ?s] =>
    assert (outcome
      (λ '(index, a), index = len ([] ++ l)
         ∧ a = (owned ++ [] ++ l) ++ replicate (length l - length ([] ++ l)) 0)
      (λ _, False) False (for_each l body s)) as Hloop
  end.
  { apply (for_each_outcome
      (λ done '(index, a),
         index = len done
         ∧ a = (owned ++ done)
               ++ replicate (length (set_iter off) - length done) 0)).
    - simpl. by rewrite app_nil_r, Nat.sub_0_r.
    - intros k x [index' a'] Hk [-> ->]. simpl.
      apply lookup_lt_Some in Hk as Hlt.
      eapply outcome_bind; [apply store_spec|].
      { unfold len. rewrite !length_app, length_replicate, length_take. lia. }
      intros a'' [-> _]. simpl. unfold len.
      rewrite (take_S_r _ _ _ Hk), !length_app, !length_take. simpl.
      split; [lia|].
      replace (Z.to_nat (Z.of_nat (length owned)
                         + Z.of_nat (k `min` length (set_iter off))))
        with (length (owned ++ take k (set_iter off)))
        by (rewrite length_app, length_take; lia).
      replace (length (set_iter off) - k `min` length (set_iter off))%nat
        with (S (length (set_iter off)
                 - (k `min` length (set_iter off) + 1))) by lia.
      by rewrite insert_app_replicate, <- !app_assoc. }
  destruct (for_each _ _ _) as [[index a]| |]; simpl in Hloop; [|done..].
  destruct Hloop as [_ ->]. simpl. by rewrite Nat.sub_diag, app_nil_r.
Qed.

(** Splits a successful sequence of calls into its steps. *)
Ltac inv_bind H :=
  repeat match type of H with
         | (_ ≫= _) = Ok _ =>
             let x := fresh "x" in
             let Hx := fresh "H" x in
             apply bind_Ok in H as (x & Hx & H); cbv beta in H
         | (let '(_, _) := ?p in _) = Ok _ => destruct p
         | (match ?p with (_, _) => _ end) = Ok _ => destruct p
         end.

Lemma rebalancedOverlapMaps_spec (map1 : Epetra_BlockMap) (off : gset Z) :
  rebalancedOverlapMaps map1 off
  = Ok (overlapMap map1 off 1, overlapMap map1 off 3).
Proof.
  unfold rebalancedOverlapMaps. rewrite overlapGlobalElements_spec. simpl.
  unfold Epetra_BlockMap_new, NumMyElements, len.
  rewrite <- length_set_iter, <- Nat2Z.inj_add, <- length_app.
  rewrite !decide_True by lia. simpl.
  by rewrite Nat2Z.id, firstn_all.
Qed.

Section TopologyProperties.
Context `{Collaborators}.

Lemma rebalanceTopology_Ok (peers : list ContactManager) (st : ContactManager)
    (r : Rebalanced) :
  rebalanceTopology peers st = Ok r →
  ∃ decomp offBond offContact,
    currentConfigurationDecomp peers st = Ok decomp ∧
    getOwnedMap decomp 1 = Ok (rebalancedOneDimensionalMap r) ∧
    getOwnedMap decomp 3 = Ok (rebalancedThreeDimensionalMap r) ∧
    createRebalancedBondMap peers st (rebalancedOneDimensionalMap r)
      (Epetra_Import_new (rebalancedOneDimensionalMap r)
         (oneDimensionalContactMap st))
      = Ok (rebalancedBondMap r) ∧
    createRebalancedNeighborGlobalIDList peers st (rebalancedBondMap r)
      (Epetra_Import_new (rebalancedBondMap r) (bondContactMap st))
      = Ok (rebalancedNeighborGlobalIDs r) ∧
    bondedOffProcessorIDs (rebalancedOneDimensionalMap r)
      (rebalancedNeighborGlobalIDs r) = Ok offBond ∧
    contactSearch st (rebalancedOneDimensionalMap r) (rebalancedBondMap r)
      (rebalancedNeighborGlobalIDs r) decomp ∅ ∅
      = Ok (contactNeighborGlobalIDs r, offContact) ∧
    offProcessorIDs r = addContactIDs offContact offBond ∧
    rebalancedOneDimensionalOverlapMap r
      = overlapMap (rebalancedOneDimensionalMap r) (offProcessorIDs r) 1 ∧
    rebalancedThreeDimensionalOverlapMap r
      = overlapMap (rebalancedOneDimensionalMap r) (offProcessorIDs r) 3 ∧
    createRebalancedNeighborhoodData (rebalancedOneDimensionalMap r)
      (rebalancedOneDimensionalOverlapMap r) (rebalancedBondMap r)
      (rebalancedNeighborGlobalIDs r) = Ok (rebalancedNeighborhoodData r) ∧
    createRebalancedContactNeighborhoodData (contactNeighborGlobalIDs r)
      (rebalancedOneDimensionalMap r) (rebalancedOneDimensionalOverlapMap r)
      = Ok (rebalancedContactNeighborhoodData r).
Proof.
  intros Hr. unfold rebalanceTopology in Hr. inv_bind Hr.
  match goal with
  | Ho : rebalancedOverlapMaps _ _ = _ |- _ =>
      rewrite rebalancedOverlapMaps_spec in Ho
  end.
  simplify_eq/=. by eexists _, _, _.
Qed.

(** The overlap maps list the owned global IDs and then the off-processor
    set, which holds no owned ID. *)
Lemma rebalanceTopology_owned_ghost (peers : list ContactManager)
    (st : ContactManager) (r : Rebalanced) :
  rebalanceTopology peers st = Ok r →
  let owned := MyGlobalElements (rebalancedOneDimensionalMap r) in
  let ghosts := set_iter (offProcessorIDs r) in
  MyGlobalElements (rebalancedOneDimensionalOverlapMap r) = owned ++ ghosts ∧
  MyGlobalElements (rebalancedThreeDimensionalOverlapMap r) = owned ++ ghosts ∧
  (∀ g, g ∈ offProcessorIDs r →
        MyGID (rebalancedOneDimensionalMap r) g = false) ∧
  (∀ g, g ∈ owned → g ∉ ghosts) ∧
  (∀ i j g, (owned ++ ghosts) !! i = Some g → (owned ++ ghosts) !! j = Some g →
            (i < length owned)%nat → (j < length owned)%nat).
Proof.
  intros Hr owned ghosts.
  apply rebalanceTopology_Ok in Hr
    as (decomp & offBond & offContact & _ & _ & _ & _ & _ & HoffBond
        & Hsearch & Hoff & Ho1 & Ho3 & _ & _).
  assert (∀ g, g ∈ offProcessorIDs r →
               LID (rebalancedOneDimensionalMap r) g = -1) as Hghost.
  { intros g. rewrite Hoff, elem_of_addContactIDs. intros [Hg|Hg].
    - pose proof (contactSearch_inv st (rebalancedOneDimensionalMap r)
        (rebalancedBondMap r) (rebalancedNeighborGlobalIDs r) decomp) as Hinv.
      rewrite Hsearch in Hinv. simpl in Hinv. destruct Hinv as [_ Hinv].
      by apply Hinv.
    - destruct (bondedOffProcessorIDs_spec (rebalancedOneDimensionalMap r)
        (rebalancedNeighborGlobalIDs r)) as (off' & Hoff' & Hspec).
      rewrite HoffBond in Hoff'. injection Hoff' as <-.
      by apply Hspec in Hg as [_ Hg]. }
  assert (∀ g, g ∈ owned → g ∉ ghosts) as Hdisjoint.
  { intros g Howned Hg. apply elem_of_set_iter in Hg.
    apply Hghost, LID_absent in Hg. done. }
  rewrite Ho1, Ho3. repeat split; try done.
  - intros g Hg. by apply MyGID_false, Hghost.
  - intros i j g Hi Hj Hlt. rewrite lookup_app_l in Hi by done.
    destruct (decide (j < length owned)%nat) as [|Hge]; [done|].
    rewrite lookup_app_r in Hj by lia. exfalso.
    apply (Hdisjoint g); by eapply list_elem_of_lookup_2.
Qed.

End TopologyProperties.

(** ** The neighbourhood tables *)

Lemma encodeSlots_app overlap (nbs1 nbs2 : list (list Z)) :
  encodeSlots overlap (nbs1 ++ nbs2)
  = encodeSlots overlap nbs1 ++ encodeSlots overlap nbs2.
Proof. unfold encodeSlots. by rewrite fmap_app, concat_app. Qed.

Lemma offsets_app (start : Z) overlap (nbs1 nbs2 : list (list Z)) :
  offsets start (nbs1 ++ nbs2)
  = offsets start nbs1
    ++ offsets (start + len (encodeSlots overlap nbs1)) nbs2.
Proof.
  revert start. induction nbs1 as [|l nbs1 IH]; intros start; simpl.
  - unfold len. simpl. by rewrite Z.add_0_r.
  - rewrite IH.
    assert (start + 1 + len l + len (encodeSlots overlap nbs1)
            = start + len (encodeSlots overlap (l :: nbs1))) as ->; [|done].
    change (encodeSlots overlap (l :: nbs1))
      with ((len l :: (LID overlap <$> l)) ++ encodeSlots overlap nbs1).
    unfold len. rewrite length_app. simpl. rewrite length_fmap. lia.
Qed.

Lemma table_loop (overlap : Epetra_BlockMap) (nbs : list (list Z))
    (E : exn → Prop) (U : Prop) (body : Z → TableState → result TableState)
    (neighborhoodList neighborhoodPtr : list Z) :
  length neighborhoodPtr = length nbs →
  (∀ i l s, nbs !! Z.to_nat i = Some l → 0 ≤ i →
     tableInv overlap nbs (length neighborhoodList) i s →
     outcome (pointWritten overlap i l s) E U (body i s)) →
  outcome (tableInv overlap nbs (length neighborhoodList) (len nbs)) E U
    (for_loop (len nbs) body (neighborhoodList, neighborhoodPtr, 0)).
Proof.
  intros Hptr Hbody.
  replace (len nbs) with (Z.max 0 (len nbs)) at 1 by (unfold len; lia).
  apply for_loop_outcome.
  - simpl. unfold tableInv, encodeSlots, len. simpl. by rewrite take_0.
  - intros i [[list ptr] idx] Hi Hinv.
    assert (∃ l, nbs !! Z.to_nat i = Some l) as [l Hl].
    { apply lookup_lt_is_Some. unfold len in Hi. lia. }
    eapply outcome_weaken; [by apply (Hbody i l); [|lia|]|..]; try done.
    intros [[list' ptr'] idx'] (Hrange & -> & -> & Hlen & Htake & Hres).
    destruct Hinv as (Hidx & Hsize & Hplen & Hpre & Hoff & Hdone).
    unfold tableInv. cbv zeta.
    replace (Z.to_nat (i + 1)) with (S (Z.to_nat i)) by lia.
    rewrite (take_S_r _ _ _ Hl), encodeSlots_app.
    assert (encodeSlots overlap [l] = len l :: (LID overlap <$> l)) as Hone.
    { unfold encodeSlots. simpl. by rewrite app_nil_r. }
    rewrite Hone. repeat split.
    + rewrite Hidx. unfold len. rewrite length_app. simpl.
      rewrite length_fmap. lia.
    + congruence.
    + by rewrite length_insert.
    + by rewrite Htake, Hpre.
    + rewrite (offsets_app _ overlap). simpl. rewrite Z.add_0_l, <- Hidx.
      unfold len in Hrange.
      rewrite (take_S_r _ _ idx) by (apply list_lookup_insert_eq; lia).
      by rewrite take_insert_ge, Hoff by lia.
    + apply Forall_app. split; [done|]. by apply Forall_singleton.
Qed.

Lemma table_decode (overlap : Epetra_BlockMap) (nbs : list (list Z)) :
  ∀ (pre post : list Z) (i : nat) (l : list Z),
    nbs !! i = Some l →
    ∃ ptr,
      offsets (len pre) nbs !! i = Some ptr ∧ 0 ≤ ptr ∧
      (pre ++ encodeSlots overlap nbs ++ post) !! Z.to_nat ptr = Some (len l) ∧
      take (length l)
        (drop (S (Z.to_nat ptr)) (pre ++ encodeSlots overlap nbs ++ post))
      = LID overlap <$> l.
Proof.
  induction nbs as [|l0 nbs IH]; intros pre post i l Hi; [done|].
  destruct i as [|i]; simpl in Hi.
  - injection Hi as ->. exists (len pre). simpl. unfold len.
    rewrite Nat2Z.id. split; [done|]. split; [lia|].
    change (encodeSlots overlap (l :: nbs))
      with ((Z.of_nat (length l) :: (LID overlap <$> l))
            ++ encodeSlots overlap nbs).
    rewrite <- !app_assoc. simpl. rewrite list_lookup_middle by done.
    split; [done|].
    rewrite (cons_middle _ pre), app_assoc.
    rewrite drop_app_length' by (rewrite length_app; simpl; lia).
    by rewrite take_app_length' by (by rewrite length_fmap).
  - destruct (IH (pre ++ len l0 :: (LID overlap <$> l0)) post i l Hi)
      as (ptr & Hptr & Hpos & Hcount & Hslots).
    exists ptr. simpl.
    assert (len (pre ++ len l0 :: (LID overlap <$> l0))
            = len pre + 1 + len l0) as Hlen.
    { unfold len. rewrite length_app. simpl. rewrite length_fmap. lia. }
    rewrite Hlen in Hptr.
    change (encodeSlots overlap (l0 :: nbs))
      with ((len l0 :: (LID overlap <$> l0)) ++ encodeSlots overlap nbs).
    rewrite <- !app_assoc in Hcount, Hslots |- *. simpl in *.
    done.
Qed.

Lemma table_neighbors (overlap : Epetra_BlockMap) (nbs : list (list Z))
    (size : nat) (s : TableState) (nd : NeighborhoodData) (i : nat)
    (l : list Z) :
  tableInv overlap nbs size (len nbs) s →
  NeighborhoodList nd = s.1.1 → NeighborhoodPtr nd = s.1.2 →
  nbs !! i = Some l →
  tableNeighbors nd i = Some (LID overlap <$> l)
  ∧ Forall2 (resolves overlap) (LID overlap <$> l) l.
Proof.
  destruct s as [[list ptr] idx]. simpl.
  intros (Hidx & Hsize & Hplen & Hpre & Hoff & Hdone) Hlist Hptr Hl.
  unfold len in *. rewrite Nat2Z.id, firstn_all in *.
  rewrite <- Hplen, firstn_all in Hoff.
  destruct (table_decode overlap nbs [] (drop (Z.to_nat idx) list) i l Hl)
    as (p & Hp & Hpos & Hcount & Hslots).
  simpl in Hp, Hcount, Hslots. rewrite <- Hpre, take_drop in Hcount, Hslots.
  unfold tableNeighbors. rewrite Hptr, Hlist, Hoff. change (len []) with 0 in Hp.
  rewrite Hp. simpl. rewrite Hcount. simpl. unfold len. rewrite Nat2Z.id, Hslots.
  rewrite decide_True by (rewrite length_fmap; lia). split; [done|].
  apply Forall2_fmap_l, Forall_Forall2_diag.
  rewrite Forall_lookup in Hdone. specialize (Hdone i l Hl).
  eapply Forall_impl; [exact Hdone|]. intros g Hg. simpl.
  apply LID_present in Hg. exact Hg.
Qed.

Lemma bondNeighbor_loop (overlap : Epetra_BlockMap) (ids : list Z) (offset : Z)
    (nbs : list Z) (U : Prop) (list0 : list Z) (idx0 : Z) :
  0 ≤ offset → 0 ≤ idx0 →
  (∀ k g, nbs !! k = Some g → ids !! (Z.to_nat offset + k)%nat = Some g) →
  (¬ idx0 + len nbs ≤ len list0 → U) →
  outcome
    (λ '(list', idx'),
       idx' = idx0 + len nbs ∧ length list' = length list0 ∧
       take (Z.to_nat idx') list'
       = take (Z.to_nat idx0) list0 ++ (LID overlap <$> nbs) ∧
       Forall (λ g, LID overlap g ≠ -1) nbs)
    (λ e, e = invalidOverlapIndex) U
    (for_loop (len nbs) (bondNeighborBody overlap ids offset) (list0, idx0)).
Proof.
  intros Hoff Hidx Hids HU.
  eapply outcome_weaken;
    [apply (for_loop_outcome
       (λ k '(list', idx'),
          idx' = idx0 + k ∧ length list' = length list0 ∧
          take (Z.to_nat idx') list'
          = take (Z.to_nat idx0) list0 ++ (LID overlap <$> take (Z.to_nat k) nbs) ∧
          Forall (λ g, LID overlap g ≠ -1) (take (Z.to_nat k) nbs))
       (λ e, e = invalidOverlapIndex) U)|..]; try done.
  - simpl. rewrite Z.add_0_r, app_nil_r. done.
  - intros k [list' idx'] Hk (-> & Hlen & Htake & Hres).
    assert (∃ g, nbs !! Z.to_nat k = Some g) as [g Hg].
    { apply lookup_lt_is_Some. unfold len in Hk. lia. }
    unfold bondNeighborBody.
    eapply outcome_bind.
    { apply at_spec. intros Hout. exfalso. apply Hout.
      apply Hids, lookup_lt_Some in Hg. unfold len. lia. }
    intros g' [Hg' _].
    replace (Z.to_nat (offset + k)) with (Z.to_nat offset + Z.to_nat k)%nat
      in Hg' by lia.
    rewrite (Hids _ _ Hg) in Hg'. injection Hg' as <-.
    case_decide as Hlid; [done|].
    eapply outcome_bind.
    { apply store_spec. intros Hout. apply HU. intros Hb. apply Hout.
      unfold len in *. lia. }
    intros list'' [-> Hin]. simpl.
    replace (Z.to_nat (k + 1)) with (S (Z.to_nat k)) by lia.
    rewrite (take_S_r _ _ _ Hg), fmap_app, Forall_app, Forall_singleton.
    rewrite length_insert. split; [lia|]. split; [done|]. split; [|by split].
    replace (Z.to_nat (idx0 + k + 1)) with (S (Z.to_nat (idx0 + k))) by lia.
    rewrite take_S_insert by (unfold len in Hin; lia).
    by rewrite Htake, <- app_assoc.
  - intros [list' idx'] (-> & Hlen & Htake & Hres).
    replace (Z.to_nat (Z.max 0 (len nbs))) with (length nbs) in *
      by (unfold len; lia).
    rewrite firstn_all in *.
    replace (Z.max 0 (len nbs)) with (len nbs) in * by (unfold len; lia).
    done.
Qed.

Lemma bondTableBody_spec (map1 overlap bond : Epetra_BlockMap) (ids : list Z)
    (U : Prop) (i : Z) (neighborhoodList neighborhoodPtr : list Z) (idx : Z) :
  bondLayout bond ids → 0 ≤ i → 0 ≤ idx →
  let l := bondedOf bond ids (GID map1 i) in
  (¬ (i < len neighborhoodPtr ∧ idx + 1 + len l ≤ len neighborhoodList) → U) →
  outcome
    (pointWritten overlap i l (neighborhoodList, neighborhoodPtr, idx))
    (λ e, e = invalidOverlapIndex) U
    (bondTableBody map1 overlap bond ids i
       (neighborhoodList, neighborhoodPtr, idx)).
Proof.
  intros Hlayout Hi Hidx l HU. unfold bondTableBody.
  eapply outcome_bind.
  { apply store_spec. intros Hout. apply HU. intros Hb. apply Hout. lia. }
  intros ptr' [-> Hptr].
  case_decide as Hlid.
  - destruct (bondedNeighbors_layout bond ids _ Hlayout Hlid)
      as (s & off & -> & -> & Hs & Hoff & Hend & Hbonded).
    assert (l = take (Z.to_nat s) (drop (Z.to_nat off) ids)) as Hl.
    { unfold l, bondedOf. by rewrite Hbonded. }
    clearbody l. subst l. simpl.
    set (l := take (Z.to_nat s) (drop (Z.to_nat off) ids)) in *.
    assert (len l = s) as Hl.
    { unfold l, len in *. rewrite length_take, length_drop. lia. }
    eapply outcome_bind.
    { apply store_spec. intros Hout. apply HU. intros Hb. apply Hout.
      unfold len in *. lia. }
    intros list' [-> Hin]. rewrite <- Hl.
    eapply outcome_bind.
    { apply (bondNeighbor_loop overlap ids off l U); [done|lia| |].
      - intros k g Hg. unfold l in Hg.
        apply lookup_take_Some in Hg as [Hg _]. by rewrite lookup_drop in Hg.
      - intros Hout. apply HU. intros Hb. apply Hout.
        unfold len in *. rewrite length_insert. lia. }
    intros [list'' idx'] (-> & Hlen & Htake & Hres). simpl.
    rewrite length_insert in Hlen.
    unfold len in *. repeat split; try done; try lia.
    rewrite Htake. replace (Z.to_nat (idx + 1)) with (S (Z.to_nat idx)) by lia.
    rewrite take_S_insert by lia. by rewrite <- app_assoc.
  - assert (LID bond (GID map1 i) = -1) as Hlid' by lia.
    assert (l = []) as Hl.
    { unfold l, bondedOf. by rewrite (bondedNeighbors_absent _ _ _ Hlid'). }
    clearbody l. subst l.
    eapply outcome_bind.
    { apply store_spec. intros Hout. apply HU. intros Hb. apply Hout.
      unfold len in *. simpl in *. lia. }
    intros list' [-> Hin]. simpl. unfold len in *. simpl.
    rewrite length_insert. repeat split; try done; try lia.
    replace (Z.to_nat (idx + 1)) with (S (Z.to_nat idx)) by lia.
    by rewrite take_S_insert by lia.
Qed.

Lemma GID_lookup (m : Epetra_BlockMap) (i : Z) (g : Z) :
  0 ≤ i → MyGlobalElements m !! Z.to_nat i = Some g → GID m i = g.
Proof. intros Hi Hg. unfold GID. rewrite decide_True by done. by rewrite Hg. Qed.

Lemma recordOwnedIDs_spec (map1 overlap : Epetra_BlockMap) :
  outcome
    (λ nd, NeighborhoodPtr nd = replicate (length (MyGlobalElements map1)) 0
           ∧ NeighborhoodList nd = []
           ∧ NumOwnedPoints nd = NumMyElements map1)
    (λ e, e = invalidOverlapIndex) False
    (recordOwnedIDs map1 overlap).
Proof.
  unfold recordOwnedIDs. eapply outcome_bind.
  - apply (for_loop_outcome
      (λ _ (a : list Z), length a = length (MyGlobalElements map1))
      (λ e, e = invalidOverlapIndex) False).
    + simpl. unfold NumMyElements, len. by rewrite length_replicate, Nat2Z.id.
    + intros i a Hi Ha. unfold ownedIDsBody. case_decide; [done|].
      apply store_outcome.
      * intros _. by rewrite length_insert.
      * unfold NumMyElements, len in *. lia.
  - intros a Ha. simpl. unfold NumMyElements, len. by rewrite Nat2Z.id.
Qed.

Lemma len_app {A : Type} (l1 l2 : list A) : len (l1 ++ l2) = len l1 + len l2.
Proof. unfold len. rewrite length_app. lia. Qed.

Lemma encodeSlots_length_take (overlap : Epetra_BlockMap)
    (nbs : list (list Z)) (i : nat) :
  len (encodeSlots overlap (take i nbs)) ≤ len (encodeSlots overlap nbs).
Proof.
  rewrite <- (take_drop i nbs) at 2. rewrite encodeSlots_app.
  unfold len. rewrite length_app. lia.
Qed.

Lemma encodeSlots_length (overlap : Epetra_BlockMap) (nbs : list (list Z)) :
  len (encodeSlots overlap nbs) = len nbs + sum_list (len <$> nbs).
Proof.
  induction nbs as [|l nbs IH]; [done|].
  change (encodeSlots overlap (l :: nbs))
    with ((len l :: (LID overlap <$> l)) ++ encodeSlots overlap nbs).
  rewrite fmap_cons. cbn [sum_list].
  assert (len ((len l :: (LID overlap <$> l)) ++ encodeSlots overlap nbs)
          = 1 + len l + len (encodeSlots overlap nbs)) as ->.
  { unfold len. rewrite length_app. simpl. rewrite length_fmap. lia. }
  assert (len (l :: nbs) = 1 + len nbs) as -> by (unfold len; simpl; lia).
  lia.
Qed.

Lemma createRebalancedNeighborhoodData_spec
    (map1 overlap bond : Epetra_BlockMap) (ids : list Z) (U : Prop) :
  bondLayout bond ids →
  (¬ sum_list (len ∘ bondedOf bond ids <$> MyGlobalElements map1)
     ≤ NumMyPoints bond → U) →
  outcome (tableOf map1 overlap (bondedOf bond ids))
    (λ e, e = invalidOverlapIndex) U
    (createRebalancedNeighborhoodData map1 overlap bond ids).
Proof.
  intros Hlayout HU. unfold createRebalancedNeighborhoodData.
  eapply outcome_bind.
  { eapply outcome_weaken; [apply recordOwnedIDs_spec|..]; done. }
  intros nd (Hptr & Hlist & Hnum). simpl.
  set (gids := MyGlobalElements map1) in *.
  set (nbs := bondedOf bond ids <$> gids).
  assert (0 ≤ NumMyPoints bond) as Hpoints.
  { apply sum_list_nonneg. apply Hlayout. }
  assert (NumMyElements map1 = len nbs) as HN.
  { unfold NumMyElements, nbs, len. by rewrite length_fmap. }
  assert (len (encodeSlots overlap nbs)
          = len nbs + sum_list (len ∘ bondedOf bond ids <$> gids)) as Henc.
  { rewrite encodeSlots_length. unfold nbs. by rewrite <- list_fmap_compose. }
  rewrite HN, Hptr.
  set (list0 := replicate (Z.to_nat (len nbs + NumMyPoints bond)) 0).
  assert (length list0 = Z.to_nat (len nbs + NumMyPoints bond)) as Hlist0
    by apply length_replicate.
  eapply outcome_bind.
  { apply (table_loop overlap nbs (λ e, e = invalidOverlapIndex) U _ list0).
    - unfold nbs. by rewrite length_replicate, length_fmap.
    - intros i l [[list ptr] idx] Hl Hi Hinv.
      assert (gids !! Z.to_nat i = Some (GID map1 i)) as Hg.
      { unfold nbs in Hl. rewrite list_lookup_fmap in Hl.
        destruct (gids !! Z.to_nat i) as [g|] eqn:Hg; [|done].
        by rewrite (GID_lookup map1 i g Hi Hg). }
      assert (l = bondedOf bond ids (GID map1 i)) as ->.
      { unfold nbs in Hl. rewrite list_lookup_fmap, Hg in Hl. by injection Hl. }
      destruct Hinv as (Hidx & Hsize & Hplen & _).
      apply bondTableBody_spec; [done|done|unfold len in *; lia|].
      intros Hout. apply HU. intros Hcap. apply Hout.
      pose proof (encodeSlots_length_take overlap nbs (S (Z.to_nat i))) as Hle.
      rewrite (take_S_r _ _ _ Hl), encodeSlots_app, len_app in Hle.
      rewrite (encodeSlots_length overlap [_]) in Hle.
      apply lookup_lt_Some in Hl. cbn [fmap list_fmap sum_list] in Hle.
      unfold len in *. simpl in Hle. lia. }
  intros [[list ptr] idx] Hinv. simpl. intros i g Hg.
  apply (table_neighbors overlap nbs (length list0) (list, ptr, idx)); try done.
  unfold nbs, gids. by rewrite list_lookup_fmap, Hg.
Qed.

Lemma sizeOf_find_index (gids sizes : list Z) (g : Z) (i : Z) :
  length gids = length sizes →
  (find_index g gids i = -1 ∧ sizeOf gids sizes g = 0)
  ∨ (i ≤ find_index g gids i
     ∧ sizes !! Z.to_nat (find_index g gids i - i) = Some (sizeOf gids sizes g)).
Proof.
  revert sizes i. induction gids as [|g0 gids IH]; intros [|s0 sizes] i Hlen;
    simplify_eq/=; [by left|].
  case_decide as Hg.
  - right. split; [lia|]. by replace (i - i) with 0 by lia.
  - destruct (IH sizes (i + 1) Hlen) as [[-> ->]|[Hr Hs]]; [by left|right].
    split; [lia|].
    replace (Z.to_nat (find_index g gids (i + 1) - i))
      with (S (Z.to_nat (find_index g gids (i + 1) - (i + 1)))) by lia.
    done.
Qed.

Lemma bondedOf_length (bond : Epetra_BlockMap) (ids : list Z) (g : Z) :
  bondLayout bond ids →
  len (bondedOf bond ids g)
  = sizeOf (MyGlobalElements bond) (ElementSizeList bond) g.
Proof.
  intros Hlayout. pose proof Hlayout as (Hlen & Hnn & Hids).
  destruct (sizeOf_find_index (MyGlobalElements bond) (ElementSizeList bond)
              g 0 Hlen) as [[Hf ->]|[Hr Hs]].
  - unfold bondedOf. by rewrite (bondedNeighbors_absent bond ids g Hf).
  - assert (LID bond g ≠ -1) as Hlid by (unfold LID; lia).
    destruct (bondedNeighbors_layout bond ids g Hlayout Hlid)
      as (s & off & Hsize & _ & Hs0 & Hoff & Hend & Hbonded).
    unfold bondedOf. rewrite Hbonded.
    apply at_Ok in Hsize as [_ Hsize]. unfold LID in Hsize.
    rewrite Z.sub_0_r in Hs. rewrite Hs in Hsize. injection Hsize as ->.
    unfold len in *. rewrite length_take, length_drop. lia.
Qed.

Lemma sum_sizeOf_absent (gs : list Z) (g0 s0 : Z) (f : Z → Z) :
  g0 ∉ gs →
  sum_list ((λ g, if decide (g0 = g) then s0 else f g) <$> gs)
  = sum_list (f <$> filter (λ g, g0 ≠ g) gs).
Proof.
  induction gs as [|g gs IH]; intros Hg; [done|].
  apply not_elem_of_cons in Hg as [Hne Hg].
  rewrite filter_cons, decide_True by done. rewrite !fmap_cons.
  cbn [sum_list]. rewrite decide_False by done. by rewrite IH.
Qed.

Lemma sum_sizeOf_head (gs : list Z) (g0 s0 : Z) (f : Z → Z) :
  NoDup gs → 0 ≤ s0 →
  sum_list ((λ g, if decide (g0 = g) then s0 else f g) <$> gs)
  ≤ s0 + sum_list (f <$> filter (λ g, g0 ≠ g) gs).
Proof.
  intros Hnd Hs0. induction Hnd as [|g gs Hg Hnd IH]; [simpl; lia|].
  rewrite filter_cons, fmap_cons. cbn [sum_list].
  destruct (decide (g0 = g)) as [->|Hne].
  - rewrite decide_False by tauto. rewrite sum_sizeOf_absent by done. lia.
  - rewrite decide_True by done. rewrite fmap_cons. cbn [sum_list]. lia.
Qed.

Lemma sum_list_zero (f : Z → Z) (gs : list Z) :
  (∀ g, f g = 0) → sum_list (f <$> gs) = 0.
Proof.
  intros Hf. induction gs as [|g gs IH]; [done|].
  rewrite fmap_cons. cbn [sum_list]. rewrite Hf, IH. done.
Qed.

Lemma sum_sizeOf_le (gids sizes gs : list Z) :
  NoDup gs → Forall (λ s, 0 ≤ s) sizes →
  sum_list (sizeOf gids sizes <$> gs) ≤ sum_list sizes.
Proof.
  revert sizes gs. induction gids as [|g0 gids IH]; intros sizes gs Hnd Hnn.
  - rewrite sum_list_zero by done. by apply sum_list_nonneg.
  - destruct sizes as [|s0 sizes].
    + by rewrite sum_list_zero.
    + apply Forall_cons in Hnn as [Hs0 Hnn]. cbn [sum_list].
      etrans; [apply (sum_sizeOf_head gs g0 s0 (sizeOf gids sizes)); done|].
      specialize (IH sizes (filter (λ g, g0 ≠ g) gs)
                    (NoDup_filter _ _ Hnd) Hnn). lia.
Qed.

Lemma bonded_capacity (map1 bond : Epetra_BlockMap) (ids : list Z) :
  NoDup (MyGlobalElements map1) → bondLayout bond ids →
  sum_list (len ∘ bondedOf bond ids <$> MyGlobalElements map1)
  ≤ NumMyPoints bond.
Proof.
  intros Hnd Hlayout.
  assert (len ∘ bondedOf bond ids <$> MyGlobalElements map1
          = sizeOf (MyGlobalElements bond) (ElementSizeList bond)
              <$> MyGlobalElements map1) as ->.
  { apply list_fmap_ext. intros _ g _. simpl. by apply bondedOf_length. }
  apply sum_sizeOf_le; [done|apply Hlayout].
Qed.

Lemma contactNeighbor_loop (overlap : Epetra_BlockMap) (l : list Z)
    (list0 : list Z) (idx0 : Z) :
  0 ≤ idx0 →
  outcome
    (λ '(list', idx'),
       idx' = idx0 + len l ∧ length list' = length list0 ∧
       take (Z.to_nat idx') list'
       = take (Z.to_nat idx0) list0 ++ (LID overlap <$> l))
    (λ _, False) True
    (for_loop (len l) (contactNeighborBody overlap l) (list0, idx0)).
Proof.
  intros Hidx.
  eapply outcome_weaken;
    [apply (for_loop_outcome
       (λ k '(list', idx'),
          idx' = idx0 + k ∧ length list' = length list0 ∧
          take (Z.to_nat idx') list'
          = take (Z.to_nat idx0) list0 ++ (LID overlap <$> take (Z.to_nat k) l))
       (λ _, False) True)|..]; try done.
  - simpl. by rewrite Z.add_0_r, app_nil_r.
  - intros k [list' idx'] Hk (-> & Hlen & Htake).
    unfold contactNeighborBody.
    eapply outcome_bind; [by apply at_spec|]. intros g [Hg _].
    eapply outcome_bind; [by apply store_spec|].
    intros list'' [-> Hin]. simpl.
    replace (Z.to_nat (k + 1)) with (S (Z.to_nat k)) by lia.
    rewrite (take_S_r _ _ _ Hg), fmap_app, length_insert.
    split; [lia|]. split; [done|].
    replace (Z.to_nat (idx0 + k + 1)) with (S (Z.to_nat (idx0 + k))) by lia.
    rewrite take_S_insert by (unfold len in Hin; lia).
    by rewrite Htake, <- app_assoc.
  - intros [list' idx'] (-> & Hlen & Htake).
    replace (Z.max 0 (len l)) with (len l) in * by (unfold len; lia).
    unfold len in Htake at 2. rewrite Nat2Z.id, firstn_all in Htake. done.
Qed.

Lemma contactTableBody_spec (contact : gmap Z (list Z))
    (map1 overlap : Epetra_BlockMap) (i : Z)
    (neighborhoodList neighborhoodPtr : list Z) (idx : Z) :
  0 ≤ i → 0 ≤ idx →
  (∀ g l N, contact !! g = Some l → N ∈ l → LID overlap N ≠ -1) →
  outcome
    (pointWritten overlap i (default [] (contact !! GID map1 i))
       (neighborhoodList, neighborhoodPtr, idx))
    (λ e, e = invalidContactIndex) True
    (contactTableBody contact map1 overlap i
       (neighborhoodList, neighborhoodPtr, idx)).
Proof.
  intros Hi Hidx Hres. unfold contactTableBody.
  eapply outcome_bind; [by apply store_spec|]. intros ptr' [-> Hptr].
  destruct (contact !! GID map1 i) as [l|] eqn:Hl; [|done]. simpl.
  eapply outcome_bind; [by apply store_spec|]. intros list' [-> Hin].
  eapply outcome_bind.
  { eapply outcome_weaken;
      [apply (contactNeighbor_loop overlap l _ (idx + 1)); lia|..]; done. }
  intros [list'' idx'] (-> & Hlen & Htake). simpl.
  rewrite length_insert in Hlen. split; [lia|]. split; [done|].
  split; [done|]. split; [done|]. split.
  - rewrite Htake. replace (Z.to_nat (idx + 1)) with (S (Z.to_nat idx)) by lia.
    rewrite take_S_insert by (unfold len in Hin; lia). by rewrite <- app_assoc.
  - apply Forall_forall. intros N HN. by eapply Hres.
Qed.

Lemma createRebalancedContactNeighborhoodData_spec
    (contact : gmap Z (list Z)) (map1 overlap : Epetra_BlockMap) :
  (∀ g l N, contact !! g = Some l → N ∈ l → LID overlap N ≠ -1) →
  outcome
    (tableOf map1 overlap (λ g, default [] (contact !! g)))
    (λ e, e = invalidOverlapIndex ∨ e = invalidContactIndex) True
    (createRebalancedContactNeighborhoodData contact map1 overlap).
Proof.
  intros Hres. unfold createRebalancedContactNeighborhoodData.
  eapply outcome_bind.
  { eapply outcome_weaken; [apply recordOwnedIDs_spec|..]; try done.
    intros e ->. by left. }
  intros nd (Hptr & Hlist & Hnum). simpl.
  set (gids := MyGlobalElements map1) in *.
  set (nbs := (λ g, default [] (contact !! g)) <$> gids).
  assert (NumMyElements map1 = len nbs) as HN.
  { unfold NumMyElements, nbs, len. by rewrite length_fmap. }
  rewrite HN, Hptr.
  set (list0 := replicate (Z.to_nat (contactNeighborhoodListSize contact)) 0).
  eapply outcome_bind.
  { apply (table_loop overlap nbs
      (λ e, e = invalidOverlapIndex ∨ e = invalidContactIndex) True _ list0).
    - unfold nbs. by rewrite length_replicate, length_fmap.
    - intros i l [[list ptr] idx] Hl Hi Hinv.
      assert (gids !! Z.to_nat i = Some (GID map1 i)) as Hg.
      { unfold nbs in Hl. rewrite list_lookup_fmap in Hl.
        destruct (gids !! Z.to_nat i) as [g|] eqn:Hg; [|done].
        by rewrite (GID_lookup map1 i g Hi Hg). }
      assert (l = default [] (contact !! GID map1 i)) as ->.
      { unfold nbs in Hl. rewrite list_lookup_fmap, Hg in Hl. by injection Hl. }
      destruct Hinv as (Hidx & _).
      eapply outcome_weaken;
        [apply contactTableBody_spec; [done|unfold len in *; lia|done]|..];
        try done.
      intros e ->. by right. }
  intros [[list ptr] idx] Hinv. simpl. intros i g Hg.
  apply (table_neighbors overlap nbs (length list0) (list, ptr, idx)); try done.
  unfold nbs, gids. by rewrite list_lookup_fmap, Hg.
Qed.

(** ** Lengths of imported vectors *)

Lemma mapM_result_Forall2 {A B : Type} (f : A → result B) (l : list A)
    (bs : list B) :
  mapM f l = Ok bs → Forall2 (λ a b, f a = Ok b) l bs.
Proof.
  revert bs. induction l as [|a l IH]; intros bs Hbs; simpl in Hbs.
  - injection Hbs as <-. constructor.
  - apply bind_Ok in Hbs as (b & Hb & Hbs).
    apply bind_Ok in Hbs as (bs' & Hbs' & Hbs). injection Hbs as <-.
    constructor; [done|]. by apply IH.
Qed.

Lemma concat_chunks {A : Type} (sizes : list Z) (v : list A) :
  Forall (λ s, 0 ≤ s) sizes → len v = sum_list sizes →
  concat (chunks sizes v) = v.
Proof.
  revert v. induction sizes as [|s sizes IH]; intros v Hnn Hlen; simpl in *.
  - unfold len in Hlen. destruct v; [done|]. simpl in Hlen. lia.
  - apply Forall_cons in Hnn as [Hs Hnn].
    pose proof (sum_list_nonneg _ Hnn).
    rewrite IH; [apply take_drop|done|].
    unfold len in *. rewrite length_drop. lia.
Qed.

Lemma length_chunks {A : Type} (sizes : list Z) (v : list A) :
  length (chunks sizes v) = length sizes.
Proof. revert v. induction sizes; intros v; simpl; [done|]. by rewrite IHsizes. Qed.

Lemma transfer_length {A : Type} `{Scalar A} (mode : Epetra_CombineMode)
    (source : list (Z * list A)) (targetMap : Epetra_BlockMap)
    (target v : list A) :
  length (MyGlobalElements targetMap) = length (ElementSizeList targetMap) →
  Forall (λ s, 0 ≤ s) (ElementSizeList targetMap) →
  transfer mode source targetMap target = Ok v →
  length v = length target.
Proof.
  intros Hlen Hnn Hv. unfold transfer in Hv. case_decide as Htarget; [|done].
  apply bind_Ok in Hv as (blocks & Hblocks & Hv). injection Hv as <-.
  apply mapM_result_Forall2 in Hblocks.
  rewrite <- (concat_chunks (ElementSizeList targetMap) target Hnn Htarget).
  assert ((pieces targetMap target).*2
          = chunks (ElementSizeList targetMap) target) as <-.
  { unfold pieces. apply snd_zip. rewrite length_chunks. lia. }
  induction Hblocks as [|elt b elts blocks Hb _ IH]; [done|].
  simpl. rewrite !length_app, IH. f_equal.
  unfold transfer_element in Hb. destruct (assoc elt.1 source) as [b'|].
  - case_decide as Hb'; [|done]. injection Hb as <-.
    rewrite length_zip_with. lia.
  - by injection Hb as <-.
Qed.

Lemma buildRebalancedBondMap_Ok (map1 : Epetra_BlockMap) (counts : list Z)
    (bm : Epetra_BlockMap) :
  buildRebalancedBondMap map1 counts = Ok bm →
  length (MyGlobalElements bm) = length (ElementSizeList bm)
  ∧ Forall (λ s, 0 < s) (ElementSizeList bm).
Proof.
  unfold buildRebalancedBondMap, bondMapArrays. intros Hbm.
  apply bind_Ok in Hbm as (a & Ha & Hbm).
  match type of Ha with for_loop ?n ?body ?s0 = _ =>
    assert (outcome
      (λ a, 0 ≤ numMyElements a
            ∧ Forall (λ s, 0 < s)
                (take (Z.to_nat (numMyElements a)) (elementSizeList a)))
      (λ _, True) True (for_loop n body s0)) as Hloop
  end.
  { eapply outcome_weaken;
      [apply (for_loop_outcome
         (λ i a, numMyElements a + numPointsWithZeroNeighbors a = i
                 ∧ 0 ≤ numMyElements a
                 ∧ Forall (λ s, 0 < s)
                     (take (Z.to_nat (numMyElements a)) (elementSizeList a)))
         (λ _, True) True)|..]; try done.
    - intros i a' Hi (Hsum & Hpos & Hall). unfold bondMapBody.
      eapply outcome_bind; [by apply at_spec|]. intros c _.
      case_decide as Hc; simpl; [|repeat split; try done; lia].
      eapply outcome_bind; [by apply at_spec|]. intros g _.
      eapply outcome_bind; [by apply store_spec|]. intros gs' _.
      eapply outcome_bind; [by apply store_spec|]. intros ss' [-> Hin].
      simpl. split; [lia|]. split; [lia|].
      replace (i - numPointsWithZeroNeighbors a') with (numMyElements a')
        in * by lia.
      replace (Z.to_nat (numMyElements a' + 1))
        with (S (Z.to_nat (numMyElements a'))) by lia.
      rewrite take_S_insert by (unfold len in Hin; lia).
      apply Forall_app. split; [done|]. apply Forall_singleton. lia.
    - intros a' (_ & ? & ?). done. }
  rewrite Ha in Hloop. simpl in Hloop. destruct Hloop as [Hpos Hall].
  unfold Epetra_BlockMap_new_sizes in Hbm. case_decide as Hrange; [|done].
  injection Hbm as <-. simpl. unfold len in Hrange.
  split; [|done]. rewrite !length_take. lia.
Qed.

Section TableProperties.
Context `{Collaborators}.

Lemma rebalanceTopology_bondLayout (peers : list ContactManager)
    (st : ContactManager) (r : Rebalanced) :
  rebalanceTopology peers st = Ok r →
  bondLayout (rebalancedBondMap r) (rebalancedNeighborGlobalIDs r).
Proof.
  intros Hr. apply rebalanceTopology_Ok in Hr
    as (decomp & offBond & offContact & _ & _ & _ & Hbond & Hids & _).
  unfold createRebalancedBondMap in Hbond.
  apply bind_Ok in Hbond as (counts & _ & Hbond).
  apply buildRebalancedBondMap_Ok in Hbond as [Hlen Hpos].
  assert (Forall (λ s, 0 ≤ s) (ElementSizeList (rebalancedBondMap r))) as Hnn.
  { eapply Forall_impl; [exact Hpos|]. simpl. lia. }
  split; [done|]. split; [done|].
  unfold createRebalancedNeighborGlobalIDList in Hids.
  apply bind_Ok in Hids as (all & _ & Hids). unfold Import in Hids. simpl in Hids.
  apply transfer_length in Hids; [|done..].
  unfold Epetra_Vector_new in Hids. rewrite length_replicate in Hids.
  pose proof (sum_list_nonneg _ Hnn). unfold NumMyPoints, len in *. lia.
Qed.

Lemma rebalanceTopology_contact_resolved (peers : list ContactManager)
    (st : ContactManager) (r : Rebalanced) :
  rebalanceTopology peers st = Ok r →
  ∀ g l N, contactNeighborGlobalIDs r !! g = Some l → N ∈ l →
           LID (rebalancedOneDimensionalOverlapMap r) N ≠ -1.
Proof.
  intros Hr g l N Hl HN. apply rebalanceTopology_Ok in Hr
    as (decomp & offBond & offContact & _ & _ & _ & _ & _ & _
        & Hsearch & Hoff & Ho1 & _).
  pose proof (contactSearch_inv st (rebalancedOneDimensionalMap r)
    (rebalancedBondMap r) (rebalancedNeighborGlobalIDs r) decomp) as Hinv.
  rewrite Hsearch in Hinv. simpl in Hinv. destruct Hinv as [Hinv _].
  destruct (Hinv g l N Hl HN) as [_ Hown].
  rewrite Ho1. apply LID_elem_of. simpl. apply elem_of_app.
  destruct Hown as [Hown|Hghost].
  - left. by apply LID_elem_of.
  - right. apply elem_of_set_iter. rewrite Hoff. apply elem_of_addContactIDs.
    by left.
Qed.

(** The two tables of a rebuilt topology hold, for every owned point, the
    overlap slots of its bonded and of its contact neighbours. *)
Lemma rebalanceTopology_tables (peers : list ContactManager)
    (st : ContactManager) (r : Rebalanced) :
  rebalanceTopology peers st = Ok r →
  let overlap := rebalancedOneDimensionalOverlapMap r in
  ∀ (iLID : nat) (g : Z),
    MyGlobalElements (rebalancedOneDimensionalMap r) !! iLID = Some g →
    ∃ bonded,
      let contact := default [] (contactNeighborGlobalIDs r !! g) in
      bondedNeighbors (rebalancedBondMap r) (rebalancedNeighborGlobalIDs r) g
      = Ok bonded ∧
      tableNeighbors (rebalancedNeighborhoodData r) iLID
      = Some (LID overlap <$> bonded) ∧
      Forall2 (resolves overlap) (LID overlap <$> bonded) bonded ∧
      tableNeighbors (rebalancedContactNeighborhoodData r) iLID
      = Some (LID overlap <$> contact) ∧
      Forall2 (resolves overlap) (LID overlap <$> contact) contact.
Proof.
  intros Hr overlap.
  pose proof (rebalanceTopology_bondLayout _ _ _ Hr) as Hlayout.
  pose proof (rebalanceTopology_contact_resolved _ _ _ Hr) as Hres.
  apply rebalanceTopology_Ok in Hr
    as (decomp & offBond & offContact & _ & _ & _ & _ & _ & _ & _ & _
        & _ & _ & Hnd & Hcnd).
  pose proof (createRebalancedNeighborhoodData_spec
    (rebalancedOneDimensionalMap r) overlap (rebalancedBondMap r)
    (rebalancedNeighborGlobalIDs r) True Hlayout (λ _, I)) as Hbond.
  pose proof (createRebalancedContactNeighborhoodData_spec
    (contactNeighborGlobalIDs r) (rebalancedOneDimensionalMap r) overlap
    Hres) as Hcontact.
  fold overlap in Hnd, Hcnd. rewrite Hnd in Hbond. rewrite Hcnd in Hcontact.
  simpl in Hbond, Hcontact. intros iLID g Hg.
  destruct (Hbond iLID g Hg) as [Hb1 Hb2].
  destruct (Hcontact iLID g Hg) as [Hc1 Hc2].
  destruct (bondedNeighbors_total (rebalancedBondMap r)
    (rebalancedNeighborGlobalIDs r) g Hlayout) as [bonded Hbonded].
  exists bonded. unfold bondedOf in Hb1, Hb2. rewrite Hbonded in Hb1, Hb2.
  done.
Qed.

End TableProperties.

(** A bonded global ID that the overlap map does not hold makes the
    construction of the bond table throw. *)
Lemma bond_table_unresolved_throws (map1 overlap bond : Epetra_BlockMap)
    (ids : list Z) (g N : Z) :
  bondLayout bond ids → NoDup (MyGlobalElements map1) →
  g ∈ MyGlobalElements map1 → N ∈ bondedOf bond ids g → LID overlap N = -1 →
  createRebalancedNeighborhoodData map1 overlap bond ids
  = Throw invalidOverlapIndex.
Proof.
  intros Hlayout Hnd Hg HN Hlid.
  pose proof (createRebalancedNeighborhoodData_spec map1 overlap bond ids
    False Hlayout) as Hspec.
  destruct (createRebalancedNeighborhoodData map1 overlap bond ids)
    as [nd|e|]; simpl in Hspec.
  - exfalso. apply list_elem_of_lookup in Hg as [i Hi].
    assert (tableOf map1 overlap (bondedOf bond ids) nd) as Htable.
    { apply Hspec. intros Hcap. apply Hcap. by apply bonded_capacity. }
    destruct (Htable i g Hi) as [_ Hall].
    rewrite Forall2_fmap_l in Hall.
    apply list_elem_of_lookup in HN as [k Hk].
    destruct (Forall2_lookup_lr _ _ _ _ _ _ Hall Hk Hk) as [Hrange _].
    lia.
  - rewrite Hspec; [done|]. intros Hcap. apply Hcap. by apply bonded_capacity.
  - exfalso. apply Hspec. intros Hcap. apply Hcap. by apply bonded_capacity.
Qed.


Lemma chunks_concat {A : Type} (sizes : list Z) (blocks : list (list A)) :
  Forall2 (λ s b, Z.to_nat s = length b) sizes blocks →
  chunks sizes (concat blocks) = blocks.
Proof.
  induction 1 as [|s b sizes blocks Hs _ IH]; [done|]. simpl.
  rewrite Hs, take_app_length, drop_app_length. by rewrite IH.
Qed.

Lemma chunks_lengths {A : Type} (sizes : list Z) (v : list A) :
  Forall (λ s, 0 ≤ s) sizes → sum_list sizes ≤ len v →
  Forall2 (λ s c, Z.to_nat s = length c) sizes (chunks sizes v).
Proof.
  revert v. induction sizes as [|s sizes IH]; intros v Hnn Hlen; simpl.
  - constructor.
  - apply Forall_cons in Hnn as [Hs Hnn]. simpl in Hlen.
    pose proof (sum_list_nonneg _ Hnn). unfold len in *.
    constructor.
    + rewrite length_take. lia.
    + apply IH; [done|]. unfold len. rewrite length_drop. lia.
Qed.

Lemma zip_with_Insert {A : Type} `{Scalar A} (old new : list A) :
  length new = length old → zip_with (combine Insert) old new = new.
Proof.
  revert new. induction old as [|x old IH]; intros [|y new] Hlen;
    simplify_eq/=; [done|]. by rewrite IH.
Qed.

Lemma transfer_Insert_element {A : Type} `{Scalar A}
    (source : list (Z * list A)) (m : Epetra_BlockMap) (target v : list A)
    (j : nat) (g : Z) (old : list A) :
  mapLayout m →
  transfer Insert source m target = Ok v →
  MyGlobalElements m !! j = Some g →
  elementValues m target j = Some old →
  elementValues m v j = Some (default old (assoc g source)).
Proof.
  intros [Hlen Hnn] Hv Hg Hold. unfold transfer in Hv.
  case_decide as Htarget; [|done].
  apply bind_Ok in Hv as (blocks & Hblocks & Hv). injection Hv as <-.
  apply mapM_result_Forall2 in Hblocks.
  assert (Forall2 (λ s c, Z.to_nat s = length c) (ElementSizeList m)
            (chunks (ElementSizeList m) target)) as Hsizes.
  { apply chunks_lengths; [done|]. unfold NumMyPoints in Htarget. lia. }
  assert (Forall2 (λ c b, length c = length b)
            (chunks (ElementSizeList m) target) blocks) as Hsame.
  { assert ((pieces m target).*2 = chunks (ElementSizeList m) target) as <-.
    { unfold pieces. apply snd_zip. rewrite length_chunks. lia. }
    apply Forall2_fmap_l. eapply Forall2_impl; [exact Hblocks|].
    intros elt b Hb. simpl. unfold transfer_element in Hb.
    destruct (assoc elt.1 source) as [b'|].
    - case_decide as Hb'; [|done]. injection Hb as <-.
      rewrite length_zip_with. lia.
    - by injection Hb as <-. }
  unfold elementValues in *. rewrite chunks_concat.
  2: { eapply Forall2_trans; [|exact Hsizes|exact Hsame].
       simpl. intros. congruence. }
  assert (pieces m target !! j = Some (g, old)) as Hpiece.
  { unfold pieces. rewrite lookup_zip_with, Hg. simpl. by rewrite Hold. }
  destruct (Forall2_lookup_l _ _ _ _ _ Hblocks Hpiece) as (b & Hb & Hbj).
  rewrite Hb. f_equal. unfold transfer_element in Hbj. simpl in Hbj.
  destruct (assoc g source) as [b'|]; simpl.
  - case_decide as Hb'; [|done]. injection Hbj as <-.
    by apply zip_with_Insert.
  - by injection Hbj as <-.
Qed.

Lemma elementValues_zero {A : Type} `{Scalar A} (m : Epetra_BlockMap)
    (j : nat) (size : Z) :
  mapLayout m → ElementSizeList m !! j = Some size →
  elementValues (A := A) m (Epetra_Vector_new m) j
  = Some (replicate (Z.to_nat size) zero).
Proof.
  intros [_ Hnn]. unfold elementValues, Epetra_Vector_new, NumMyPoints.
  generalize (ElementSizeList m) j Hnn. clear.
  induction l as [|s l IH]; intros j Hnn Hj; [done|].
  apply Forall_cons in Hnn as [Hs Hnn]. pose proof (sum_list_nonneg _ Hnn).
  simpl. replace (Z.to_nat (s + sum_list l))
    with (Z.to_nat s + Z.to_nat (sum_list l))%nat by lia.
  rewrite replicate_add, take_app_length', drop_app_length'
    by (by rewrite length_replicate).
  destruct j as [|j]; simpl in *; [by injection Hj as ->|]. by apply IH.
Qed.

Lemma Epetra_BlockMap_new_layout (n : Z) (gids : list Z) (size : Z)
    (m : Epetra_BlockMap) :
  0 ≤ size → Epetra_BlockMap_new n gids size = Ok m → mapLayout m.
Proof.
  intros Hsize Hm. unfold Epetra_BlockMap_new in Hm.
  case_decide as Hn; [|done]. injection Hm as <-. split; simpl.
  - unfold len in Hn. rewrite length_take, length_replicate. lia.
  - by apply Forall_replicate.
Qed.

Lemma transfer_Insert_migrated {A : Type} `{Scalar A}
    (source : list (Z * list A)) (m : Epetra_BlockMap) (v : list A) :
  mapLayout m →
  transfer Insert source m (Epetra_Vector_new m) = Ok v →
  migrated source m v.
Proof.
  intros Hm Hv j g size Hg Hsize.
  eapply transfer_Insert_element; [done..|]. by apply elementValues_zero.
Qed.

Section MigrationProperties.
Context `{Collaborators}.

(** ** Migration of the mothership vectors *)

Lemma rebalanceMothership_Ok (peers : list ContactManager)
    (st st' : ContactManager) (r : Rebalanced) :
  rebalanceMothership peers st r = Ok st' →
  let all := st :: peers in
  let imported1 column :=
    transfer Insert
      (gather (oneDimensionalContactMap <$> all) (column <$> all))
      (rebalancedOneDimensionalMap r)
      (Epetra_Vector_new (rebalancedOneDimensionalMap r)) in
  let imported3 column :=
    transfer Insert
      (gather (threeDimensionalContactMap <$> all) (column <$> all))
      (rebalancedThreeDimensionalMap r)
      (Epetra_Vector_new (rebalancedThreeDimensionalMap r)) in
  imported1 contactBlockIDs = Ok (contactBlockIDs st') ∧
  imported1 contactVolume = Ok (contactVolume st') ∧
  imported3 contactY = Ok (contactY st') ∧
  imported3 contactV = Ok (contactV st') ∧
  imported3 contactContactForce = Ok (contactContactForce st') ∧
  imported3 contactScratch = Ok (contactScratch st') ∧
  contactBlocks st' = contactBlocks st.
Proof.
  intros Hst'. unfold rebalanceMothership, Import in Hst'. simpl in Hst'.
  inv_bind Hst'. injection Hst' as <-. simpl. done.
Qed.

Lemma rebalanceBlocks_mothership (st st' : ContactManager) (r : Rebalanced) :
  rebalanceBlocks st r = Ok st' →
  contactBlockIDs st' = contactBlockIDs st ∧
  contactVolume st' = contactVolume st ∧
  contactY st' = contactY st ∧
  contactV st' = contactV st ∧
  contactContactForce st' = contactContactForce st ∧
  contactScratch st' = contactScratch st.
Proof.
  intros Hst'. unfold rebalanceBlocks in Hst'. inv_bind Hst'.
  by injection Hst' as <-.
Qed.

Lemma rebalance_full_cycle (peers : list ContactManager) (step : Z)
    (st st' : ContactManager) :
  contactRebalanceFrequency st ≠ 0 →
  (contactRebalanceFrequency st | step) →
  rebalance peers step st = Ok st' →
  ∃ r,
    rebalanceTopology peers st = Ok r ∧
    oneDimensionalContactMap st' = rebalancedOneDimensionalMap r ∧
    threeDimensionalContactMap st' = rebalancedThreeDimensionalMap r ∧
    oneDimensionalOverlapContactMap st'
    = rebalancedOneDimensionalOverlapMap r ∧
    bondContactMap st' = rebalancedBondMap r ∧
    neighborhoodData st' = rebalancedNeighborhoodData r ∧
    contactNeighborhoodData st' = rebalancedContactNeighborhoodData r.
Proof.
  intros Hfreq Hdiv Hst'. unfold rebalance in Hst'.
  rewrite decide_False in Hst' by done.
  case_decide; [done|].
  rewrite decide_False in Hst'.
  2: { intros Hrem. apply Hrem. by apply Z.rem_divide. }
  inv_bind Hst'. injection Hst' as <-.
  match goal with
  | Hm : rebalanceMothership _ _ _ = _, Hb : rebalanceBlocks _ _ = _ |- _ =>
      unfold rebalanceMothership in Hm; inv_bind Hm; injection Hm as <-;
      unfold rebalanceBlocks in Hb; inv_bind Hb; injection Hb as <-
  end.
  by eexists.
Qed.

(** C6: after a full cycle of [rebalance], the overlap map lists the owned
    global IDs and then an off-processor set; every ID of that set is one the
    rebalanced owned map reports as not owned, so no global ID is both an
    owned and a ghost entry of the overlap map. *)
Theorem owned_and_ghost_entries_disjoint (peers : list ContactManager)
    (step : Z) (st st' : ContactManager) :
  contactRebalanceFrequency st ≠ 0 →
  (contactRebalanceFrequency st | step) →
  rebalance peers step st = Ok st' →
  let owned := MyGlobalElements (oneDimensionalContactMap st') in
  ∃ offProcessorIDs_ : gset Z,
    let ghosts := set_iter offProcessorIDs_ in
    MyGlobalElements (oneDimensionalOverlapContactMap st') = owned ++ ghosts ∧
    (∀ g, g ∈ offProcessorIDs_ →
          MyGID (oneDimensionalContactMap st') g = false) ∧
    (∀ g, g ∈ owned → g ∉ ghosts) ∧
    (∀ i j g, (owned ++ ghosts) !! i = Some g →
              (owned ++ ghosts) !! j = Some g →
              (i < length owned)%nat → (j < length owned)%nat).
Proof.
  intros Hfreq Hdiv Hst' owned.
  destruct (rebalance_full_cycle _ _ _ _ Hfreq Hdiv Hst')
    as (r & Hr & Hmap1 & _ & Hoverlap & _).
  destruct (rebalanceTopology_owned_ghost _ _ _ Hr)
    as (Ho1 & _ & Hghost & Hdisjoint & Hslots).
  exists (offProcessorIDs r). unfold owned. rewrite Hmap1, Hoverlap. done.
Qed.

(** C2: after a full cycle of [rebalance], the bond table and the contact
    table hold, for every owned point, the overlap-map slots of its bonded
    and of its contact neighbours, and every such slot is a slot of the
    final overlap map (the owned IDs and then the off-processor set) that
    holds the neighbour's global ID; building the bond table with a bonded
    ID that the overlap map does not hold throws the range error, so that no
    table is returned. *)
Theorem tables_reference_overlap_slots (peers : list ContactManager)
    (step : Z) (st st' : ContactManager) :
  contactRebalanceFrequency st ≠ 0 →
  (contactRebalanceFrequency st | step) →
  rebalance peers step st = Ok st' →
  let map1 := oneDimensionalContactMap st' in
  let overlap := oneDimensionalOverlapContactMap st' in
  ∃ r,
    rebalanceTopology peers st = Ok r ∧
    MyGlobalElements overlap
    = MyGlobalElements map1 ++ set_iter (offProcessorIDs r) ∧
    (∀ (iLID : nat) (g : Z),
       MyGlobalElements map1 !! iLID = Some g →
       ∃ bonded,
         let contact := default [] (contactNeighborGlobalIDs r !! g) in
         bondedNeighbors (bondContactMap st') (rebalancedNeighborGlobalIDs r) g
         = Ok bonded ∧
         tableNeighbors (neighborhoodData st') iLID
         = Some (LID overlap <$> bonded) ∧
         Forall2 (resolves overlap) (LID overlap <$> bonded) bonded ∧
         tableNeighbors (contactNeighborhoodData st') iLID
         = Some (LID overlap <$> contact) ∧
         Forall2 (resolves overlap) (LID overlap <$> contact) contact) ∧
    (∀ (owned overlap' bond : Epetra_BlockMap) (ids : list Z) (g N : Z),
       bondLayout bond ids → NoDup (MyGlobalElements owned) →
       g ∈ MyGlobalElements owned → N ∈ bondedOf bond ids g →
       LID overlap' N = -1 →
       createRebalancedNeighborhoodData owned overlap' bond ids
       = Throw invalidOverlapIndex).
Proof.
  intros Hfreq Hdiv Hst' map1 overlap.
  destruct (rebalance_full_cycle _ _ _ _ Hfreq Hdiv Hst')
    as (r & Hr & Hmap1 & _ & Hoverlap & Hbond & Hnd & Hcnd).
  exists r. split; [done|].
  destruct (rebalanceTopology_owned_ghost _ _ _ Hr) as (Ho1 & _).
  pose proof (rebalanceTopology_tables _ _ _ Hr) as Htables.
  unfold map1, overlap. rewrite Hmap1, Hoverlap, Hbond, Hnd, Hcnd.
  split; [done|]. split; [done|].
  intros owned overlap' bond ids g N. apply bond_table_unresolved_throws.
Qed.

(** C7, as the code has it: a full cycle of [rebalance] imports all six
    columns of the mothership multi-vectors, the contact force and the
    scratch buffer like the positions, velocities, volumes and block IDs,
    from the old owned decomposition into zeroed vectors on the new one, so
    that every new owned point holds the values its global ID had before;
    the two transient buffers are zeroed by [loadAllMothershipData]. *)
Theorem rebalance_migrates_all_columns (peers : list ContactManager)
    (step : Z) (st st' : ContactManager) :
  contactRebalanceFrequency st ≠ 0 →
  (contactRebalanceFrequency st | step) →
  rebalance peers step st = Ok st' →
  let all := st :: peers in
  let map1 := oneDimensionalContactMap st' in
  let map3 := threeDimensionalContactMap st' in
  let old1 column :=
    gather (oneDimensionalContactMap <$> all) (column <$> all) in
  let old3 column :=
    gather (threeDimensionalContactMap <$> all) (column <$> all) in
  let imported1 column :=
    transfer Insert (old1 column) map1 (Epetra_Vector_new map1) in
  let imported3 column :=
    transfer Insert (old3 column) map3 (Epetra_Vector_new map3) in
  (imported1 contactBlockIDs = Ok (contactBlockIDs st') ∧
   imported1 contactVolume = Ok (contactVolume st') ∧
   imported3 contactY = Ok (contactY st') ∧
   imported3 contactV = Ok (contactV st') ∧
   imported3 contactContactForce = Ok (contactContactForce st') ∧
   imported3 contactScratch = Ok (contactScratch st')) ∧
  (migrated (old1 contactBlockIDs) map1 (contactBlockIDs st') ∧
   migrated (old1 contactVolume) map1 (contactVolume st') ∧
   migrated (old3 contactY) map3 (contactY st') ∧
   migrated (old3 contactV) map3 (contactV st') ∧
   migrated (old3 contactContactForce) map3 (contactContactForce st') ∧
   migrated (old3 contactScratch) map3 (contactScratch st')) ∧
  (∀ blockIds volume y v loaded,
     loadAllMothershipData blockIds volume y v st' = Ok loaded →
     contactContactForce loaded
     = replicate (length (contactContactForce st')) 0%float ∧
     contactScratch loaded = replicate (length (contactScratch st')) 0%float).
Proof.
  intros Hfreq Hdiv Hst' all map1 map3 old1 old3 imported1 imported3.
  unfold rebalance in Hst'.
  rewrite decide_False in Hst' by done.
  case_decide; [done|].
  rewrite decide_False in Hst'.
  2: { intros Hrem. apply Hrem. by apply Z.rem_divide. }
  inv_bind Hst'. injection Hst' as <-.
  match goal with
  | Hr : rebalanceTopology _ _ = Ok ?r |- _ =>
      apply rebalanceTopology_Ok in Hr
        as (decomp & ? & ? & _ & Hmap1 & Hmap3 & _);
      apply Epetra_BlockMap_new_layout in Hmap1; [|done];
      apply Epetra_BlockMap_new_layout in Hmap3; [|done]
  end.
  match goal with
  | Hm : rebalanceMothership _ _ _ = _, Hb : rebalanceBlocks _ _ = _ |- _ =>
      apply rebalanceMothership_Ok in Hm
        as (H1 & H2 & H3 & H4 & H5 & H6 & _);
      apply rebalanceBlocks_mothership in Hb
        as (E1 & E2 & E3 & E4 & E5 & E6)
  end.
  subst map1 map3 old1 old3 imported1 imported3 all. simpl in *.
  rewrite E1, E2, E3, E4, E5, E6. split; [done|]. split.
  - repeat split; by apply transfer_Insert_migrated.
  - intros blockIds volume y v loaded Hloaded.
    unfold loadAllMothershipData in Hloaded. inv_bind Hloaded.
    injection Hloaded as <-. simpl. by rewrite E5, E6.
Qed.

End MigrationProperties.

Section ExportProperties.
Context `{Collaborators}.

(** ** exportData *)

Lemma sum_loop (fieldId : Z) (blocks : list ContactBlock) :
  ∀ force scratch force' scratch',
    for_each blocks
      (λ b '(contactForce, scratch),
         let scratch := PutScalar 0%float scratch in
         scratch ← BlockData_exportData (blockData b) scratch fieldId
                     STEP_NP1 Add;
         contactForce ← Update_1_1 contactForce scratch;
         Ok (contactForce, scratch))
      (force, scratch) = Ok (force', scratch') →
    ∃ contributions,
      Forall2 (contributes fieldId) blocks contributions ∧
      force' = foldl (zip_with PrimFloat.add) force contributions.
Proof.
  induction blocks as [|b blocks IH]; intros force scratch force' scratch' Hloop;
    simpl in Hloop.
  - injection Hloop as <- <-. by exists [].
  - apply bind_Ok in Hloop as ([force1 scratch1] & Hbody & Hloop).
    apply bind_Ok in Hbody as (c & Hc & Hbody).
    apply bind_Ok in Hbody as (force1' & Hupdate & Hbody).
    injection Hbody as <- <-.
    unfold Update_1_1 in Hupdate. case_decide; [|done].
    injection Hupdate as <-.
    destruct (IH _ _ _ _ Hloop) as (contributions & Hall & ->).
    exists (c :: contributions). split; [|done].
    constructor; [|done]. by exists (length scratch).
Qed.

(** C8, as the code has it: [exportData] clears the contact-force
    accumulator, adds to it what every block exports into a cleared scratch
    buffer, and copies the sum by global ID into the caller's buffer, where
    it replaces the values held before. *)
Theorem exportData_sums_and_overwrites (peers : list ContactManager)
    (contactForce contactForce' : list float) (st st' : ContactManager) :
  exportData peers contactForce st = Ok (st', contactForce') →
  let callerMap :=
    SourceMap (threeDimensionalMothershipToContactMothershipImporter st) in
  (∃ contributions,
     Forall2 (contributes (contactForceDensityFieldId st)) (contactBlocks st)
       contributions ∧
     contactContactForce st'
     = foldl (zip_with PrimFloat.add)
         (replicate (length (contactContactForce st)) 0%float) contributions) ∧
  (∃ peers',
     mapM sumBlockContactForces peers = Ok peers' ∧
     let all := st' :: peers' in
     let summed :=
       gather (threeDimensionalContactMap <$> all)
         (contactContactForce <$> all) in
     transfer Insert summed callerMap contactForce = Ok contactForce' ∧
     (mapLayout callerMap →
      ∀ (j : nat) (g : Z) (old : list float),
        MyGlobalElements callerMap !! j = Some g →
        elementValues callerMap contactForce j = Some old →
        elementValues callerMap contactForce' j
        = Some (default old (assoc g summed)))).
Proof.
  intros Hexport callerMap. unfold exportData in Hexport.
  apply bind_Ok in Hexport as (st1 & Hsum & Hexport).
  apply bind_Ok in Hexport as (peers' & Hpeers & Hexport).
  apply bind_Ok in Hexport as (cf & Hcf & Hexport).
  injection Hexport as <- <-.
  unfold sumBlockContactForces in Hsum.
  apply bind_Ok in Hsum as ([force scratch] & Hloop & Hsum).
  injection Hsum as <-. split.
  - apply sum_loop in Hloop as (contributions & Hall & ->).
    exists contributions. split; [done|]. simpl. unfold PutScalar. done.
  - exists peers'. split; [done|]. simpl. unfold Export in Hcf. simpl in Hcf.
    split; [done|]. intros Hlayout j g old Hg Hold.
    by eapply transfer_Insert_element.
Qed.

End ExportProperties.

Section Properties.
Context `{Collaborators}.

(** ** The cadence of rebalance *)

(** C5: on a step that the search frequency does not divide, [rebalance]
    returns at once and the contact manager is unchanged. *)
Theorem rebalance_off_cadence (peers : list ContactManager) (step : Z)
    (st : ContactManager) :
  contactRebalanceFrequency st ≠ 0 →
  ¬ (contactRebalanceFrequency st | step) →
  rebalance peers step st = Ok st.
Proof.
  intros Hfreq Hdiv. unfold rebalance.
  rewrite decide_False by done.
  rewrite decide_False.
  2: { intros [_ Hminus]. apply Hdiv. rewrite Hminus.
       exists (- step). lia. }
  rewrite decide_True; [done|].
  intros Hrem. apply Hdiv. by apply Z.rem_divide.
Qed.

(** ** initialize *)

Lemma mapM_result_app {A B : Type} (f : A → result B) (l1 l2 : list A) :
  mapM f (l1 ++ l2) = bs1 ← mapM f l1; bs2 ← mapM f l2; Ok (bs1 ++ bs2).
Proof.
  induction l1 as [|a l1 IH]; simpl.
  - by destruct (mapM f l2).
  - destruct (f a); simpl; [|done..]. rewrite IH.
    destruct (mapM f l1); simpl; [|done..]. by destruct (mapM f l2).
Qed.

Lemma mapM_result_Ok {A B : Type} (f : A → result B) (l : list A) :
  Forall (λ a, ∃ b, f a = Ok b) l → ∃ bs, mapM f l = Ok bs.
Proof.
  induction 1 as [|a l [b Hb] _ [bs Hbs]]; simpl; [by eexists|].
  rewrite Hb. simpl. rewrite Hbs. simpl. by eexists.
Qed.

Lemma getEntry_set_eq name e pl : getEntry name (set name e pl) = Some e.
Proof.
  induction pl as [|[k e0] pl IH]; simpl.
  - by rewrite decide_True.
  - case_decide; simpl; [by rewrite decide_True|]. by rewrite decide_False.
Qed.

Lemma getEntry_set_ne name name' e pl :
  name ≠ name' → getEntry name' (set name e pl) = getEntry name' pl.
Proof.
  intros Hne. induction pl as [|[k e0] pl IH]; simpl.
  - by rewrite decide_False.
  - case_decide; simpl; [subst; by rewrite !decide_False|].
    case_decide; [done|]. apply IH.
Qed.

Lemma isParameter_true pl name :
  isParameter pl name = true ↔ ∃ e, getEntry name pl = Some e.
Proof.
  unfold isParameter. destruct (getEntry name pl); split; try done.
  - by eexists.
  - by intros [? ?].
Qed.

(** The list [contactModelParameters] makes of the first configured model. *)
Lemma contactModelParameters_first (params : ParameterList) (first : string)
    (contactParams rest : ParameterList) (horizon : float) :
  getEntry "Models" params
    = Some (PSublist ((first, PSublist contactParams) :: rest)) →
  contactModelParameters params horizon
  = if isParameter contactParams "Horizon"
    then Throw (LogicError horizonInvalidMessage)
    else
      let withHorizon := set "Horizon" (PDouble horizon) contactParams in
      Ok (if isParameter withHorizon "Friction Coefficient" then withHorizon
          else set "Friction Coefficient" (PDouble 0%float) withHorizon).
Proof.
  intros Hmodels. unfold contactModelParameters, sublist. rewrite Hmodels.
  simpl. rewrite decide_True by done. simpl.
  by destruct (isParameter contactParams "Horizon").
Qed.

Lemma contactModelParameters_entries (params : ParameterList) (first : string)
    (contactParams rest : ParameterList) (horizon : float)
    (created : ParameterList) :
  getEntry "Models" params
    = Some (PSublist ((first, PSublist contactParams) :: rest)) →
  contactModelParameters params horizon = Ok created →
  isParameter contactParams "Horizon" = false ∧
  getEntry "Friction Coefficient" created
  = Some (default (PDouble 0%float)
            (getEntry "Friction Coefficient" contactParams)) ∧
  getEntry "Horizon" created = Some (PDouble horizon) ∧
  ∀ name, name ≠ "Horizon"%string → name ≠ "Friction Coefficient"%string →
          getEntry name created = getEntry name contactParams.
Proof.
  intros Hmodels Hcreated.
  rewrite (contactModelParameters_first _ _ _ _ _ Hmodels) in Hcreated.
  destruct (isParameter contactParams "Horizon"); [done|].
  split; [done|]. cbv zeta in Hcreated. injection Hcreated as <-.
  unfold isParameter. rewrite getEntry_set_ne by done.
  destruct (getEntry "Friction Coefficient" contactParams) as [e|] eqn:He.
  - simpl. rewrite getEntry_set_ne, He by done. rewrite getEntry_set_eq.
    split; [done|]. split; [done|].
    intros name Hname _. by rewrite getEntry_set_ne.
  - simpl. rewrite getEntry_set_eq.
    rewrite getEntry_set_ne, getEntry_set_eq by done.
    split; [done|]. split; [done|].
    intros name Hname Hname'. by rewrite !getEntry_set_ne.
Qed.

(** The list handed to the factory holds the horizon it was made for. *)
Lemma contactModelParameters_Horizon (params : ParameterList) (horizon : float)
    (created : ParameterList) :
  contactModelParameters params horizon = Ok created →
  getEntry "Horizon" created = Some (PDouble horizon).
Proof.
  intros Hcreated. unfold contactModelParameters in Hcreated.
  apply bind_Ok in Hcreated as (models & _ & Hcreated).
  apply bind_Ok in Hcreated as (first & _ & Hcreated).
  apply bind_Ok in Hcreated as (contactParams & _ & Hcreated).
  destruct (isParameter contactParams "Horizon"); [done|].
  injection Hcreated as <-. case_match.
  - apply getEntry_set_eq.
  - rewrite getEntry_set_ne by done. apply getEntry_set_eq.
Qed.

End Properties.

(** * The constructor *)

(** ** Block names and block IDs *)

Lemma find_last_of_from_absent (c : Ascii.ascii) (s : string) (i last : Z) :
  occurs c s = false → find_last_of_from c s i last = last.
Proof.
  revert i last. induction s as [|x s IH]; intros i last Hs; [done|].
  simpl in *. apply orb_false_iff in Hs as [Hx Hs].
  apply bool_decide_eq_false in Hx. rewrite decide_False by done. by apply IH.
Qed.

Lemma find_last_of_from_present (c : Ascii.ascii) (s : string) (i last : Z) :
  occurs c s = true → i ≤ find_last_of_from c s i last < i + Z.of_nat (String.length s).
Proof.
  revert i last. induction s as [|x s IH]; intros i last Hs; [done|].
  simpl in Hs. cbn [find_last_of_from String.length].
  destruct (occurs c s) eqn:Hc.
  - specialize (IH (i + 1) (if decide (x = c) then i else last) eq_refl). lia.
  - rewrite find_last_of_from_absent by done.
    rewrite orb_false_r in Hs. apply bool_decide_eq_true in Hs.
    rewrite decide_True by done. lia.
Qed.

Lemma append_cons (x : Ascii.ascii) (s1 s2 : string) :
  String x s1 +:+ s2 = String x (s1 +:+ s2).
Proof. done. Qed.

Lemma find_last_of_from_app (c : Ascii.ascii) (s1 s2 : string) (i last : Z) :
  occurs c s2 = false →
  find_last_of_from c (s1 +:+ String c s2) i last = i + Z.of_nat (String.length s1).
Proof.
  intros Hs2. revert i last. induction s1 as [|x s1 IH]; intros i last.
  - simpl. rewrite decide_True by done.
    rewrite find_last_of_from_absent by done. lia.
  - rewrite append_cons. cbn [find_last_of_from String.length]. rewrite IH. lia.
Qed.

Lemma substring_app_tail (s1 s2 : string) (n : nat) :
  (String.length s2 ≤ n)%nat →
  String.substring (String.length s1) n (s1 +:+ s2) = s2.
Proof.
  intros Hn. induction s1 as [|x s1 IH]; simpl.
  - clear -Hn. revert n Hn. induction s2 as [|y s2 IH]; intros [|n] Hn;
      simpl in *; try done; try lia. f_equal. apply IH. lia.
  - done.
Qed.

Lemma all_digits_app (s1 s2 : string) :
  all_digits s1 = true → all_digits s2 = true → all_digits (s1 +:+ s2) = true.
Proof.
  intros H1 H2. induction s1 as [|x s1 IH]; [done|].
  simpl in *. destruct (Ascii.is_nat x); [by apply IH|done].
Qed.

Lemma digits_value_app (s1 s2 : string) (acc : Z) :
  all_digits s1 = true →
  digits_value (s1 +:+ s2) acc = digits_value s2 (digits_value s1 acc).
Proof.
  revert acc. induction s1 as [|x s1 IH]; intros acc H1; [done|].
  simpl in *. destruct (Ascii.is_nat x); [by apply IH|done].
Qed.

Lemma all_digits_occurs (s : string) :
  all_digits s = true → occurs "_" s = false.
Proof.
  induction s as [|x s IH]; [done|]. simpl. intros Hs.
  destruct (Ascii.is_nat x) eqn:Hx; [|done].
  rewrite IH by done. rewrite orb_false_r. apply bool_decide_eq_false.
  intros ->. done.
Qed.

Lemma pretty_N_char_digit (x : N) :
  (x < 10)%N → Ascii.is_nat (pretty_N_char x) = Some (N.to_nat x).
Proof.
  intros Hx.
  assert (x = 0 ∨ x = 1 ∨ x = 2 ∨ x = 3 ∨ x = 4 ∨ x = 5 ∨ x = 6 ∨ x = 7
          ∨ x = 8 ∨ x = 9)%N as Hcases by lia.
  destruct Hcases as [->|[->|[->|[->|[->|[->|[->|[->|[->| ->]]]]]]]]]; done.
Qed.

Lemma append_nil_r (s : string) : s +:+ EmptyString = s.
Proof. induction s as [|x s IH]; [done|]. by rewrite append_cons, IH. Qed.

Lemma append_assoc (s1 s2 s3 : string) : (s1 +:+ s2) +:+ s3 = s1 +:+ (s2 +:+ s3).
Proof. induction s1 as [|x s1 IH]; [done|]. by rewrite !append_cons, IH. Qed.

(** The digits [pretty] writes for a number spell that number. *)
Lemma pretty_N_go_digits (x : N) :
  ∃ ds : string,
    all_digits ds = true ∧ ((0 < x)%N → ds ≠ EmptyString) ∧
    (∀ s, pretty_N_go x s = ds +:+ s) ∧
    ∀ acc, digits_value ds acc
           = acc * 10 ^ Z.of_nat (String.length ds) + Z.of_N x.
Proof.
  induction (N.lt_wf_0 x) as [x _ IH].
  assert (x = 0 ∨ 0 < x)%N as [->|Hx] by lia.
  { exists EmptyString. repeat split; [lia|]. intros acc. simpl. lia. }
  destruct (IH (x `div` 10)%N) as (ds & Hds & _ & Hgo & Hvalue).
  { by apply N.div_lt. }
  exists (ds +:+ String (pretty_N_char (x `mod` 10)) EmptyString).
  assert (x `mod` 10 < 10)%N as Hmod by (by apply N.mod_lt).
  split; [|split; [|split]].
  - apply all_digits_app; [done|]. simpl. by rewrite pretty_N_char_digit.
  - intros _. by destruct ds.
  - intros s. rewrite pretty_N_go_step, Hgo, append_assoc by done. done.
  - intros acc. rewrite digits_value_app, Hvalue by done. simpl.
    rewrite pretty_N_char_digit by done.
    assert (String.length (ds +:+ String (pretty_N_char (x `mod` 10)) EmptyString)
            = S (String.length ds)) as ->.
    { clear. induction ds as [|c ds IH]; [done|]. rewrite append_cons. simpl.
      by rewrite IH. }
    rewrite Nat2Z.inj_succ, Z.pow_succ_r by lia.
    pose proof (N.div_mod x 10). lia.
Qed.

Lemma length_append (s1 s2 : string) :
  String.length (s1 +:+ s2) = (String.length s1 + String.length s2)%nat.
Proof.
  induction s1 as [|x s1 IH]; [done|]. rewrite append_cons. simpl. by rewrite IH.
Qed.

Lemma digits_value_nonneg (s : string) (acc : Z) :
  0 ≤ acc → 0 ≤ digits_value s acc.
Proof.
  revert acc. induction s as [|x s IH]; intros acc Hacc; [done|].
  simpl. destruct (Ascii.is_nat x); [apply IH; lia|done].
Qed.

Lemma extract_int_digits (ds : string) :
  all_digits ds = true → ds ≠ EmptyString →
  extract_int ds = Ok (Z.min INT_MAX (digits_value ds 0)).
Proof.
  intros Hds Hne. destruct ds as [|c rest]; [done|]. simpl in Hds.
  destruct (Ascii.is_nat c) eqn:Hc; [|done]. unfold Ascii.is_nat in Hc.
  destruct c as [[] [] [] [] [] [] [] []]; try discriminate; reflexivity.
Qed.

Lemma skipws_blank (s : string) : skipws s = EmptyString ↔ blank s = true.
Proof.
  induction s as [|c s IH]; [done|]. simpl.
  destruct (Ascii.is_space c); [done|]. by split.
Qed.

(** What the extraction gives: nothing for a blank string, an [int]
    otherwise. *)
Lemma extract_int_blank (s : string) :
  if blank s then extract_int s = Undefined
  else ∃ id, extract_int s = Ok id ∧ INT_MIN ≤ id ≤ INT_MAX.
Proof.
  destruct (blank s) eqn:Hblank.
  - apply skipws_blank in Hblank. unfold extract_int. by rewrite Hblank.
  - assert (skipws s ≠ EmptyString) as Hne.
    { intros Hs. apply skipws_blank in Hs. congruence. }
    unfold extract_int, INT_MIN, INT_MAX.
    repeat case_match; try done; eexists; (split; [done|]);
      match goal with
      | |- context [digits_value ?s 0] =>
          pose proof (digits_value_nonneg s 0 ltac:(lia)); lia
      end.
Qed.

Lemma occurs_split (c : Ascii.ascii) (s : string) :
  occurs c s = true →
  ∃ prefix suffix, s = prefix +:+ String c suffix ∧ occurs c suffix = false.
Proof.
  induction s as [|x s IH]; [done|]. simpl. intros Hs.
  destruct (occurs c s) eqn:Hc.
  - destruct (IH eq_refl) as (prefix & suffix & -> & Hsuffix).
    by exists (String x prefix), suffix.
  - rewrite orb_false_r in Hs. apply bool_decide_eq_true in Hs as ->.
    by exists EmptyString, s.
Qed.

Lemma pretty_N_digits (x : N) :
  all_digits (pretty x) = true ∧ pretty x ≠ EmptyString
  ∧ digits_value (pretty x) 0 = Z.of_N x.
Proof.
  unfold pretty, pretty_N. case_decide as Hx; [by subst|].
  destruct (pretty_N_go_digits x) as (ds & Hds & Hne & Hgo & Hvalue).
  rewrite Hgo, append_nil_r, Hvalue. split; [done|]. split; [apply Hne; lia|lia].
Qed.

Lemma blockIDOf_suffix (message prefix suffix : string) :
  occurs "_" suffix = false →
  blockIDOf message (prefix +:+ String "_" suffix) = extract_int suffix.
Proof.
  intros Hsuffix. unfold blockIDOf, find_last_of.
  rewrite find_last_of_from_app by done. unfold npos.
  rewrite decide_False by lia. f_equal. unfold substr.
  replace (Z.to_nat (0 + Z.of_nat (String.length prefix) + 1))
    with (String.length (prefix +:+ String "_" EmptyString)).
  2: { rewrite length_append. simpl. lia. }
  change (String "_" suffix) with (String "_" EmptyString +:+ suffix).
  rewrite <- append_assoc. apply substring_app_tail.
  rewrite !length_append. lia.
Qed.

(** X2: a block name without an underscore is the parse error.  A name with
    one is read after its last underscore: when nothing but white space
    follows it, the block ID is never set and its use is undefined;
    otherwise the block ID is an [int].  A name that ends in an underscore
    and the decimal digits of [n] has the ID [n], or the nearest [int] when
    [n] does not fit. *)
Theorem blockIDOf_decimal_suffix (message : string) :
  (∀ name, occurs "_" name = false →
           blockIDOf message name = Throw (LogicError message)) ∧
  (∀ name, occurs "_" name = true →
           ∃ prefix suffix,
             name = prefix +:+ "_" +:+ suffix ∧ occurs "_" suffix = false ∧
             if blank suffix then blockIDOf message name = Undefined
             else ∃ id, blockIDOf message name = Ok id
                        ∧ INT_MIN ≤ id ≤ INT_MAX) ∧
  (∀ (prefix : string) (n : Z),
     blockIDOf message (prefix +:+ "_" +:+ pretty n)
     = Ok (Z.max INT_MIN (Z.min INT_MAX n))).
Proof.
  split; [|split].
  - intros name Hname. unfold blockIDOf, find_last_of.
    rewrite find_last_of_from_absent by done. by rewrite decide_True.
  - intros name Hname.
    destruct (occurs_split _ _ Hname) as (prefix & suffix & -> & Hsuffix).
    exists prefix, suffix. split; [done|]. split; [done|].
    change ("_" +:+ suffix) with (String "_" suffix).
    rewrite blockIDOf_suffix by done. apply extract_int_blank.
  - intros prefix n. change ("_" +:+ pretty n) with (String "_" (pretty n)).
    destruct n as [|p|p].
    + rewrite blockIDOf_suffix by done. done.
    + destruct (pretty_N_digits (Npos p)) as (Hds & Hne & Hvalue).
      change (pretty (Z.pos p)) with (pretty (N.pos p)).
      rewrite blockIDOf_suffix by (by apply all_digits_occurs).
      rewrite extract_int_digits, Hvalue by done.
      f_equal. unfold INT_MIN, INT_MAX. lia.
    + destruct (pretty_N_digits (Npos p)) as (Hds & Hne & Hvalue).
      change (pretty (Z.neg p)) with (String "-" (pretty (N.pos p))).
      rewrite blockIDOf_suffix.
      2: { cbn [occurs]. rewrite all_digits_occurs by done. done. }
      change (extract_int (String "-" (pretty (N.pos p))))
        with (Ok (Z.max INT_MIN (- digits_value (pretty (N.pos p)) 0))).
      rewrite Hvalue. f_equal; unfold INT_MIN, INT_MAX; lia.
Qed.

Lemma defaultParamsOf_app (l1 l2 : list (string * ParameterList)) dp :
  defaultParamsOf (l1 ++ l2) dp = defaultParamsOf l2 (defaultParamsOf l1 dp).
Proof.
  unfold defaultParamsOf. rewrite filter_app, last_app.
  by destruct (last (filter _ l2)).
Qed.

Section ConstructorProperties.
Context `{Collaborators}.
Implicit Types newBlockData : string → Z → ParameterList → BlockData.

Lemma blockName_loop newBlockData (params : ParameterList) (names : list string) :
  ∀ (d : bool) dp blocks d' dp' blocks',
    for_each names (blockNameBody newBlockData params) (d, dp, blocks)
    = Ok (d', dp', blocks') →
    let listed := (λ name, (name, params)) <$> names in
    (d' = true ↔ d = true ∨ ∃ p, p ∈ listed ∧ isDefaultName p.1) ∧
    dp' = defaultParamsOf listed dp ∧
    ∃ new,
      blocks' = blocks ++ new ∧
      nameAndParams <$> new = filter (λ p, ¬ isDefaultName p.1) listed ∧
      Forall (made newBlockData invalidBlockNameMessage) new.
Proof.
  induction names as [|name names IH]; intros d dp blocks d' dp' blocks' Hloop.
  { injection Hloop as <- <- <-. split; [|split].
    - split; [by left|]. intros [?|(p & Hp & _)]; [done|]. by apply elem_of_nil in Hp.
    - done.
    - exists []. by rewrite app_nil_r. }
  cbn [for_each] in Hloop. apply bind_Ok in Hloop as ([[d1 dp1] blocks1] & Hbody & Hloop).
  apply IH in Hloop as (Hd & Hdp & new & -> & Hnew & Hmade). clear IH.
  unfold blockNameBody in Hbody. cbv zeta. rewrite fmap_cons.
  case_decide as Hname.
  - injection Hbody as <- <- <-. split; [|split].
    + split; [intros _; right; exists (name, params); split; [left|done]|].
      intros _. apply Hd. by left.
    + rewrite Hdp. change ((name, params) :: ?l) with ([(name, params)] ++ l).
      rewrite defaultParamsOf_app. f_equal. unfold defaultParamsOf.
      by rewrite filter_cons_True.
    + exists new. split; [done|]. split; [|done].
      rewrite filter_cons_False; [done|]. intros Hn. by apply Hn.
  - apply bind_Ok in Hbody as (blockID & HID & Hbody).
    injection Hbody as <- <- <-. split; [|split].
    + rewrite Hd. split; intros [?|(p & Hp & Hdef)]; auto.
      * right. exists p. split; [by right|done].
      * apply elem_of_cons in Hp as [->|Hp]; [done|]. right. by exists p.
    + rewrite Hdp. change ((name, params) :: ?l) with ([(name, params)] ++ l).
      rewrite defaultParamsOf_app. f_equal. unfold defaultParamsOf.
      by rewrite filter_cons_False by done.
    + exists (ContactBlock_new newBlockData name blockID params :: new).
      split; [by rewrite <- app_assoc|]. split.
      * rewrite filter_cons_True by done. by rewrite fmap_cons, Hnew.
      * constructor; [|done]. done.
Qed.

Lemma blocksEntry_loop newBlockData (blockParams entries : ParameterList) :
  ∀ (d : bool) dp blocks d' dp' blocks',
    for_each entries (blocksEntryBody newBlockData blockParams) (d, dp, blocks)
    = Ok (d', dp', blocks') →
    let listed := concat (entryBlockNames blockParams <$> entries) in
    (d' = true ↔ d = true ∨ ∃ p, p ∈ listed ∧ isDefaultName p.1) ∧
    dp' = defaultParamsOf listed dp ∧
    ∃ new,
      blocks' = blocks ++ new ∧
      nameAndParams <$> new = filter (λ p, ¬ isDefaultName p.1) listed ∧
      Forall (made newBlockData invalidBlockNameMessage) new.
Proof.
  induction entries as [|entry entries IH];
    intros d dp blocks d' dp' blocks' Hloop.
  { injection Hloop as <- <- <-. split; [|split].
    - split; [by left|]. intros [?|(p & Hp & _)]; [done|].
      by apply elem_of_nil in Hp.
    - done.
    - exists []. by rewrite app_nil_r. }
  cbn [for_each] in Hloop.
  apply bind_Ok in Hloop as ([[d1 dp1] blocks1] & Hbody & Hloop).
  apply IH in Hloop as (Hd & Hdp & new2 & -> & Hnew2 & Hmade2). clear IH.
  unfold blocksEntryBody in Hbody.
  apply bind_Ok in Hbody as (params & Hparams & Hbody).
  apply bind_Ok in Hbody as (blockNamesString & Hstring & Hbody).
  apply blockName_loop in Hbody as (Hd1 & Hdp1 & new1 & -> & Hnew1 & Hmade1).
  cbv zeta. rewrite fmap_cons, concat_cons.
  assert (entryBlockNames blockParams entry
          = (λ name, (name, params)) <$> String.words blockNamesString) as ->.
  { unfold entryBlockNames. by rewrite Hparams, Hstring. }
  split; [|split].
  - rewrite Hd, Hd1. setoid_rewrite elem_of_app. naive_solver.
  - by rewrite defaultParamsOf_app, Hdp, Hdp1.
  - exists (new1 ++ new2). split; [by rewrite app_assoc|].
    split; [by rewrite fmap_app, filter_app, Hnew1, Hnew2|].
    by apply Forall_app.
Qed.

Lemma blockMatch_spec (name : string) (blocks : list ContactBlock) :
  existsb (λ b, bool_decide (name = getName b)) blocks = true
  ↔ name ∈ getName <$> blocks.
Proof.
  induction blocks as [|b blocks IH]; simpl.
  - split; [done|]. by intros ?%elem_of_nil.
  - rewrite orb_true_iff, IH, bool_decide_eq_true, elem_of_cons. done.
Qed.

Lemma defaultBlock_loop newBlockData (dp : ParameterList) (names : list string) :
  ∀ blocks blocks',
    for_each names (defaultBlockBody newBlockData dp) blocks = Ok blocks' →
    ∃ added,
      blocks' = blocks ++ added ∧
      Forall (λ b, made newBlockData invalidDiscretizationBlockNameMessage b
                   ∧ blockParams b = dp ∧ getName b ∈ names
                   ∧ (getName b ∉ getName <$> blocks)) added ∧
      NoDup (getName <$> added) ∧
      ∀ name, name ∈ names → name ∈ getName <$> blocks'.
Proof.
  induction names as [|name names IH]; intros blocks blocks' Hloop.
  { injection Hloop as <-. exists []. rewrite app_nil_r.
    split; [done|]. split; [constructor|]. split; [constructor|].
    by intros ? ?%elem_of_nil. }
  cbn [for_each] in Hloop. apply bind_Ok in Hloop as (blocks1 & Hbody & Hloop).
  apply IH in Hloop as (added & -> & Hadded & Hnodup & Hcover). clear IH.
  unfold defaultBlockBody in Hbody.
  destruct (existsb _ blocks) eqn:Hmatch.
  - injection Hbody as <-. apply blockMatch_spec in Hmatch.
    exists added. split; [done|]. split; [|split; [done|]].
    + eapply Forall_impl; [done|]. intros b (? & ? & ? & ?).
      split; [done|]. split; [done|]. split; [by right|done].
    + intros n [->|Hn]%elem_of_cons; [|by apply Hcover].
      rewrite fmap_app, elem_of_app. by left.
  - apply bind_Ok in Hbody as (blockID & HID & Hbody). injection Hbody as <-.
    assert (name ∉ getName <$> blocks) as Hname.
    { rewrite <- blockMatch_spec. by rewrite Hmatch. }
    exists (ContactBlock_new newBlockData name blockID dp :: added).
    split; [by rewrite <- app_assoc|]. split; [|split].
    + constructor.
      * split; [done|]. split; [done|]. split; [by left|done].
      * eapply Forall_impl; [done|]. intros b (? & ? & ? & Hb).
        split; [done|]. split; [done|]. split; [by right|].
        intros Hin. apply Hb. rewrite fmap_app, elem_of_app. by left.
    + rewrite fmap_cons. constructor; [|done]. simpl.
      intros (b & Hb1 & Hb2)%list_elem_of_fmap.
      rewrite Forall_forall in Hadded. destruct (Hadded b Hb2) as (_ & _ & _ & Hb).
      apply Hb. rewrite fmap_app, elem_of_app. right. rewrite Hb1. simpl. by left.
    + intros n [->|Hn]%elem_of_cons; [|by apply Hcover].
      rewrite !fmap_app, !elem_of_app. left. right. simpl. by left.
Qed.

(** What [createContactBlocks] returns: the blocks the deck names, in the
    order of the deck, and then the blocks made for the discretization. *)
Lemma createContactBlocks_Ok newBlockData (names : list string)
    (peridigmParams : ParameterList) (blocks : list ContactBlock) :
  createContactBlocks newBlockData names peridigmParams = Ok blocks →
  ∃ deck explicit added,
    sublist peridigmParams "Blocks" true = Ok deck ∧
    let listed := listedBlockNames deck in
    blocks = explicit ++ added ∧
    nameAndParams <$> explicit = filter (λ p, ¬ isDefaultName p.1) listed ∧
    Forall (made newBlockData invalidBlockNameMessage) explicit ∧
    ((∀ p, p ∈ listed → ¬ isDefaultName p.1) → added = []) ∧
    ((∃ p, p ∈ listed ∧ isDefaultName p.1) →
     Forall (λ b, made newBlockData invalidDiscretizationBlockNameMessage b
                  ∧ blockParams b = defaultParamsOf listed []
                  ∧ getName b ∈ names
                  ∧ (getName b ∉ getName <$> explicit)) added ∧
     NoDup (getName <$> added) ∧
     ∀ name, name ∈ names → name ∈ getName <$> blocks).
Proof.
  intros Hblocks. unfold createContactBlocks in Hblocks.
  apply bind_Ok in Hblocks as (deck & Hsub & Hblocks).
  apply bind_Ok in Hblocks as ([[d dp] explicit] & Hloop & Hblocks).
  apply blocksEntry_loop in Hloop as (Hd & Hdp & new & Hnew & Hnames & Hmade).
  simpl in Hnew. subst explicit. fold (listedBlockNames deck) in *.
  exists deck, new. destruct d.
  - apply defaultBlock_loop in Hblocks as (added & -> & Hadded & Hnodup & Hcover).
    exists added. split; [done|]. cbv zeta. split; [done|].
    split; [done|]. split; [done|]. split.
    + intros Hnone. destruct Hd as [[?|(p & Hp & Hdef)] _]; [done..|].
      by destruct (Hnone p Hp).
    + intros _. by rewrite <- Hdp.
  - injection Hblocks as <-. exists []. rewrite app_nil_r.
    split; [done|]. cbv zeta. split; [done|]. split; [done|]. split; [done|].
    split; [done|]. intros Hsome. destruct Hd as [_ Hd]. by discriminate Hd; right.
Qed.

Lemma ContactManager_new_Ok (getFieldId : string → result Z) newBlockData
    (contactParams : ParameterList) (names : list string)
    (peridigmParams : ParameterList) (st : ContactManager) :
  ContactManager_new getFieldId newBlockData contactParams names peridigmParams
  = Ok st →
  getEntry "Search Radius" contactParams = Some (PDouble (contactSearchRadius st)) ∧
  getEntry "Search Frequency" contactParams
  = Some (PInt (contactRebalanceFrequency st)) ∧
  params st = contactParams ∧
  createContactBlocks newBlockData names peridigmParams = Ok (contactBlocks st) ∧
  getFieldId "Block_Id"%string = Ok (blockIdFieldId st) ∧
  getFieldId "Volume"%string = Ok (volumeFieldId st) ∧
  getFieldId "Coordinates"%string = Ok (coordinatesFieldId st) ∧
  getFieldId "Velocity"%string = Ok (velocityFieldId st) ∧
  getFieldId "Contact_Force_Density"%string = Ok (contactForceDensityFieldId st).
Proof.
  intros Hnew. unfold ContactManager_new in Hnew.
  repeat (apply bind_Ok in Hnew as (? & ? & Hnew)).
  destruct (negb (isParameter contactParams "Search Radius")); [done|].
  apply bind_Ok in Hnew as (radius & Hradius & Hnew).
  destruct (negb (isParameter contactParams "Search Frequency")); [done|].
  apply bind_Ok in Hnew as (frequency & Hfrequency & Hnew).
  apply bind_Ok in Hnew as (blocks & Hblocks & Hnew).
  injection Hnew as <-. simpl.
  unfold get_double in Hradius. unfold get_int in Hfrequency.
  repeat case_match; simplify_eq. done.
Qed.

(** X1: the constructor throws [InvalidParameter] when the contact
    parameters lack "Search Radius" or, that one given, "Search Frequency",
    and a wrongly typed radius is a type error; when it returns, the manager
    holds the two values and the parameter list as they were given. *)
Theorem constructor_requires_search_parameters (getFieldId : string → result Z)
    newBlockData (contactParams : ParameterList) (names : list string)
    (peridigmParams : ParameterList) :
  (∀ label, ∃ id, getFieldId label = Ok id) →
  let constructed :=
    ContactManager_new getFieldId newBlockData contactParams names
      peridigmParams in
  (getEntry "Search Radius" contactParams = None →
   constructed
   = Throw (InvalidParameter
       ("Contact parameter " +:+ quote +:+ "Search Radius" +:+ quote
        +:+ " not specified."))) ∧
  (∀ radius,
     getEntry "Search Radius" contactParams = Some (PDouble radius) →
     getEntry "Search Frequency" contactParams = None →
     constructed
     = Throw (InvalidParameter
         ("Contact parameter " +:+ quote +:+ "Search Frequency" +:+ quote
          +:+ " not specified."))) ∧
  (∀ e, getEntry "Search Radius" contactParams = Some e →
        (∀ radius, e ≠ PDouble radius) →
        constructed = Throw (InvalidParameterType "Search Radius")) ∧
  (∀ st, constructed = Ok st →
         getEntry "Search Radius" contactParams
         = Some (PDouble (contactSearchRadius st)) ∧
         getEntry "Search Frequency" contactParams
         = Some (PInt (contactRebalanceFrequency st)) ∧
         params st = contactParams).
Proof.
  intros Hfields constructed. subst constructed. unfold ContactManager_new.
  destruct (Hfields "Block_Id"%string) as [? ->].
  destruct (Hfields "Volume"%string) as [? ->].
  destruct (Hfields "Coordinates"%string) as [? ->].
  destruct (Hfields "Velocity"%string) as [? ->].
  destruct (Hfields "Contact_Force_Density"%string) as [? ->].
  cbn [mbind result_bind]. unfold isParameter, get_double.
  split; [|split; [|split]].
  - by intros ->.
  - intros radius -> Hfrequency. cbn [negb mbind result_bind].
    by rewrite Hfrequency.
  - intros e -> He. cbn [negb]. destruct e; try done. by destruct (He d).
  - intros st Hst. unfold get_int in Hst.
    destruct (getEntry "Search Radius" contactParams) as [[]|]; try done.
    cbn [negb mbind result_bind] in Hst.
    destruct (getEntry "Search Frequency" contactParams) as [[]|]; try done.
    cbn [negb mbind result_bind] in Hst.
    apply bind_Ok in Hst as (blocks & _ & Hst). by injection Hst as <-.
Qed.

(** X3: the contact blocks of a constructed manager start with one block
    for every block name the "Blocks" entries list, in the order of the
    deck and with the parameter list of the entry that names it, the names
    "Default" and "default" left out; each such block has the ID read off
    its name and no contact model; when the deck names no default block,
    there are no other blocks. *)
Theorem constructor_blocks_follow_deck (getFieldId : string → result Z)
    newBlockData (contactParams : ParameterList) (names : list string)
    (peridigmParams : ParameterList) (st : ContactManager) :
  ContactManager_new getFieldId newBlockData contactParams names peridigmParams
  = Ok st →
  ∃ deck explicit added,
    sublist peridigmParams "Blocks" true = Ok deck ∧
    contactBlocks st = explicit ++ added ∧
    nameAndParams <$> explicit
    = filter (λ p, ¬ isDefaultName p.1) (listedBlockNames deck) ∧
    Forall (λ b, blockIDOf invalidBlockNameMessage (getName b) = Ok (getID b)
                 ∧ getContactModel b = None) explicit ∧
    ((∀ p, p ∈ listedBlockNames deck → ¬ isDefaultName p.1) → added = []).
Proof.
  intros Hst. apply ContactManager_new_Ok in Hst as (_ & _ & _ & Hblocks & _).
  apply createContactBlocks_Ok in Hblocks
    as (deck & explicit & added & Hdeck & Hblocks & Hnames & Hmade & Hnone & _).
  exists deck, explicit, added. repeat split; try done.
  eapply Forall_impl; [done|]. by intros b (? & ? & _).
Qed.

(** X4: when the deck names a default block, every block name of the
    discretization is the name of a contact block; the blocks made for the
    discretization follow the blocks of the deck, have distinct names that
    the deck does not list, carry the parameter list of the last entry that
    names a default block, and have the ID read off their name. *)
Theorem constructor_default_blocks_cover_discretization
    (getFieldId : string → result Z) newBlockData
    (contactParams : ParameterList) (names : list string)
    (peridigmParams deck : ParameterList) (st : ContactManager) :
  ContactManager_new getFieldId newBlockData contactParams names peridigmParams
  = Ok st →
  sublist peridigmParams "Blocks" true = Ok deck →
  (∃ p, p ∈ listedBlockNames deck ∧ isDefaultName p.1) →
  (∀ name, name ∈ names → name ∈ getName <$> contactBlocks st) ∧
  ∃ explicit added,
    contactBlocks st = explicit ++ added ∧
    nameAndParams <$> explicit
    = filter (λ p, ¬ isDefaultName p.1) (listedBlockNames deck) ∧
    NoDup (getName <$> added) ∧
    Forall (λ b, getName b ∈ names
                 ∧ (getName b ∉ getName <$> explicit)
                 ∧ blockParams b = defaultParamsOf (listedBlockNames deck) []
                 ∧ blockIDOf invalidDiscretizationBlockNameMessage (getName b)
                   = Ok (getID b)
                 ∧ getContactModel b = None) added.
Proof.
  intros Hst Hdeck Hdefault.
  apply ContactManager_new_Ok in Hst as (_ & _ & _ & Hblocks & _).
  apply createContactBlocks_Ok in Hblocks
    as (deck' & explicit & added & Hdeck' & Hblocks & Hnames & _ & _ & Hsome).
  rewrite Hdeck in Hdeck'. injection Hdeck' as <-.
  destruct (Hsome Hdefault) as (Hadded & Hnodup & Hcover).
  split; [done|]. exists explicit, added. repeat split; try done.
  eapply Forall_impl; [done|]. by intros b ((? & ? & _) & ? & ? & ?).
Qed.

End ConstructorProperties.

(** * What the operations keep and what they set *)

Section ManagerProperties.
Context `{Collaborators}.

Lemma initialize_Ok (map1 map3 overlap1 bond : Epetra_BlockMap)
    (blockHorizonValues : gmap string float) (st st' : ContactManager) :
  initialize map1 map3 overlap1 bond blockHorizonValues st = Ok st' →
  ∃ blocks overlap3,
    mapM (initializeBlock (params st) blockHorizonValues) (contactBlocks st)
    = Ok blocks ∧
    Epetra_BlockMap_new (NumMyElements overlap1) (MyGlobalElements overlap1) 3
    = Ok overlap3 ∧
    st' = set_contactBlocks blocks
            (set_mothership (Epetra_Vector_new map1) (Epetra_Vector_new map1)
               (Epetra_Vector_new map3) (Epetra_Vector_new map3)
               (Epetra_Vector_new map3) (Epetra_Vector_new map3)
               (set_contactMaps map1 overlap1 map3 bond
                  {| params := params st;
                     contactRebalanceFrequency := contactRebalanceFrequency st;
                     contactSearchRadius := contactSearchRadius st;
                     blockIdFieldId := blockIdFieldId st;
                     volumeFieldId := volumeFieldId st;
                     coordinatesFieldId := coordinatesFieldId st;
                     velocityFieldId := velocityFieldId st;
                     contactForceDensityFieldId := contactForceDensityFieldId st;
                     contactBlocks := contactBlocks st;
                     oneDimensionalMap := map1;
                     threeDimensionalMap := map3;
                     oneDimensionalOverlapMap := overlap1;
                     threeDimensionalOverlapMap := overlap3;
                     bondMap := bond;
                     oneDimensionalContactMap := map1;
                     threeDimensionalContactMap := map3;
                     oneDimensionalOverlapContactMap := overlap1;
                     bondContactMap := bond;
                     oneDimensionalMothershipToContactMothershipImporter :=
                       Epetra_Import_new map1 map1;
                     threeDimensionalMothershipToContactMothershipImporter :=
                       Epetra_Import_new map3 map3;
                     contactBlockIDs := contactBlockIDs st;
                     contactVolume := contactVolume st;
                     contactY := contactY st;
                     contactV := contactV st;
                     contactContactForce := contactContactForce st;
                     contactScratch := contactScratch st;
                     neighborhoodData := neighborhoodData st;
                     contactNeighborhoodData := contactNeighborhoodData st |})).
Proof.
  intros Hst'. unfold initialize in Hst'.
  apply bind_Ok in Hst' as (blocks & Hblocks & Hst').
  apply bind_Ok in Hst' as (overlap3 & Hoverlap3 & Hst').
  injection Hst' as <-. by exists blocks, overlap3.
Qed.

Lemma rebalance_Ok (peers : list ContactManager) (step : Z)
    (st st' : ContactManager) :
  rebalance peers step st = Ok st' →
  contactRebalanceFrequency st ≠ 0 ∧
  (st' = st ∨
   ∃ r mothership blocks,
     rebalanceTopology peers st = Ok r ∧
     rebalanceMothership peers
       (set_neighborhoodData (rebalancedNeighborhoodData r)
          (rebalancedContactNeighborhoodData r) st) r = Ok mothership ∧
     rebalanceBlocks mothership r = Ok blocks ∧
     st' = set_contactMaps (rebalancedOneDimensionalMap r)
             (rebalancedOneDimensionalOverlapMap r)
             (rebalancedThreeDimensionalMap r) (rebalancedBondMap r) blocks).
Proof.
  intros Hst'. unfold rebalance in Hst'.
  case_decide as Hfrequency; [done|]. split; [done|].
  case_decide as Hoverflow; [done|].
  case_decide as Hstep; [left; by injection Hst'|]. right.
  apply bind_Ok in Hst' as (r & Hr & Hst').
  apply bind_Ok in Hst' as (mothership & Hmothership & Hst').
  apply bind_Ok in Hst' as (blocks & Hblocks & Hst').
  injection Hst' as <-. by exists r, mothership, blocks.
Qed.

(** X5: the constructor takes a "Search Frequency" of 0 as it is, and
    [initialize] keeps it; [rebalance] on the initialized manager then
    divides by zero at every step. *)
Theorem zero_search_frequency_is_not_rejected (getFieldId : string → result Z)
    (newBlockData : string → Z → ParameterList → BlockData)
    (contactParams : ParameterList) (names : list string)
    (peridigmParams : ParameterList)
    (map1 map3 overlap1 bond : Epetra_BlockMap)
    (blockHorizonValues : gmap string float)
    (constructed initialized : ContactManager) :
  getEntry "Search Frequency" contactParams = Some (PInt 0) →
  ContactManager_new getFieldId newBlockData contactParams names peridigmParams
  = Ok constructed →
  initialize map1 map3 overlap1 bond blockHorizonValues constructed
  = Ok initialized →
  contactRebalanceFrequency initialized = 0 ∧
  ∀ peers step, rebalance peers step initialized = Undefined.
Proof.
  intros Hzero Hnew Hinit.
  apply ContactManager_new_Ok in Hnew as (_ & Hfrequency & _).
  rewrite Hzero in Hfrequency. injection Hfrequency as Hfrequency.
  apply initialize_Ok in Hinit as (blocks & overlap3 & _ & _ & ->).
  split; [done|]. intros peers step. unfold rebalance. simpl.
  by rewrite decide_True.
Qed.

Lemma initializeBlock_Ok (params : ParameterList)
    (blockHorizonValues : gmap string float) (b b' : ContactBlock) :
  initializeBlock params blockHorizonValues b = Ok b' →
  ∃ horizon created model,
    blockHorizon blockHorizonValues (getName b) = Ok horizon ∧
    contactModelParameters params horizon = Ok created ∧
    ContactModelFactory_create created = Ok model ∧
    b' = setContactModel model b.
Proof.
  intros Hb'. unfold initializeBlock in Hb'.
  apply bind_Ok in Hb' as (horizon & Hhorizon & Hb').
  apply bind_Ok in Hb' as (created & Hcreated & Hb').
  apply bind_Ok in Hb' as (model & Hmodel & Hb').
  injection Hb' as <-. by exists horizon, created, model.
Qed.

(** ** The horizon and the friction coefficient of the contact models *)

(** C9: for a contact block with no horizon entry of its own, [initialize]
    takes the ["default"] entry when there is one: when [initialize] returns,
    the block has the contact model the factory made from the parameter list
    whose "Horizon" is that entry.  When there is no default entry either,
    the block's initialization throws the error that names the block;
    [initialize] then never returns a contact manager, and it throws that
    error at the first such block. *)
Theorem initialize_horizon_of_block (blockHorizonValues : gmap string float)
    (block : ContactBlock) :
  blockHorizonValues !! getName block = None →
  (∀ h, blockHorizonValues !! "default"%string = Some h →
     ∀ map1 map3 overlap1 bond st st' (i : nat),
       contactBlocks st !! i = Some block →
       initialize map1 map3 overlap1 bond blockHorizonValues st = Ok st' →
       ∃ created model,
         contactModelParameters (params st) h = Ok created ∧
         getEntry "Horizon" created = Some (PDouble h) ∧
         ContactModelFactory_create created = Ok model ∧
         contactBlocks st' !! i = Some (setContactModel model block)) ∧
  (blockHorizonValues !! "default"%string = None →
   (∀ params,
      initializeBlock params blockHorizonValues block
      = Throw (LogicError
          (newline +:+ "**** Error, no Horizon parameter supplied for block "
           +:+ getName block
           +:+ " and no default block parameter list provided." +:+ newline))) ∧
   (∀ map1 map3 overlap1 bond st,
      block ∈ contactBlocks st →
      ∀ st', initialize map1 map3 overlap1 bond blockHorizonValues st ≠ Ok st') ∧
   (∀ map1 map3 overlap1 bond st before after,
      contactBlocks st = before ++ block :: after →
      Forall (λ b, ∃ b', initializeBlock (params st) blockHorizonValues b = Ok b')
        before →
      initialize map1 map3 overlap1 bond blockHorizonValues st
      = Throw (LogicError (noHorizonMessage (getName block))))).
Proof.
  intros Hnone. split.
  { intros h Hdefault map1 map3 overlap1 bond st st' i Hi Hinit.
    apply initialize_Ok in Hinit as (blocks & overlap3 & Hblocks & _ & ->).
    simpl. apply mapM_result_Forall2 in Hblocks.
    destruct (Forall2_lookup_l _ _ _ i block Hblocks Hi) as (b' & Hb' & Hinit).
    apply initializeBlock_Ok in Hinit
      as (horizon & created & model & Hhorizon & Hcreated & Hmodel & ->).
    unfold blockHorizon in Hhorizon. rewrite Hnone, Hdefault in Hhorizon.
    injection Hhorizon as <-. exists created, model.
    split; [done|]. split; [by eapply contactModelParameters_Horizon|].
    by split. }
  intros Hdefault.
  assert (∀ params, initializeBlock params blockHorizonValues block
                    = Throw (LogicError (noHorizonMessage (getName block))))
    as Hblock.
  { intros params0. unfold initializeBlock, blockHorizon.
    by rewrite Hnone, Hdefault. }
  assert (∀ st before after, contactBlocks st = before ++ block :: after →
            ∀ bs, mapM (initializeBlock (params st) blockHorizonValues)
                    (contactBlocks st) ≠ Ok bs) as Hnever.
  { intros st before after -> bs. rewrite mapM_result_app. simpl.
    rewrite Hblock.
    by destruct (mapM (initializeBlock (params st) blockHorizonValues) before). }
  split; [done|]. split.
  - intros map1 map3 overlap1 bond st Hin st' Hinit.
    apply list_elem_of_split in Hin as (before & after & Hblocks).
    unfold initialize in Hinit.
    destruct (mapM _ (contactBlocks st)) as [bs| |] eqn:Hbs; [|done..].
    by eapply Hnever.
  - intros map1 map3 overlap1 bond st before after Hblocks Hbefore.
    unfold initialize. rewrite Hblocks, mapM_result_app.
    destruct (mapM_result_Ok _ _ Hbefore) as [bs ->]. simpl.
    by rewrite Hblock.
Qed.

(** C10: when the first configured contact model has no "Horizon" entry and
    [initialize] returns, every contact block has the contact model the
    factory made from a parameter list that holds a friction coefficient:
    the one of the first configured model when it has one, and 0.0
    otherwise; the list also holds the block's horizon and the other entries
    of the model unchanged.  When the first configured model has a "Horizon"
    entry, [initialize] returns no contact manager as soon as there is a
    contact block, and it throws the error about the horizon when the
    horizon of the first block is known. *)
Theorem initialize_friction_coefficient
    (map1 map3 overlap1 bond : Epetra_BlockMap)
    (blockHorizonValues : gmap string float) (st : ContactManager)
    (first : string) (contactParams rest : ParameterList) :
  getEntry "Models" (params st)
    = Some (PSublist ((first, PSublist contactParams) :: rest)) →
  let initialized :=
    initialize map1 map3 overlap1 bond blockHorizonValues st in
  (isParameter contactParams "Horizon" = false →
   ∀ st', initialized = Ok st' →
     Forall2
       (λ b b',
          ∃ horizon created model,
            blockHorizon blockHorizonValues (getName b) = Ok horizon ∧
            contactModelParameters (params st) horizon = Ok created ∧
            getEntry "Friction Coefficient" created
            = Some (default (PDouble 0%float)
                      (getEntry "Friction Coefficient" contactParams)) ∧
            getEntry "Horizon" created = Some (PDouble horizon) ∧
            (∀ name, name ≠ "Horizon"%string →
                     name ≠ "Friction Coefficient"%string →
                     getEntry name created = getEntry name contactParams) ∧
            ContactModelFactory_create created = Ok model ∧
            b' = setContactModel model b)
       (contactBlocks st) (contactBlocks st')) ∧
  (isParameter contactParams "Horizon" = true →
   (contactBlocks st ≠ [] → ∀ st', initialized ≠ Ok st') ∧
   (∀ b after horizon,
      contactBlocks st = b :: after →
      blockHorizon blockHorizonValues (getName b) = Ok horizon →
      initialized
      = Throw (LogicError
          (newline
           +:+ "**** Error, Horizon is an invalid contact model parameter."
           +:+ newline)))).
Proof.
  intros Hmodels initialized. subst initialized. split.
  - intros _ st' Hinit.
    apply initialize_Ok in Hinit as (blocks & overlap3 & Hblocks & _ & ->).
    simpl. apply mapM_result_Forall2 in Hblocks.
    eapply Forall2_impl; [done|]. intros b b' Hb.
    apply initializeBlock_Ok in Hb
      as (horizon & created & model & Hhorizon & Hcreated & Hmodel & ->).
    destruct (contactModelParameters_entries _ _ _ _ _ _ Hmodels Hcreated)
      as (_ & Hfriction & Hh & Hothers).
    exists horizon, created, model. split; [done|]. split; [done|].
    split; [done|]. split; [done|]. split; [done|]. by split.
  - intros Hhorizon. split.
    + intros Hblocks st' Hinit.
      apply initialize_Ok in Hinit as (blocks & overlap3 & Hmap & _ & _).
      destruct (contactBlocks st) as [|b after]; [done|]. simpl in Hmap.
      apply bind_Ok in Hmap as (b' & Hb & _).
      apply initializeBlock_Ok in Hb as (h & created & model & _ & Hcreated & _).
      rewrite (contactModelParameters_first _ _ _ _ _ Hmodels) in Hcreated.
      by rewrite Hhorizon in Hcreated.
    + intros b after horizon Hblocks Hh. unfold initialize.
      rewrite Hblocks. simpl. unfold initializeBlock. rewrite Hh. simpl.
      rewrite (contactModelParameters_first _ _ _ _ _ Hmodels), Hhorizon.
      done.
Qed.

(** X6: when [initialize] returns, the contact maps are the mesh maps it
    was given, the three-dimensional overlap map holds the global IDs of the
    one-dimensional overlap map with three values each, both importers lead
    from a mesh map to itself, the six mothership columns are zero vectors
    over the owned maps, and every contact block has the contact model the
    factory made from its horizon, and is otherwise as it was. *)
Theorem initialize_publishes_maps_and_models
    (map1 map3 overlap1 bond : Epetra_BlockMap)
    (blockHorizonValues : gmap string float) (st st' : ContactManager) :
  initialize map1 map3 overlap1 bond blockHorizonValues st = Ok st' →
  (oneDimensionalMap st' = map1 ∧ threeDimensionalMap st' = map3 ∧
   oneDimensionalOverlapMap st' = overlap1 ∧ bondMap st' = bond ∧
   oneDimensionalContactMap st' = map1 ∧ threeDimensionalContactMap st' = map3 ∧
   oneDimensionalOverlapContactMap st' = overlap1 ∧ bondContactMap st' = bond) ∧
  (MyGlobalElements (threeDimensionalOverlapMap st') = MyGlobalElements overlap1 ∧
   ElementSizeList (threeDimensionalOverlapMap st')
   = replicate (length (MyGlobalElements overlap1)) 3) ∧
  (oneDimensionalMothershipToContactMothershipImporter st'
   = Epetra_Import_new map1 map1 ∧
   threeDimensionalMothershipToContactMothershipImporter st'
   = Epetra_Import_new map3 map3) ∧
  (contactBlockIDs st' = replicate (Z.to_nat (NumMyPoints map1)) 0%float ∧
   contactVolume st' = replicate (Z.to_nat (NumMyPoints map1)) 0%float ∧
   contactY st' = replicate (Z.to_nat (NumMyPoints map3)) 0%float ∧
   contactV st' = replicate (Z.to_nat (NumMyPoints map3)) 0%float ∧
   contactContactForce st' = replicate (Z.to_nat (NumMyPoints map3)) 0%float ∧
   contactScratch st' = replicate (Z.to_nat (NumMyPoints map3)) 0%float) ∧
  Forall2
    (λ b b',
       ∃ horizon created model,
         blockHorizon blockHorizonValues (getName b) = Ok horizon ∧
         contactModelParameters (params st) horizon = Ok created ∧
         ContactModelFactory_create created = Ok model ∧
         b' = setContactModel model b)
    (contactBlocks st) (contactBlocks st').
Proof.
  intros Hst'.
  apply initialize_Ok in Hst' as (blocks & overlap3 & Hblocks & Hoverlap3 & ->).
  simpl. split; [done|]. split; [|split; [done|split; [done|]]].
  - unfold Epetra_BlockMap_new in Hoverlap3. case_decide; [|done].
    injection Hoverlap3 as <-. simpl. unfold NumMyElements, len.
    by rewrite Nat2Z.id, firstn_all.
  - apply mapM_result_Forall2 in Hblocks.
    eapply Forall2_impl; [done|]. intros b b'. apply initializeBlock_Ok.
Qed.

(** X12: a [rebalance] that returns leaves the parameters, the search
    radius and frequency, the field IDs and the five mesh maps, the
    three-dimensional overlap map among them, as they were; and when the two
    importers lead from the mesh maps to the contact maps before, they lead
    from the mesh maps to the new contact maps after. *)
Theorem rebalance_keeps_mesh_maps (peers : list ContactManager) (step : Z)
    (st st' : ContactManager) :
  rebalance peers step st = Ok st' →
  (params st' = params st ∧
   contactRebalanceFrequency st' = contactRebalanceFrequency st ∧
   contactSearchRadius st' = contactSearchRadius st ∧
   blockIdFieldId st' = blockIdFieldId st ∧
   volumeFieldId st' = volumeFieldId st ∧
   coordinatesFieldId st' = coordinatesFieldId st ∧
   velocityFieldId st' = velocityFieldId st ∧
   contactForceDensityFieldId st' = contactForceDensityFieldId st) ∧
  (oneDimensionalMap st' = oneDimensionalMap st ∧
   threeDimensionalMap st' = threeDimensionalMap st ∧
   oneDimensionalOverlapMap st' = oneDimensionalOverlapMap st ∧
   threeDimensionalOverlapMap st' = threeDimensionalOverlapMap st ∧
   bondMap st' = bondMap st) ∧
  (importersFollowMaps st → importersFollowMaps st').
Proof.
  intros Hst'.
  apply rebalance_Ok in Hst'
    as (_ & [->|(r & mothership & blocks & _ & Hmothership & Hblocks & ->)]);
    [done|].
  unfold rebalanceMothership, Import in Hmothership. simpl in Hmothership.
  inv_bind Hmothership. injection Hmothership as <-.
  unfold rebalanceBlocks in Hblocks. inv_bind Hblocks. injection Hblocks as <-.
  done.
Qed.

End ManagerProperties.

(** * The data exchange while the contact maps are the mesh maps *)

Lemma mapM_result_intro {A B : Type} (f : A → result B) (l : list A)
    (bs : list B) :
  Forall2 (λ a b, f a = Ok b) l bs → mapM f l = Ok bs.
Proof.
  induction 1 as [|a b l bs Hab _ IH]; [done|].
  cbn [mapM]. rewrite Hab. cbn [mbind result_bind]. by rewrite IH.
Qed.

Lemma assoc_zip_own {A : Type} (gids : list Z) (cs : list A)
    (others : list (Z * A)) (j : nat) (g : Z) (c : A) :
  NoDup gids → gids !! j = Some g → cs !! j = Some c →
  assoc g (zip gids cs ++ others) = Some c.
Proof.
  revert cs j. induction gids as [|g0 gids IH]; intros cs j Hnodup Hg Hc; [done|].
  apply NoDup_cons in Hnodup as [Hg0 Hnodup].
  destruct cs as [|c0 cs]; [done|]. destruct j as [|j]; simpl in *.
  - simplify_eq. by rewrite decide_True.
  - rewrite decide_False; [by eapply IH|].
    intros ->. apply Hg0. by eapply list_elem_of_lookup_2.
Qed.

(** An import, with [Insert], of a vector laid out on the target map
    itself gives that vector. *)
Lemma transfer_Insert_own {A : Type} `{Scalar A} (m : Epetra_BlockMap)
    (v target : list A) (others : list (Z * list A)) :
  mapLayout m → NoDup (MyGlobalElements m) →
  len v = NumMyPoints m → len target = NumMyPoints m →
  transfer Insert (pieces m v ++ others) m target = Ok v.
Proof.
  intros [Hlen Hsizes] Hnodup Hv Htarget. unfold transfer.
  rewrite decide_True by done.
  rewrite (mapM_result_intro _ _ (chunks (ElementSizeList m) v)).
  { cbn [mbind result_bind]. by rewrite concat_chunks. }
  pose proof (chunks_lengths (ElementSizeList m) v Hsizes) as Hcv.
  pose proof (chunks_lengths (ElementSizeList m) target Hsizes) as Hct.
  unfold NumMyPoints in *.
  specialize (Hcv ltac:(lia)). specialize (Hct ltac:(lia)).
  apply Forall2_same_length_lookup_2.
  { unfold pieces. rewrite length_zip, !length_chunks. lia. }
  intros j [g old] new Hold Hnew. unfold pieces in Hold.
  apply lookup_zip_Some in Hold as [Hg Hold]. simpl in *.
  unfold transfer_element. simpl. unfold pieces.
  rewrite (assoc_zip_own _ _ _ j g new) by done.
  destruct (ElementSizeList m !! j) as [s|] eqn:Hs.
  2: { apply lookup_ge_None in Hs. apply lookup_lt_Some in Hg. lia. }
  pose proof (Forall2_lookup_lr _ _ _ _ _ _ Hcv Hs Hnew) as Hnew'.
  pose proof (Forall2_lookup_lr _ _ _ _ _ _ Hct Hs Hold) as Hold'.
  rewrite decide_True by congruence.
  by rewrite zip_with_Insert by congruence.
Qed.

Lemma NumMyPoints_nonneg (m : Epetra_BlockMap) : mapLayout m → 0 ≤ NumMyPoints m.
Proof. intros [_ Hsizes]. by apply sum_list_nonneg. Qed.

Lemma len_Epetra_Vector_new {A : Type} `{Scalar A} (m : Epetra_BlockMap) :
  mapLayout m → len (Epetra_Vector_new (A := A) m) = NumMyPoints m.
Proof.
  intros Hm%NumMyPoints_nonneg. unfold Epetra_Vector_new, len.
  rewrite length_replicate. lia.
Qed.

Section AlignedProperties.
Context `{Collaborators}.

(** X8: right after [initialize], with mesh maps that hold every global ID
    once, [loadAllMothershipData] returns, the block IDs, volumes,
    positions and velocities of the contact mothership are the vectors this
    rank was given, value for value, and the contact force and the scratch
    column are zero. *)
Theorem loadAllMothershipData_after_initialize
    (map1 map3 overlap1 bond : Epetra_BlockMap)
    (blockHorizonValues : gmap string float) (st initialized : ContactManager)
    (blockIds volume y v : list float)
    (otherBlockIds otherVolume otherY otherV : list (Z * list float)) :
  initialize map1 map3 overlap1 bond blockHorizonValues st = Ok initialized →
  mapLayout map1 → mapLayout map3 →
  NoDup (MyGlobalElements map1) → NoDup (MyGlobalElements map3) →
  len blockIds = NumMyPoints map1 → len volume = NumMyPoints map1 →
  len y = NumMyPoints map3 → len v = NumMyPoints map3 →
  ∃ loaded,
    loadAllMothershipData (pieces map1 blockIds ++ otherBlockIds)
      (pieces map1 volume ++ otherVolume) (pieces map3 y ++ otherY)
      (pieces map3 v ++ otherV) initialized = Ok loaded ∧
    contactBlockIDs loaded = blockIds ∧ contactVolume loaded = volume ∧
    contactY loaded = y ∧ contactV loaded = v ∧
    contactContactForce loaded = replicate (length y) 0%float ∧
    contactScratch loaded = replicate (length y) 0%float ∧
    meshAligned loaded ∧ mothershipSized loaded.
Proof.
  intros Hinit Hmap1 Hmap3 Hnodup1 Hnodup3 Hids Hvolume Hy Hv.
  apply initialize_Ok in Hinit as (blocks & overlap3 & _ & _ & ->).
  unfold loadAllMothershipData, Import. simpl.
  pose proof (len_Epetra_Vector_new (A := float) map1 Hmap1) as Hnew1.
  pose proof (len_Epetra_Vector_new (A := float) map3 Hmap3) as Hnew3.
  rewrite !transfer_Insert_own by done. cbn [mbind result_bind].
  eexists. split; [done|]. simpl.
  assert (length (Epetra_Vector_new (A := float) map3) = length y) as Hlength.
  { unfold len in *. lia. }
  unfold PutScalar. rewrite Hlength.
  do 6 (split; [done|]). split.
  - unfold meshAligned, importersFollowMaps. simpl. done.
  - unfold mothershipSized. simpl. unfold len in *.
    rewrite !length_replicate. repeat split; lia.
Qed.

Lemma importBlock_Ok (coordinates velocity : list float) (st : ContactManager)
    (b b' : ContactBlock) :
  (b1 ← ContactBlock_importData coordinates (coordinatesFieldId st) STEP_NP1
          Insert b;
   ContactBlock_importData velocity (velocityFieldId st) STEP_NP1 Insert b1)
  = Ok b' →
  ∃ d1 d2,
    BlockData_importData coordinates (coordinatesFieldId st) STEP_NP1 Insert
      (blockData b) = Ok d1 ∧
    BlockData_importData velocity (velocityFieldId st) STEP_NP1 Insert d1
    = Ok d2 ∧
    b' = set_blockData d2 b.
Proof.
  intros Hb'. apply bind_Ok in Hb' as (b1 & Hb1 & Hb').
  unfold ContactBlock_importData in *.
  apply bind_Ok in Hb1 as (d1 & Hd1 & Hb1). injection Hb1 as <-.
  apply bind_Ok in Hb' as (d2 & Hd2 & Hb'). injection Hb' as <-.
  by exists d1, d2.
Qed.

(** X9: while the contact maps are the mesh maps, an [importData] that
    returns has copied the volumes, coordinates and velocities this rank was
    given into the contact mothership, value for value, has handed every
    contact block those coordinates and then those velocities, for the step
    N+1, and has left the block IDs, the contact force and the scratch
    column as they were. *)
Theorem importData_copies_and_distributes (st st' : ContactManager)
    (volume coordinates velocity : list float)
    (otherVolume otherCoordinates otherVelocity : list (Z * list float)) :
  meshAligned st → mothershipSized st →
  len volume = NumMyPoints (oneDimensionalMap st) →
  len coordinates = NumMyPoints (threeDimensionalMap st) →
  len velocity = NumMyPoints (threeDimensionalMap st) →
  importData (pieces (oneDimensionalMap st) volume ++ otherVolume)
    (pieces (threeDimensionalMap st) coordinates ++ otherCoordinates)
    (pieces (threeDimensionalMap st) velocity ++ otherVelocity) st = Ok st' →
  (contactVolume st' = volume ∧ contactY st' = coordinates ∧
   contactV st' = velocity) ∧
  (contactBlockIDs st' = contactBlockIDs st ∧
   contactContactForce st' = contactContactForce st ∧
   contactScratch st' = contactScratch st) ∧
  Forall2
    (λ b b',
       ∃ d1 d2,
         BlockData_importData coordinates (coordinatesFieldId st) STEP_NP1
           Insert (blockData b) = Ok d1 ∧
         BlockData_importData velocity (velocityFieldId st) STEP_NP1 Insert d1
         = Ok d2 ∧
         b' = set_blockData d2 b)
    (contactBlocks st) (contactBlocks st') ∧
  meshAligned st' ∧ mothershipSized st'.
Proof.
  intros ([Hi1 Hi3] & Hc1 & Hc3 & Hmap1 & Hmap3 & Hnodup1 & Hnodup3)
    (Hlids & Hlvolume & Hly & Hlv & Hlforce & Hlscratch)
    Hvolume Hcoordinates Hvelocity Hst'.
  unfold importData, Import in Hst'. rewrite Hi1, Hi3 in Hst'. simpl in Hst'.
  rewrite Hc1, Hc3 in *.
  rewrite !transfer_Insert_own in Hst' by done.
  cbn [mbind result_bind] in Hst'.
  apply bind_Ok in Hst' as (blocks & Hblocks & Hst'). injection Hst' as <-.
  simpl. split; [done|]. split; [done|]. split.
  - apply mapM_result_Forall2 in Hblocks.
    eapply Forall2_impl; [done|]. intros b b'. apply importBlock_Ok.
  - unfold meshAligned, importersFollowMaps, mothershipSized. simpl.
    rewrite Hc1, Hc3. done.
Qed.

Lemma sumBlockContactForces_frame (st st' : ContactManager) :
  sumBlockContactForces st = Ok st' →
  threeDimensionalContactMap st' = threeDimensionalContactMap st ∧
  threeDimensionalMothershipToContactMothershipImporter st'
  = threeDimensionalMothershipToContactMothershipImporter st ∧
  length (contactContactForce st') = length (contactContactForce st).
Proof.
  intros Hst'. unfold sumBlockContactForces in Hst'.
  apply bind_Ok in Hst' as ([force scratch] & Hloop & Hst').
  injection Hst' as <-. simpl. split; [done|]. split; [done|].
  match type of Hloop with
  | for_each ?blocks ?body ?s = _ =>
      pose proof (for_each_outcome
        (λ _ '(force, _), length force = length (contactContactForce st))
        (λ _, True) True body blocks [] s) as Hinv
  end.
  rewrite Hloop in Hinv. apply Hinv; clear Hinv Hloop.
  { unfold PutScalar. by rewrite length_replicate. }
  intros k b [force0 scratch0] _ Hforce0. cbv beta.
  destruct (BlockData_exportData _ _ _ _ _) as [scratch1| |]; simpl; try done.
  unfold Update_1_1. case_decide as Hlength; simpl; [|done].
  rewrite length_zip_with. lia.
Qed.

(** X10: while the contact maps are the mesh maps, an [exportData] that
    returns hands the caller exactly the contact force it has summed over
    the blocks: the caller's buffer is the contact-force column, value for
    value. *)
Theorem exportData_hands_over_summed_force (peers : list ContactManager)
    (contactForce contactForce' : list float) (st st' : ContactManager) :
  meshAligned st → mothershipSized st →
  len contactForce = NumMyPoints (threeDimensionalMap st) →
  exportData peers contactForce st = Ok (st', contactForce') →
  contactForce' = contactContactForce st'.
Proof.
  intros ([Hi1 Hi3] & Hc1 & Hc3 & Hmap1 & Hmap3 & Hnodup1 & Hnodup3)
    (_ & _ & _ & _ & Hlforce & _) Hcaller Hexport.
  unfold exportData in Hexport.
  apply bind_Ok in Hexport as (summed & Hsummed & Hexport).
  apply bind_Ok in Hexport as (peers' & _ & Hexport).
  apply bind_Ok in Hexport as (force' & Hforce' & Hexport).
  injection Hexport as <- <-.
  apply sumBlockContactForces_frame in Hsummed as (Hmap & Himporter & Hlength).
  unfold Export in Hforce'. rewrite Himporter, Hi3 in Hforce'.
  rewrite !fmap_cons in Hforce'. unfold gather in Hforce'.
  cbn [zip_with concat] in Hforce'. simpl in Hforce'.
  rewrite Hmap, Hc3 in Hforce'.
  rewrite transfer_Insert_own in Hforce'; try done.
  - by injection Hforce'.
  - unfold len in *. rewrite Hlength. rewrite Hc3 in Hlforce. done.
Qed.

End AlignedProperties.

(** * The entries and the ghosts of the search *)

Lemma retainBody_entries (map1 : Epetra_BlockMap) (sn gids : list Z) (g : Z)
    (bonded : list Z) (i j : Z) (s : SearchState) :
  is_Some (s.1.2 !! g) →
  searchEntries gids i s →
  outcome (λ s', is_Some (s'.1.2 !! g) ∧ searchEntries gids i s')
    (λ _, False) True (retainBody map1 sn g bonded j s).
Proof.
  destruct s as [[idx m] off]. simpl. intros Hg (Hoff & Hdone & Hdom).
  unfold retainBody. eapply outcome_bind; [by apply at_spec|].
  intros n _. case_decide as Hn; simpl; [done|].
  split; [by rewrite lookup_insert_eq|]. split; [|split].
  - intros N HN.
    assert (N = n ∨ N ∈ off) as [->|HN'] by (case_decide; set_solver).
    + exists g, (default [] (m !! g) ++ [n]). rewrite lookup_insert_eq.
      split; [done|]. apply elem_of_app. right. by left.
    + destruct (Hoff N HN') as (P & l & Hl & HNl).
      destruct (decide (g = P)) as [->|Hne].
      * exists P, (default [] (m !! P) ++ [n]). rewrite lookup_insert_eq.
        split; [done|]. rewrite Hl. simpl. apply elem_of_app. by left.
      * exists P, l. by rewrite lookup_insert_ne.
  - intros k g' Hk Hg'. destruct (decide (g = g')) as [->|Hne].
    + by rewrite lookup_insert_eq.
    + rewrite lookup_insert_ne by done. by eapply Hdone.
  - intros P HP. destruct (decide (g = P)) as [->|Hne]; [by apply Hdom|].
    rewrite lookup_insert_ne in HP by done. by apply Hdom.
Qed.

Lemma searchBody_entries (map1 bond : Epetra_BlockMap) (ids sn gids : list Z)
    (iPt : Z) (s : SearchState) :
  0 ≤ iPt →
  searchEntries gids iPt s →
  outcome (searchEntries gids (iPt + 1)) (λ _, False) True
    (searchBody map1 bond ids sn gids iPt s).
Proof.
  destruct s as [[idx m] off]. intros HiPt (Hoff & Hdone & Hdom).
  unfold searchBody.
  eapply outcome_bind; [by apply at_spec|]. intros g [Hg _].
  destruct (bondedNeighbors bond ids g) as [bonded| |] eqn:Hbonded;
    simpl; [|by apply (bondedNeighbors_never_throws bond ids g e)|done].
  eapply outcome_bind; [by apply at_spec|]. intros n _.
  assert (∀ k g', 0 ≤ k < iPt + 1 → gids !! Z.to_nat k = Some g' →
                  g' = g ∨ (0 ≤ k < iPt)) as Hlast.
  { intros k g' Hk Hg'. destruct (decide (k = iPt)) as [->|Hne]; [|right; lia].
    left. congruence. }
  eapply outcome_weaken;
    [apply (for_loop_outcome
              (λ _ s', is_Some (s'.1.2 !! g) ∧ searchEntries gids (iPt + 1) s')
              (λ _, False) True)
    |..]; try done.
  - simpl. destruct (m !! g) eqn:Hmg.
    + split; [by rewrite Hmg|]. split; [done|]. split.
      * intros k g' Hk Hg'. destruct (Hlast k g' Hk Hg') as [->|Hk'].
        -- by rewrite Hmg.
        -- by eapply Hdone.
      * intros P HP. destruct (Hdom P HP) as (k & Hk & HkP).
        exists k. split; [lia|done].
    + split; [by rewrite lookup_insert_eq|]. split; [|split].
      * intros N HN. destruct (Hoff N HN) as (P & l & Hl & HNl).
        exists P, l. rewrite lookup_insert_ne; [done|]. intros ->. congruence.
      * intros k g' Hk Hg'. destruct (decide (g = g')) as [->|Hne].
        -- by rewrite lookup_insert_eq.
        -- rewrite lookup_insert_ne by done.
           destruct (Hlast k g' Hk Hg') as [->|Hk']; [done|]. by eapply Hdone.
      * intros P HP. destruct (decide (g = P)) as [->|Hne].
        -- exists iPt. split; [lia|done].
        -- rewrite lookup_insert_ne in HP by done.
           destruct (Hdom P HP) as (k & Hk & HkP). exists k. split; [lia|done].
  - intros j s' _ [Hs'g Hs']. by apply retainBody_entries.
  - by intros [[idx' m'] off'] [_ Hs'].
Qed.

Lemma StronglySorted_le_NoDup (l : list Z) :
  StronglySorted Z.le l → NoDup l → StronglySorted Z.lt l.
Proof.
  induction 1 as [|x l Hl IH Hx]; intros Hnodup; [constructor|].
  apply NoDup_cons in Hnodup as [Hxl Hnodup]. constructor; [by apply IH|].
  rewrite Forall_forall in Hx |- *. intros y Hy.
  specialize (Hx y Hy). assert (x ≠ y) by (by intros ->). lia.
Qed.

Lemma set_iter_increasing (s : gset Z) : StronglySorted Z.lt (set_iter s).
Proof.
  apply StronglySorted_le_NoDup; [|apply NoDup_set_iter].
  unfold set_iter. apply (StronglySorted_merge_sort Z.le).
Qed.

Section GhostProperties.
Context `{Collaborators}.

Lemma contactSearch_searchEntries (st : ContactManager)
    (map1 bond : Epetra_BlockMap) (ids : list Z) (decomp : QUICKGRID_Data)
    (contact : gmap Z (list Z)) (off : gset Z) :
  contactSearch st map1 bond ids decomp ∅ ∅ = Ok (contact, off) →
  searchInv map1 bond ids (0, contact, off)
  ∧ searchEntries
      (get_owned_gids
         (NeighborhoodList_new decomp
            (PutScalar (contactSearchRadius st) (Epetra_Vector_new map1))))
      (Z.max 0 (numPoints decomp)) (0, contact, off).
Proof.
  intros Hsearch.
  pose proof (contactSearch_inv st map1 bond ids decomp) as Hinv.
  rewrite Hsearch in Hinv. split; [done|].
  unfold contactSearch in Hsearch.
  apply bind_Ok in Hsearch as ([[idx contact'] off'] & Hloop & Hsearch).
  injection Hsearch as -> ->.
  match type of Hloop with
  | for_loop ?n ?body ?s = _ =>
      pose proof (for_loop_outcome
        (searchEntries
           (get_owned_gids
              (NeighborhoodList_new decomp
                 (PutScalar (contactSearchRadius st) (Epetra_Vector_new map1)))))
        (λ _, False) True body n s) as Hentries
  end.
  rewrite Hloop in Hentries. apply Hentries.
  - split; [set_solver|]. split; [intros; lia|].
    intros P HP. rewrite lookup_empty in HP. by destruct HP.
  - intros i s Hi Hs. apply searchBody_entries; [lia|done].
Qed.

Lemma contactSearch_ghosts (st : ContactManager)
    (map1 bond : Epetra_BlockMap) (ids : list Z) (decomp : QUICKGRID_Data)
    (contact : gmap Z (list Z)) (off : gset Z) :
  contactSearch st map1 bond ids decomp ∅ ∅ = Ok (contact, off) →
  ∀ N, N ∈ off ↔ LID map1 N = -1 ∧ ∃ P l, contact !! P = Some l ∧ N ∈ l.
Proof.
  intros Hsearch.
  apply contactSearch_searchEntries in Hsearch
    as [[Hlists Hoff] (Hreferenced & _ & _)].
  intros N. split.
  - intros HN. split; [by apply Hoff|by apply Hreferenced].
  - intros (Hlid & P & l & Hl & HN).
    by destruct (Hlists P l N Hl HN) as [_ [?|?]].
Qed.

(** X15: what [contactSearch], started with no entries, returns: a point has
    an entry in the contact lists exactly when it is one of the points
    searched, also when nothing is retained for it, and the off-processor
    contact IDs are exactly the IDs in the contact lists that the owned map
    does not hold. *)
Theorem contactSearch_entries_and_ghosts (st : ContactManager)
    (map1 bond : Epetra_BlockMap) (ids : list Z) (decomp : QUICKGRID_Data)
    (contact : gmap Z (list Z)) (off : gset Z) :
  contactSearch st map1 bond ids decomp ∅ ∅ = Ok (contact, off) →
  let searched :=
    get_owned_gids
      (NeighborhoodList_new decomp
         (PutScalar (contactSearchRadius st) (Epetra_Vector_new map1))) in
  (∀ P, is_Some (contact !! P) ↔
        ∃ k, 0 ≤ k < numPoints decomp ∧ searched !! Z.to_nat k = Some P) ∧
  (∀ N, N ∈ off ↔
        LID map1 N = -1 ∧ ∃ P l, contact !! P = Some l ∧ N ∈ l).
Proof.
  intros Hsearch searched. split; [|by eapply contactSearch_ghosts].
  apply contactSearch_searchEntries in Hsearch as [_ (_ & Hdone & Hdom)].
  fold searched in Hdone, Hdom. intros P. split.
  - intros HP. destruct (Hdom P HP) as (k & Hk & HkP). exists k.
    split; [lia|done].
  - intros (k & Hk & HkP). apply (Hdone k); [lia|done].
Qed.

(** X16: after a full cycle of [rebalance], the ghost entries of the overlap
    map, the ones after the owned global IDs, are in strictly increasing
    order, and a global ID is among them exactly when the owned map does not
    hold it and it is a bonded neighbour in the rebalanced neighbour list or
    stands in a contact list of the search. *)
Theorem rebalance_ghosts_are_the_referenced_points
    (peers : list ContactManager) (step : Z) (st st' : ContactManager) :
  contactRebalanceFrequency st ≠ 0 →
  (contactRebalanceFrequency st | step) →
  rebalance peers step st = Ok st' →
  ∃ r ghosts,
    rebalanceTopology peers st = Ok r ∧
    MyGlobalElements (oneDimensionalOverlapContactMap st')
    = MyGlobalElements (oneDimensionalContactMap st') ++ ghosts ∧
    StronglySorted Z.lt ghosts ∧
    ∀ g, g ∈ ghosts ↔
         (g ∉ MyGlobalElements (oneDimensionalContactMap st'))
         ∧ (g ∈ rebalancedNeighborGlobalIDs r
            ∨ ∃ P l, contactNeighborGlobalIDs r !! P = Some l ∧ g ∈ l).
Proof.
  intros Hfrequency Hstep Hst'.
  destruct (rebalance_full_cycle _ _ _ _ Hfrequency Hstep Hst')
    as (r & Hr & Hmap1 & _ & Hoverlap & _).
  exists r, (set_iter (offProcessorIDs r)). split; [done|].
  apply rebalanceTopology_Ok in Hr
    as (decomp & offBond & offContact & _ & _ & _ & _ & _ & HoffBond & Hsearch
        & Hoff & Hoverlap1 & _).
  rewrite Hoverlap, Hmap1, Hoverlap1. split; [done|].
  split; [apply set_iter_increasing|]. intros g.
  rewrite elem_of_set_iter, Hoff, elem_of_addContactIDs.
  destruct (bondedOffProcessorIDs_spec (rebalancedOneDimensionalMap r)
              (rebalancedNeighborGlobalIDs r)) as (offBond' & HoffBond' & Hbond).
  rewrite HoffBond in HoffBond'. injection HoffBond' as <-.
  pose proof (contactSearch_ghosts _ _ _ _ _ _ _ Hsearch) as Hcontact.
  rewrite Hbond, Hcontact, <- LID_absent. tauto.
Qed.

End GhostProperties.

(** * The tables in detail *)

(** ** The layout of the tables *)

Lemma recordOwnedIDs_layout (map1 overlap : Epetra_BlockMap)
    (nd : NeighborhoodData) :
  recordOwnedIDs map1 overlap = Ok nd →
  NumOwnedPoints nd = NumMyElements map1 ∧
  OwnedIDs nd = LID overlap <$> MyGlobalElements map1 ∧
  Forall (λ g, LID overlap g ≠ -1) (MyGlobalElements map1) ∧
  NeighborhoodPtr nd = replicate (length (MyGlobalElements map1)) 0 ∧
  NeighborhoodList nd = [] ∧ NeighborhoodListSize nd = 0.
Proof.
  intros Hnd. unfold recordOwnedIDs in Hnd.
  apply bind_Ok in Hnd as (a & Hloop & Hnd). injection Hnd as <-. simpl.
  set (gids := MyGlobalElements map1) in *.
  match type of Hloop with
  | for_loop ?n ?body ?s = _ =>
      pose proof (for_loop_outcome
        (λ i (a : list Z),
           length a = length gids
           ∧ take (Z.to_nat i) a = LID overlap <$> take (Z.to_nat i) gids
           ∧ Forall (λ g, LID overlap g ≠ -1) (take (Z.to_nat i) gids))
        (λ _, True) True body n s) as Hinv
  end.
  rewrite Hloop in Hinv. destruct Hinv as (Hlen & Htake & Hall).
  { simpl. unfold NumMyElements, len. fold gids.
    rewrite length_replicate, Nat2Z.id. split; [done|]. by rewrite !take_0. }
  { intros i a' Hi (Hlen & Htake & Hall). unfold ownedIDsBody.
    unfold NumMyElements, len in Hi. fold gids in Hi.
    assert (∃ g, gids !! Z.to_nat i = Some g) as [g Hg].
    { apply lookup_lt_is_Some. lia. }
    rewrite (GID_lookup map1 i g) by (done || lia).
    case_decide as Hlid; [done|].
    apply store_outcome; [|done]. intros _.
    replace (Z.to_nat (i + 1)) with (S (Z.to_nat i)) by lia.
    rewrite length_insert, take_S_insert by lia.
    rewrite (take_S_r _ _ _ Hg), fmap_app, Htake.
    repeat split; try done. apply Forall_app. split; [done|].
    by apply Forall_singleton. }
  unfold NumMyElements, len in *. fold gids in Htake, Hall.
  replace (Z.to_nat (Z.max 0 (Z.of_nat (length gids)))) with (length gids)
    in * by lia.
  rewrite <- Hlen, firstn_all in Htake. rewrite Hlen, firstn_all in Htake.
  rewrite firstn_all in Hall. rewrite Nat2Z.id. done.
Qed.

Lemma createRebalancedNeighborhoodData_layout
    (map1 overlap bond : Epetra_BlockMap) (ids : list Z)
    (nd : NeighborhoodData) :
  bondLayout bond ids →
  createRebalancedNeighborhoodData map1 overlap bond ids = Ok nd →
  let nbs := bondedOf bond ids <$> MyGlobalElements map1 in
  NumOwnedPoints nd = NumMyElements map1 ∧
  OwnedIDs nd = LID overlap <$> MyGlobalElements map1 ∧
  Forall (λ g, LID overlap g ≠ -1) (MyGlobalElements map1) ∧
  NeighborhoodListSize nd = NumMyElements map1 + NumMyPoints bond ∧
  len (NeighborhoodList nd) = NeighborhoodListSize nd ∧
  NeighborhoodPtr nd = offsets 0 nbs ∧
  take (length (encodeSlots overlap nbs)) (NeighborhoodList nd)
  = encodeSlots overlap nbs ∧
  Forall (Forall (λ g, LID overlap g ≠ -1)) nbs.
Proof.
  intros Hlayout Hnd nbs. unfold createRebalancedNeighborhoodData in Hnd.
  apply bind_Ok in Hnd as (nd0 & Hnd0 & Hnd).
  apply recordOwnedIDs_layout in Hnd0
    as (Hnum & Howned & Hresolved & Hptr & Hlist & _).
  apply bind_Ok in Hnd as ([[list ptr] idx] & Hloop & Hnd).
  injection Hnd as <-. simpl in *.
  set (gids := MyGlobalElements map1) in *.
  assert (0 ≤ NumMyPoints bond) as Hpoints.
  { apply sum_list_nonneg. apply Hlayout. }
  assert (NumMyElements map1 = len nbs) as HN.
  { unfold NumMyElements, nbs, len. by rewrite length_fmap. }
  rewrite HN, Hptr in Hloop.
  set (list0 := replicate (Z.to_nat (len nbs + NumMyPoints bond)) 0) in *.
  pose proof (table_loop overlap nbs (λ e, e = invalidOverlapIndex) True
    (bondTableBody map1 overlap bond ids) list0
    (replicate (length gids) 0)) as Hinv.
  rewrite Hloop in Hinv.
  destruct Hinv as (Hidx & Hsize & Hplen & Hpre & Hoff & Hdone).
  { unfold nbs. by rewrite length_replicate, length_fmap. }
  { intros i l [[list' ptr'] idx'] Hl Hi Hinv.
    assert (gids !! Z.to_nat i = Some (GID map1 i)) as Hg.
    { unfold nbs in Hl. rewrite list_lookup_fmap in Hl.
      destruct (gids !! Z.to_nat i) as [g|] eqn:Hg; [|done].
      by rewrite (GID_lookup map1 i g Hi Hg). }
    assert (l = bondedOf bond ids (GID map1 i)) as ->.
    { unfold nbs in Hl. rewrite list_lookup_fmap, Hg in Hl. by injection Hl. }
    destruct Hinv as (Hidx & Hsize & Hplen & _).
    apply bondTableBody_spec; [done|done|unfold len in *; lia|done]. }
  unfold len in Hidx, Hpre, Hoff, Hdone. rewrite Nat2Z.id, firstn_all in *.
  rewrite <- Hplen, firstn_all in Hoff.
  rewrite HN. split; [congruence|]. do 3 (split; [done|]). split.
  { unfold len. rewrite Hsize. unfold list0. rewrite length_replicate.
    unfold len. lia. }
  split; [done|]. split; [|done].
  rewrite Hidx in Hpre. unfold len in Hpre. by rewrite Nat2Z.id in Hpre.
Qed.

(** ** The neighbour list read back from a table *)

Lemma encodeNeighborhood_app (nbs1 nbs2 : list (list Z)) :
  encodeNeighborhood (nbs1 ++ nbs2)
  = encodeNeighborhood nbs1 ++ encodeNeighborhood nbs2.
Proof. unfold encodeNeighborhood. by rewrite fmap_app, concat_app. Qed.

Lemma encodeNeighborhood_split (nbs : list (list Z)) (i : nat) (l : list Z) :
  nbs !! i = Some l →
  encodeNeighborhood nbs
  = encodeNeighborhood (take i nbs) ++ (len l :: l)
    ++ encodeNeighborhood (drop (S i) nbs).
Proof.
  intros Hl. rewrite <- (take_drop_middle nbs i l Hl) at 1.
  rewrite encodeNeighborhood_app, encodeNeighborhood_cons. done.
Qed.

Lemma len_nonneg {A : Type} (l : list A) : 0 ≤ len l.
Proof. unfold len. lia. Qed.

Section ReadBack.
Context `{Collaborators}.

Lemma neighborGlobalIDs_decode (st : ContactManager) (nbs : list (list Z))
    (post : list Z) :
  NeighborhoodList (neighborhoodData st) = encodeNeighborhood nbs ++ post →
  NumOwnedPoints (neighborhoodData st) = len nbs →
  sum_list (len <$> nbs) ≤ NumMyPoints (bondContactMap st) →
  ∃ ids,
    neighborGlobalIDs st = Ok ids ∧
    len ids = NumMyPoints (bondContactMap st) ∧
    take (Z.to_nat (sum_list (len <$> nbs))) ids
    = concat (fmap (M := list) (GID (oneDimensionalOverlapContactMap st)) <$> nbs).
Proof.
  intros Hlist Hnum Hcap. unfold neighborGlobalIDs. rewrite Hlist, Hnum.
  set (nlist := encodeNeighborhood nbs ++ post).
  set (G := GID (oneDimensionalOverlapContactMap st)).
  set (N := NumMyPoints (bondContactMap st)) in *.
  assert (Forall (λ s, 0 ≤ s) (len <$> nbs)) as Hnn.
  { apply Forall_fmap, Forall_forall. intros l _. apply len_nonneg. }
  pose proof (sum_list_nonneg _ Hnn) as Hsum.
  match goal with
  | |- context [for_loop ?n ?body ?s] =>
      assert (outcome
        (λ '(li, k, ids),
           len ids = N
           ∧ take (Z.to_nat (sum_list (len <$> nbs))) ids
             = concat (fmap (M := list) G <$> nbs))
        (λ _, False) False (for_loop n body s)) as Hloop
  end.
  { eapply outcome_weaken;
      [apply (for_loop_outcome
         (λ i '(li, k, ids),
            li = len (encodeNeighborhood (take (Z.to_nat i) nbs))
            ∧ k = sum_list (len <$> take (Z.to_nat i) nbs)
            ∧ len ids = N
            ∧ take (Z.to_nat k) ids
              = concat (fmap (M := list) G <$> take (Z.to_nat i) nbs))
         (λ _, False) False)|..]; try done.
    - simpl. unfold Epetra_Vector_new, len. rewrite length_replicate.
      fold N. repeat split; try done. lia.
    - intros i [[li0 k0] ids0] Hi (Hli & Hk0 & Hlen0 & Htake0).
      unfold len in Hi.
      assert (∃ l, nbs !! Z.to_nat i = Some l) as [l Hl]
        by (apply lookup_lt_is_Some; lia).
      assert (nlist = encodeNeighborhood (take (Z.to_nat i) nbs)
                ++ len l :: l ++ encodeNeighborhood (drop (S (Z.to_nat i)) nbs)
                ++ post) as Hnlist.
      { unfold nlist. rewrite (encodeNeighborhood_split nbs _ l Hl).
        by rewrite <- !app_assoc. }
      assert (at_ nlist li0 = Ok (len l)) as ->.
      { rewrite Hnlist, Hli. apply at_app_middle. }
      cbn [mbind result_bind].
      assert ((len <$> nbs) !! Z.to_nat i = Some (len l)) as Hsize
        by (by rewrite list_lookup_fmap, Hl).
      destruct (sum_list_take_S _ _ _ Hnn Hsize) as [Hpre Hpost].
      rewrite <- fmap_take in Hpre, Hpost.
      eapply outcome_weaken;
        [apply (for_loop_outcome
           (λ j '(li', k', ids'),
              li' = li0 + 1 + j ∧ k' = k0 + j ∧ len ids' = N
              ∧ take (Z.to_nat k') ids'
                = take (Z.to_nat k0) ids0 ++ (G <$> take (Z.to_nat j) l))
           (λ _, False) False)|..]; try done.
      + simpl. rewrite ?take_0, ?app_nil_r, ?Z.add_0_r.
        repeat split; try done; lia.
      + intros j [[li1 k1] ids1] Hj (-> & -> & Hlen1 & Htake1).
        unfold len in Hj.
        assert (∃ x, l !! Z.to_nat j = Some x) as [x Hx]
          by (apply lookup_lt_is_Some; lia).
        assert (at_ nlist (li0 + 1 + j) = Ok x) as ->.
        { assert (nlist
                  = (encodeNeighborhood (take (Z.to_nat i) nbs)
                     ++ len l :: take (Z.to_nat j) l)
                    ++ x :: drop (S (Z.to_nat j)) l
                    ++ encodeNeighborhood (drop (S (Z.to_nat i)) nbs) ++ post)
            as ->.
          { rewrite Hnlist, <- app_assoc. simpl. do 2 f_equal.
            rewrite <- (take_drop_middle l _ x Hx) at 1.
            by rewrite <- app_assoc. }
          match goal with
          | |- at_ (?pre ++ x :: _) _ = _ =>
              replace (li0 + 1 + j) with (len pre); [apply at_app_middle|]
          end.
          rewrite Hli. unfold len. rewrite !length_app. simpl.
          rewrite length_take. apply lookup_lt_Some in Hx. lia. }
        cbn [mbind result_bind].
        eapply outcome_bind; [apply store_spec; unfold len in *; lia|].
        intros ids2 [-> Hrange]. simpl.
        replace (Z.to_nat (j + 1)) with (S (Z.to_nat j)) by lia.
        replace (Z.to_nat (k0 + j + 1)) with (S (Z.to_nat (k0 + j))) by lia.
        unfold len in *. rewrite length_insert, take_S_insert by lia.
        rewrite (take_S_r _ _ _ Hx), fmap_app, Htake1, app_assoc.
        repeat split; try done; lia.
      + intros [[li1 k1] ids1] (-> & -> & Hlen1 & Htake1).
        replace (Z.to_nat (i + 1)) with (S (Z.to_nat i)) by lia.
        rewrite (take_S_r _ _ _ Hl), encodeNeighborhood_app, !fmap_app,
          concat_app, sum_list_app.
        replace (Z.to_nat (Z.max 0 (len l))) with (length l) in Htake1
          by (unfold len; lia).
        rewrite firstn_all in Htake1.
        replace (Z.max 0 (len l)) with (len l) in * by (unfold len; lia).
        rewrite Htake1, Htake0. simpl. rewrite !app_nil_r, Z.add_0_r.
        rewrite encodeNeighborhood_cons. unfold encodeNeighborhood at 2.
        simpl. rewrite app_nil_r, len_app.
        assert (len (len l :: l) = 1 + len l) as -> by (unfold len; simpl; lia).
        repeat split; try done; lia.
    - intros [[li k] ids] (_ & -> & Hlen & Htake).
      replace (Z.to_nat (Z.max 0 (len nbs))) with (length nbs) in *
        by (unfold len; lia).
      by rewrite firstn_all in Htake. }
  destruct (for_loop _ _ _) as [[[li k] ids]| |]; simpl in Hloop; try done.
  exists ids. by destruct Hloop.
Qed.

End ReadBack.

(** ** The bonded IDs of the owned points, in the order of the bond map *)

Lemma chunks_lookup {A : Type} (sizes : list Z) (v : list A) (k : nat) (s : Z) :
  Forall (λ s, 0 ≤ s) sizes → sizes !! k = Some s →
  chunks sizes v !! k
  = Some (take (Z.to_nat s) (drop (Z.to_nat (sum_list (take k sizes))) v)).
Proof.
  revert v k. induction sizes as [|s0 sizes IH]; intros v k Hnn Hs; [done|].
  apply Forall_cons in Hnn as [Hs0 Hnn]. destruct k as [|k]; simpl in *.
  - by injection Hs as ->.
  - rewrite (IH _ _ Hnn Hs), drop_drop. do 3 f_equal.
    pose proof (sum_list_nonneg (take k sizes)) as Hsum.
    specialize (Hsum ltac:(by apply Forall_take)). lia.
Qed.

Lemma assoc_zip_find_index {A : Type} (g : Z) (gids : list Z) (cs : list A)
    (i : Z) :
  length gids = length cs → 0 ≤ i →
  assoc g (zip gids cs)
  = if decide (find_index g gids i = -1) then None
    else cs !! Z.to_nat (find_index g gids i - i).
Proof.
  revert cs i. induction gids as [|g0 gids IH]; intros [|c cs] i Hlen Hi;
    simplify_eq/=; [done|].
  destruct (decide (g0 = g)) as [->|Hne].
  - rewrite decide_False by lia. by rewrite Z.sub_diag.
  - rewrite (IH cs (i + 1)) by (done || lia).
    destruct (find_index_spec g gids (i + 1)) as [[Hf _]|[Hr _]].
    + by rewrite Hf.
    + rewrite !decide_False by lia.
      replace (Z.to_nat (find_index g gids (i + 1) - i))
        with (S (Z.to_nat (find_index g gids (i + 1) - (i + 1)))) by lia.
      done.
Qed.

Lemma bondedOf_pieces (bond : Epetra_BlockMap) (ids : list Z) (g : Z) :
  bondLayout bond ids →
  bondedOf bond ids g = default [] (assoc g (pieces bond ids)).
Proof.
  intros Hlayout. pose proof Hlayout as (Hlen & Hnn & Hids). unfold pieces.
  rewrite (assoc_zip_find_index g _ _ 0) by (by rewrite ?length_chunks || lia).
  fold (LID bond g). case_decide as Hlid.
  - unfold bondedOf. by rewrite bondedNeighbors_absent.
  - destruct (bondedNeighbors_layout bond ids g Hlayout Hlid)
      as (s & off & Hs & Hoff & Hs0 & Hoff0 & Hend & Hbonded).
    unfold bondedOf. rewrite Hbonded, Z.sub_0_r.
    apply at_Ok in Hs as [Hpos Hs]. apply at_Ok in Hoff as [_ Hoff].
    unfold FirstPointInElementList in Hoff.
    rewrite first_points_lookup in Hoff
      by (apply lookup_lt_Some in Hs; lia).
    injection Hoff as <-. by rewrite (chunks_lookup _ _ _ s).
Qed.

Lemma assoc_absent {A : Type} (g : Z) (pcs : list (Z * A)) :
  g ∉ pcs.*1 → assoc g pcs = None.
Proof.
  induction pcs as [|[g0 c] pcs IH]; [done|]. simpl. intros Hg.
  apply not_elem_of_cons in Hg as [Hne Hg]. rewrite decide_False by done.
  by apply IH.
Qed.

Lemma concat_assoc_sublist {A : Type} (pcs : list (Z * list A)) (gids : list Z) :
  (pcs.*1 `sublist_of` gids) → NoDup gids →
  concat ((λ g, default [] (assoc g pcs)) <$> gids) = concat pcs.*2.
Proof.
  revert pcs. induction gids as [|g gids IH]; intros pcs Hsub Hnodup.
  { apply sublist_nil_r in Hsub. by destruct pcs. }
  apply NoDup_cons in Hnodup as [Hg Hnodup].
  rewrite fmap_cons, concat_cons.
  destruct pcs as [|[g0 c] pcs].
  { exact (IH [] (sublist_nil_l _) Hnodup). }
  rewrite fmap_cons in Hsub. simpl in Hsub.
  apply sublist_cons_r in Hsub as [Hsub|(l' & Heq & Hsub)].
  - etrans; [|exact (IH ((g0, c) :: pcs) Hsub Hnodup)].
    rewrite assoc_absent; [done|].
    intros Hin. apply Hg. by eapply elem_of_sublist.
  - injection Heq as -> <-. rewrite (fmap_cons snd), concat_cons.
    f_equal; [by cbn [assoc]; rewrite decide_True|].
    rewrite <- (IH pcs Hsub Hnodup). f_equal.
    apply list_fmap_ext. intros i g' Hg'. cbn [assoc].
    rewrite decide_False; [done|]. intros ->. apply Hg.
    by eapply list_elem_of_lookup_2.
Qed.

Lemma concat_bondedOf (bond : Epetra_BlockMap) (ids gids : list Z) :
  bondLayout bond ids → (MyGlobalElements bond `sublist_of` gids) → NoDup gids →
  concat (bondedOf bond ids <$> gids) = ids.
Proof.
  intros Hlayout Hsub Hnodup. pose proof Hlayout as (Hlen & Hnn & Hids).
  assert (bondedOf bond ids <$> gids
          = (λ g, default [] (assoc g (pieces bond ids))) <$> gids) as ->.
  { apply list_fmap_ext. intros i g _. by apply bondedOf_pieces. }
  unfold pieces in *.
  rewrite concat_assoc_sublist; [|by rewrite fst_zip by (rewrite length_chunks; lia)|done].
  rewrite snd_zip by (rewrite length_chunks; lia). by apply concat_chunks.
Qed.

Lemma buildRebalancedBondMap_sublist (map1 : Epetra_BlockMap) (counts : list Z)
    (bm : Epetra_BlockMap) :
  len counts = NumMyElements map1 →
  buildRebalancedBondMap map1 counts = Ok bm →
  MyGlobalElements bm `sublist_of` MyGlobalElements map1.
Proof.
  intros Hlen Hbm. unfold NumMyElements, len in Hlen. apply Nat2Z.inj in Hlen.
  set (gids := MyGlobalElements map1) in *.
  unfold buildRebalancedBondMap, bondMapArrays, NumMyElements in Hbm.
  fold gids in Hbm. apply bind_Ok in Hbm as (a & Ha & Hbm).
  pose proof (for_loop_outcome (bondMapInv gids counts) (λ _, False) False
    (bondMapBody gids counts) (len gids)
    {| numMyElements := 0;
       myGlobalElements := replicate (Z.to_nat (len gids)) 0;
       elementSizeList := replicate (Z.to_nat (len gids)) 0;
       numPointsWithZeroNeighbors := 0 |}) as Hloop.
  rewrite Ha in Hloop. destruct Hloop as (Hn & _ & _ & _ & Hg & _).
  { unfold bondMapInv, len. simpl. rewrite !length_replicate.
    repeat split; lia. }
  { intros. by apply bondMapBody_outcome. }
  replace (Z.to_nat (Z.max 0 (len gids))) with (length (zip gids counts))
    in Hn, Hg by (rewrite length_zip; unfold len; lia).
  rewrite firstn_all in Hn, Hg.
  unfold Epetra_BlockMap_new_sizes in Hbm. case_decide; [|done].
  injection Hbm as <-. simpl. rewrite Hn. unfold len. rewrite Nat2Z.id, Hg.
  rewrite <- (fst_zip gids counts) at 2 by lia.
  apply fmap_sublist, sublist_filter.
Qed.

Lemma sum_list_replicate (n : nat) (x : Z) :
  sum_list (replicate n x) = Z.of_nat n * x.
Proof. induction n as [|n IH]; [done|]. simpl replicate. cbn [sum_list]. lia. Qed.

Lemma GID_LID (m : Epetra_BlockMap) (g : Z) :
  LID m g ≠ -1 → GID m (LID m g) = g.
Proof.
  intros Hlid. destruct (LID_present m g Hlid) as [Hrange Hg].
  apply GID_lookup; [lia|done].
Qed.

Lemma encodeSlots_encodeNeighborhood (overlap : Epetra_BlockMap)
    (nbs : list (list Z)) :
  encodeSlots overlap nbs
  = encodeNeighborhood (fmap (M := list) (LID overlap) <$> nbs).
Proof.
  unfold encodeSlots, encodeNeighborhood. rewrite <- list_fmap_compose.
  f_equal. apply list_fmap_ext. intros i l _. simpl. unfold len.
  by rewrite length_fmap.
Qed.

Lemma sum_list_len_concat {A : Type} (ls : list (list A)) :
  sum_list (len <$> ls) = len (concat ls).
Proof.
  induction ls as [|l ls IH]; [done|].
  rewrite fmap_cons, concat_cons, len_app. cbn [sum_list]. by rewrite IH.
Qed.

Section ReadBackProperties.
Context `{Collaborators}.

Lemma rebalanceTopology_bond_sublist (peers : list ContactManager)
    (st : ContactManager) (r : Rebalanced) :
  rebalanceTopology peers st = Ok r →
  MyGlobalElements (rebalancedBondMap r)
  `sublist_of` MyGlobalElements (rebalancedOneDimensionalMap r).
Proof.
  intros Hr. apply rebalanceTopology_Ok in Hr
    as (decomp & offBond & offContact & _ & Hmap1 & _ & Hbond & _).
  unfold createRebalancedBondMap in Hbond.
  apply bind_Ok in Hbond as (counts & Hcounts & Hbond).
  eapply buildRebalancedBondMap_sublist; [|done].
  unfold rebalancedNumberOfBonds in Hcounts.
  apply bind_Ok in Hcounts as (all & _ & Hcounts).
  unfold Import in Hcounts. simpl in Hcounts.
  unfold getOwnedMap, Epetra_BlockMap_new in Hmap1.
  case_decide as Hrange; [|done]. injection Hmap1 as Hmap1.
  apply transfer_length in Hcounts.
  - unfold Epetra_Vector_new, NumMyPoints, NumMyElements, len in *.
    rewrite Hcounts, length_replicate, <- Hmap1. simpl.
    rewrite sum_list_replicate, length_take. lia.
  - rewrite <- Hmap1. simpl. rewrite length_take, length_replicate.
    unfold len in *. lia.
  - rewrite <- Hmap1. simpl. apply Forall_replicate. lia.
Qed.

(** X19: the bond table of a full cycle of [rebalance], read back the way
    the next cycle reads it (count by count, every slot turned into a global
    ID through the overlap map), gives the bonded global IDs it was built
    from: the overlap slots written for the bonded neighbours lead back to
    their global IDs, in the layout of the new bond map. *)
Theorem rebalanced_table_reads_back_bonded_ids (peers : list ContactManager)
    (step : Z) (st st' : ContactManager) :
  contactRebalanceFrequency st ≠ 0 →
  (contactRebalanceFrequency st | step) →
  rebalance peers step st = Ok st' →
  NoDup (MyGlobalElements (oneDimensionalContactMap st')) →
  ∃ r,
    rebalanceTopology peers st = Ok r ∧
    neighborGlobalIDs st' = Ok (rebalancedNeighborGlobalIDs r).
Proof.
  intros Hfrequency Hstep Hst' Hnodup.
  destruct (rebalance_full_cycle _ _ _ _ Hfrequency Hstep Hst')
    as (r & Hr & Hmap1 & _ & Hoverlap & Hbond & Hnd & _).
  exists r. split; [done|].
  pose proof (rebalanceTopology_bondLayout _ _ _ Hr) as Hlayout.
  pose proof (rebalanceTopology_bond_sublist _ _ _ Hr) as Hsub.
  rewrite Hmap1 in Hnodup.
  apply rebalanceTopology_Ok in Hr
    as (_ & _ & _ & _ & _ & _ & _ & _ & _ & _ & _ & _ & _ & Htable & _).
  apply createRebalancedNeighborhoodData_layout in Htable
    as (Hnum & _ & _ & _ & _ & _ & Htake & Hresolved); [|done].
  set (overlap := rebalancedOneDimensionalOverlapMap r) in *.
  set (bond := rebalancedBondMap r) in *.
  set (ids := rebalancedNeighborGlobalIDs r) in *.
  set (nbs := bondedOf bond ids <$> MyGlobalElements (rebalancedOneDimensionalMap r))
    in *.
  assert (concat nbs = ids) as Hconcat by (by apply concat_bondedOf).
  assert (sum_list (len <$> (fmap (M := list) (LID overlap) <$> nbs))
          = NumMyPoints bond) as Hsum.
  { destruct Hlayout as (_ & _ & <-). rewrite <- Hconcat.
    rewrite <- (sum_list_len_concat nbs), <- list_fmap_compose.
    f_equal. apply list_fmap_ext. intros i l _. simpl. unfold len.
    by rewrite length_fmap. }
  destruct (neighborGlobalIDs_decode st'
              (fmap (M := list) (LID overlap) <$> nbs)
              (drop (length (encodeSlots overlap nbs))
                 (NeighborhoodList (rebalancedNeighborhoodData r))))
    as (ids' & Hids' & Hlen & Hfirst).
  - rewrite Hnd, <- encodeSlots_encodeNeighborhood.
    rewrite <- Htake at 1. by rewrite take_drop.
  - rewrite Hnd, Hnum. unfold NumMyElements, nbs, len.
    by rewrite !length_fmap.
  - rewrite Hbond, Hsum. done.
  - rewrite Hids'. f_equal.
    rewrite Hsum, <- Hbond, <- Hlen in Hfirst. unfold len in Hfirst.
    rewrite Nat2Z.id, firstn_all in Hfirst. rewrite Hfirst, <- Hconcat.
    f_equal. rewrite <- list_fmap_compose. rewrite <- (list_fmap_id nbs) at 2.
    apply list_fmap_ext. intros i l Hl. simpl.
    rewrite <- list_fmap_compose. rewrite <- (list_fmap_id l) at 2.
    apply list_fmap_ext. intros j g Hg. simpl. rewrite Hoverlap.
    apply GID_LID. rewrite Forall_lookup in Hresolved.
    specialize (Hresolved i l Hl). rewrite Forall_lookup in Hresolved.
    by apply (Hresolved j g).
Qed.

End ReadBackProperties.

Lemma find_index_app_NoDup (gids rest : list Z) (i : nat) (g : Z) (start : Z) :
  NoDup gids → gids !! i = Some g →
  find_index g (gids ++ rest) start = start + Z.of_nat i.
Proof.
  revert i start. induction gids as [|g0 gids IH]; intros i start Hnodup Hg;
    [done|].
  apply NoDup_cons in Hnodup as [Hg0 Hnodup]. destruct i as [|i]; simpl in *.
  - injection Hg as ->. rewrite decide_True by done. lia.
  - rewrite decide_False.
    + rewrite (IH i (start + 1) Hnodup Hg). lia.
    + intros ->. apply Hg0. by eapply list_elem_of_lookup_2.
Qed.

Lemma LID_owned_slots (overlap : Epetra_BlockMap) (gids ghosts : list Z) :
  MyGlobalElements overlap = gids ++ ghosts → NoDup gids →
  LID overlap <$> gids = seqZ 0 (len gids).
Proof.
  intros Hoverlap Hnodup. apply list_eq. intros i.
  rewrite list_lookup_fmap. unfold len.
  destruct (gids !! i) as [g|] eqn:Hg; simpl.
  - rewrite lookup_seqZ_lt by (apply lookup_lt_Some in Hg; lia).
    unfold LID. rewrite Hoverlap.
    by rewrite (find_index_app_NoDup gids ghosts i g 0 Hnodup Hg).
  - rewrite lookup_seqZ_ge; [done|]. apply lookup_ge_None in Hg. lia.
Qed.

Section TableLayoutProperties.
Context `{Collaborators}.

(** X18: the bond table of a full cycle of [rebalance] over a new owned map
    that holds every global ID once is the table of the documented layout
    and nothing more: one owned ID per owned point, the slots 0, 1, ... in
    order; for every owned point, in order, its number of bonded neighbours
    and then their overlap slots; the pointer of every point at the cell of
    its count; and no cell of the list left over. *)
Theorem rebalanced_bond_table_is_packed (peers : list ContactManager)
    (step : Z) (st st' : ContactManager) :
  contactRebalanceFrequency st ≠ 0 →
  (contactRebalanceFrequency st | step) →
  rebalance peers step st = Ok st' →
  NoDup (MyGlobalElements (oneDimensionalContactMap st')) →
  ∃ r,
    rebalanceTopology peers st = Ok r ∧
    let table := neighborhoodData st' in
    let owned := MyGlobalElements (oneDimensionalContactMap st') in
    let bonded :=
      bondedOf (bondContactMap st') (rebalancedNeighborGlobalIDs r) <$> owned in
    NumOwnedPoints table = len owned ∧
    OwnedIDs table = seqZ 0 (len owned) ∧
    NeighborhoodPtr table = offsets 0 bonded ∧
    NeighborhoodList table
    = encodeSlots (oneDimensionalOverlapContactMap st') bonded ∧
    NeighborhoodListSize table = len (NeighborhoodList table) ∧
    NeighborhoodListSize table
    = len owned + NumMyPoints (bondContactMap st').
Proof.
  intros Hfrequency Hstep Hst' Hnodup.
  destruct (rebalance_full_cycle _ _ _ _ Hfrequency Hstep Hst')
    as (r & Hr & Hmap1 & _ & Hoverlap & Hbond & Hnd & _).
  exists r. split; [done|]. cbv zeta.
  pose proof (rebalanceTopology_bondLayout _ _ _ Hr) as Hlayout.
  pose proof (rebalanceTopology_bond_sublist _ _ _ Hr) as Hsub.
  destruct (rebalanceTopology_owned_ghost _ _ _ Hr) as (Hgids & _).
  rewrite Hmap1, Hoverlap, Hbond, Hnd in *.
  apply rebalanceTopology_Ok in Hr
    as (_ & _ & _ & _ & _ & _ & _ & _ & _ & _ & _ & _ & _ & Htable & _).
  apply createRebalancedNeighborhoodData_layout in Htable
    as (Hnum & Howned & _ & Hsize & Hlen & Hptr & Htake & _); [|done].
  set (overlap := rebalancedOneDimensionalOverlapMap r) in *.
  set (bond := rebalancedBondMap r) in *.
  set (ids := rebalancedNeighborGlobalIDs r) in *.
  set (gids := MyGlobalElements (rebalancedOneDimensionalMap r)) in *.
  set (nbs := bondedOf bond ids <$> gids) in *.
  assert (concat nbs = ids) as Hconcat by (by apply concat_bondedOf).
  assert (len (encodeSlots overlap nbs) = len gids + NumMyPoints bond) as Hfull.
  { rewrite encodeSlots_length, sum_list_len_concat, Hconcat.
    destruct Hlayout as (_ & _ & <-). unfold nbs, len. by rewrite length_fmap. }
  split; [done|]. split.
  { rewrite Howned. by eapply LID_owned_slots. }
  split; [done|]. split; [|split; [done|done]].
  rewrite <- Htake. symmetry. apply take_ge. rewrite Hsize in Hlen.
  unfold gids, NumMyElements, len in *. lia.
Qed.

(** X14: when the bond map lists the owned points themselves, in the order
    of the owned map, the number of bonds recorded for every owned point is
    the element size of its bond-map entry: on such a rank the index into the
    bond map and the index into the owned map are the same. *)
Theorem numberOfBonds_when_every_point_is_bonded (st : ContactManager) :
  MyGlobalElements (bondContactMap st)
  = MyGlobalElements (oneDimensionalContactMap st) →
  length (ElementSizeList (bondContactMap st))
  = length (MyGlobalElements (bondContactMap st)) →
  NumMyPoints (oneDimensionalContactMap st)
  = NumMyElements (oneDimensionalContactMap st) →
  numberOfBonds st = Ok (ElementSizeList (bondContactMap st)).
Proof.
  intros Hgids Hsizes Hpoints. unfold numberOfBonds. rewrite Hgids in Hsizes.
  set (gids := MyGlobalElements (oneDimensionalContactMap st)) in *.
  set (sizes := ElementSizeList (bondContactMap st)) in *.
  match goal with
  | |- for_loop ?n ?body ?s = _ =>
      assert (outcome (λ a, a = sizes) (λ _, False) False (for_loop n body s))
        as Hloop
  end.
  { eapply outcome_weaken;
      [apply (for_loop_outcome
         (λ i (a : list Z),
            length a = length gids
            ∧ take (Z.to_nat i) a = take (Z.to_nat i) sizes)
         (λ _, False) False)|..]; try done.
    - unfold Epetra_Vector_new. rewrite Hpoints. unfold NumMyElements, len.
      fold gids. rewrite length_replicate. split; [lia|done].
    - intros i a Hi [Hlen Htake]. unfold NumMyElements, len in Hi. fold gids in Hi.
      unfold numberOfBondsBody.
      assert (∃ g, gids !! Z.to_nat i = Some g) as [g Hg]
        by (apply lookup_lt_is_Some; lia).
      rewrite (GID_lookup _ i g) by (done || lia).
      rewrite decide_True.
      2: { apply LID_elem_of. rewrite Hgids. by eapply list_elem_of_lookup_2. }
      unfold ElementSize. fold sizes.
      eapply outcome_bind; [apply at_spec; unfold len; lia|].
      intros s [Hs _]. apply store_outcome; [|unfold len; lia]. intros _.
      replace (Z.to_nat (i + 1)) with (S (Z.to_nat i)) by lia.
      rewrite length_insert, take_S_insert by lia.
      by rewrite (take_S_r _ _ _ Hs), Htake.
    - intros a [Hlen Htake]. unfold NumMyElements, len in Htake. fold gids in Htake.
      replace (Z.to_nat (Z.max 0 (Z.of_nat (length gids)))) with (length gids)
        in Htake by lia.
      rewrite <- Hlen, firstn_all in Htake. rewrite Htake. apply take_ge.
      lia. }
  destruct (for_loop _ _ _); simpl in Hloop; try done. by subst.
Qed.

End TableLayoutProperties.

(** ** When the contact table can be built *)

Lemma foldl_sum {A : Type} (f : A → Z) (l : list A) (a : Z) :
  foldl (λ acc x, acc + f x) a l = a + sum_list (f <$> l).
Proof.
  revert a. induction l as [|x l IH]; intros a; [simpl; lia|].
  cbn [foldl]. rewrite IH, fmap_cons. cbn [sum_list]. lia.
Qed.

Lemma sum_list_Permutation (l1 l2 : list Z) :
  l1 ≡ₚ l2 → sum_list l1 = sum_list l2.
Proof. induction 1; simpl; lia. Qed.

Lemma contactNeighborhoodListSize_insert (m : gmap Z (list Z)) (k : Z)
    (l : list Z) :
  m !! k = None →
  contactNeighborhoodListSize (<[k := l]> m)
  = len l + 1 + contactNeighborhoodListSize m.
Proof.
  intros Hk. unfold contactNeighborhoodListSize. rewrite !foldl_sum.
  rewrite (sum_list_Permutation _ ((λ kv : Z * list Z, len kv.2 + 1)
             <$> (k, l) :: map_to_list m)).
  - rewrite fmap_cons. simpl. lia.
  - apply fmap_Permutation. by apply map_to_list_insert.
Qed.

Lemma contactNeighborhoodListSize_nonneg (m : gmap Z (list Z)) :
  0 ≤ contactNeighborhoodListSize m.
Proof.
  unfold contactNeighborhoodListSize. rewrite foldl_sum.
  assert (0 ≤ sum_list ((λ kv : Z * list Z, len kv.2 + 1) <$> map_to_list m));
    [|lia].
  apply sum_list_nonneg, Forall_fmap, Forall_forall. intros kv _. simpl.
  unfold len. lia.
Qed.

Lemma contact_capacity (ks : list Z) :
  ∀ m : gmap Z (list Z),
    NoDup ks → (∀ k, k ∈ ks → is_Some (m !! k)) →
    sum_list ((λ k, 1 + len (default [] (m !! k))) <$> ks)
    ≤ contactNeighborhoodListSize m.
Proof.
  induction ks as [|k ks IH]; intros m Hnodup Hks.
  { apply contactNeighborhoodListSize_nonneg. }
  apply NoDup_cons in Hnodup as [Hk Hnodup].
  destruct (Hks k) as [l Hl]; [by left|].
  assert (contactNeighborhoodListSize m
          = len l + 1 + contactNeighborhoodListSize (delete k m)) as ->.
  { rewrite <- (insert_delete_id m k l Hl) at 1.
    by rewrite contactNeighborhoodListSize_insert by apply lookup_delete_eq. }
  rewrite fmap_cons. cbn [sum_list]. rewrite Hl. simpl.
  specialize (IH (delete k m) Hnodup).
  assert ((λ k0, 1 + len (default [] (m !! k0))) <$> ks
          = (λ k0, 1 + len (default [] (delete k m !! k0))) <$> ks) as ->.
  { apply list_fmap_ext. intros i k' Hk'. simpl.
    rewrite lookup_delete_ne; [done|]. intros ->. apply Hk.
    by eapply list_elem_of_lookup_2. }
  assert (sum_list ((λ k0, 1 + len (default [] (delete k m !! k0))) <$> ks)
          ≤ contactNeighborhoodListSize (delete k m)); [|lia].
  apply IH. intros k' Hk'. rewrite lookup_delete_ne; [apply Hks; by right|].
  by intros ->.
Qed.

Lemma contactNeighbor_loop_total (overlap : Epetra_BlockMap) (l : list Z)
    (list0 : list Z) (idx0 : Z) :
  0 ≤ idx0 → idx0 + len l ≤ len list0 →
  outcome (λ '(list', idx'), idx' = idx0 + len l ∧ length list' = length list0)
    (λ _, False) False
    (for_loop (len l) (contactNeighborBody overlap l) (list0, idx0)).
Proof.
  intros Hidx Hcap.
  eapply outcome_weaken;
    [apply (for_loop_outcome
       (λ k '(list', idx'), idx' = idx0 + k ∧ length list' = length list0)
       (λ _, False) False)|..]; try done.
  - simpl. split; [lia|done].
  - intros k [list' idx'] Hk (-> & Hlen). unfold contactNeighborBody.
    eapply outcome_bind; [by apply at_spec|]. intros g _.
    eapply outcome_bind; [apply store_spec; unfold len in *; lia|].
    intros list'' [-> _]. simpl. rewrite length_insert. split; [lia|done].
  - intros [list' idx'] (-> & Hlen). split; [|done]. unfold len. lia.
Qed.

Lemma recordOwnedIDs_outcome (map1 overlap : Epetra_BlockMap) :
  outcome
    (λ nd, Forall (λ g, LID overlap g ≠ -1) (MyGlobalElements map1))
    (λ e, e = invalidOverlapIndex
          ∧ ∃ g, g ∈ MyGlobalElements map1 ∧ LID overlap g = -1)
    False (recordOwnedIDs map1 overlap).
Proof.
  unfold recordOwnedIDs. set (gids := MyGlobalElements map1).
  eapply outcome_bind.
  - apply (for_loop_outcome
      (λ i (a : list Z),
         length a = length gids
         ∧ Forall (λ g, LID overlap g ≠ -1) (take (Z.to_nat i) gids))
      (λ e, e = invalidOverlapIndex ∧ ∃ g, g ∈ gids ∧ LID overlap g = -1)
      False).
    + simpl. unfold NumMyElements, len. fold gids.
      by rewrite length_replicate, Nat2Z.id.
    + intros i a Hi [Hlen Hall]. unfold NumMyElements, len in Hi. fold gids in Hi.
      assert (∃ g, gids !! Z.to_nat i = Some g) as [g Hg]
        by (apply lookup_lt_is_Some; lia).
      unfold ownedIDsBody. rewrite (GID_lookup map1 i g) by (done || lia).
      case_decide as Hlid.
      * split; [done|]. exists g. split; [by eapply list_elem_of_lookup_2|done].
      * apply store_outcome; [|unfold len; lia]. intros _.
        replace (Z.to_nat (i + 1)) with (S (Z.to_nat i)) by lia.
        rewrite length_insert, (take_S_r _ _ _ Hg). split; [done|].
        apply Forall_app. split; [done|]. by apply Forall_singleton.
  - intros a [Hlen Hall]. simpl. unfold NumMyElements, len in Hall.
    fold gids in Hall.
    replace (Z.to_nat (Z.max 0 (Z.of_nat (length gids)))) with (length gids)
      in Hall by lia.
    by rewrite firstn_all in Hall.
Qed.

Lemma createRebalancedContactNeighborhoodData_outcome
    (contact : gmap Z (list Z)) (map1 overlap : Epetra_BlockMap) :
  NoDup (MyGlobalElements map1) →
  outcome
    (λ nd, ∀ g, g ∈ MyGlobalElements map1 →
                LID overlap g ≠ -1 ∧ is_Some (contact !! g))
    (λ e, (e = invalidOverlapIndex
           ∧ ∃ g, g ∈ MyGlobalElements map1 ∧ LID overlap g = -1)
          ∨ (e = invalidContactIndex
             ∧ ∃ g, g ∈ MyGlobalElements map1 ∧ contact !! g = None))
    False (createRebalancedContactNeighborhoodData contact map1 overlap).
Proof.
  intros Hnodup. unfold createRebalancedContactNeighborhoodData.
  set (gids := MyGlobalElements map1) in *.
  destruct (recordOwnedIDs map1 overlap) as [nd0|e|] eqn:Hnd0.
  2: { pose proof (recordOwnedIDs_outcome map1 overlap) as Hout.
       rewrite Hnd0 in Hout. by left. }
  2: { pose proof (recordOwnedIDs_outcome map1 overlap) as Hout.
       by rewrite Hnd0 in Hout. }
  pose proof (recordOwnedIDs_layout _ _ _ Hnd0)
    as (_ & _ & Hresolved & Hptr & _ & _).
  cbn [mbind result_bind]. simpl. rewrite Hptr. fold gids.
  set (size := contactNeighborhoodListSize contact).
  set (cost := λ g, 1 + len (default [] (contact !! g))).
  eapply outcome_bind.
  - apply (for_loop_outcome
      (λ i '(list, ptr, idx),
         idx = sum_list (cost <$> take (Z.to_nat i) gids)
         ∧ len list = size ∧ length ptr = length gids
         ∧ ∀ g, g ∈ take (Z.to_nat i) gids → is_Some (contact !! g))
      (λ e, (e = invalidOverlapIndex ∧ ∃ g, g ∈ gids ∧ LID overlap g = -1)
            ∨ (e = invalidContactIndex ∧ ∃ g, g ∈ gids ∧ contact !! g = None))
      False).
    + simpl. rewrite length_replicate. unfold len.
      rewrite length_replicate.
      pose proof (contactNeighborhoodListSize_nonneg contact).
      repeat split; try done; [fold size; lia|].
      by intros g ?%elem_of_nil.
    + intros i [[list ptr] idx] Hi (Hidx & Hlen & Hplen & Hentries).
      unfold NumMyElements, len in Hi. fold gids in Hi.
      assert (∃ g, gids !! Z.to_nat i = Some g) as [g Hg]
        by (apply lookup_lt_is_Some; lia).
      unfold contactTableBody.
      eapply outcome_bind; [apply store_spec; unfold len; lia|].
      intros ptr' [-> _]. rewrite (GID_lookup map1 i g) by (done || lia).
      destruct (contact !! g) as [l|] eqn:Hl.
      2: { right. split; [done|]. exists g.
           split; [by eapply list_elem_of_lookup_2|done]. }
      assert (sum_list (cost <$> take (S (Z.to_nat i)) gids) ≤ size) as Hcap.
      { apply contact_capacity;
          [by eapply sublist_NoDup; [|apply sublist_take]|].
        intros g'. rewrite (take_S_r _ _ _ Hg), elem_of_app.
        intros [Hg'|Hg']; [by apply Hentries|].
        apply list_elem_of_singleton in Hg' as ->. by rewrite Hl. }
      rewrite (take_S_r _ _ _ Hg), fmap_app, sum_list_app in Hcap.
      simpl in Hcap. unfold cost at 2 in Hcap. rewrite Hl in Hcap.
      simpl in Hcap.
      assert (0 ≤ idx) as Hpos.
      { subst idx. apply sum_list_nonneg, Forall_fmap, Forall_forall.
        intros g' _. unfold cost, len. simpl. lia. }
      eapply outcome_bind; [apply store_spec; unfold len in *; lia|].
      intros list' [-> _].
      eapply outcome_bind.
      { eapply outcome_weaken;
          [apply (contactNeighbor_loop_total overlap l _ (idx + 1));
           [lia|unfold len in *; rewrite length_insert; lia]|..]; done. }
      intros [list'' idx'] (-> & Hlen'). simpl.
      replace (Z.to_nat (i + 1)) with (S (Z.to_nat i)) by lia.
      rewrite (take_S_r _ _ _ Hg), fmap_app, sum_list_app.
      simpl. unfold cost at 2. rewrite Hl. simpl.
      rewrite length_insert in Hlen'. rewrite length_insert.
      split; [lia|]. split; [unfold len in *; lia|]. split; [done|].
      intros g'. rewrite elem_of_app.
      intros [Hg'|Hg']; [by apply Hentries|].
      apply list_elem_of_singleton in Hg' as ->. by rewrite Hl.
  - intros [[list ptr] idx] (_ & _ & _ & Hentries). simpl. intros g Hg.
    unfold NumMyElements, len in Hentries. fold gids in Hentries.
    replace (Z.to_nat (Z.max 0 (Z.of_nat (length gids)))) with (length gids)
      in Hentries by lia.
    rewrite firstn_all in Hentries. split; [|by apply Hentries].
    rewrite Forall_forall in Hresolved. by apply Hresolved.
Qed.

(** X17: over an owned map that holds every global ID once, the contact
    table can be built exactly when the overlap map holds every owned ID and
    the contact lists have an entry for every owned point.  It is never
    undefined; an owned ID that the overlap map lacks makes both table
    constructors throw the range error of the overlap map, and an owned
    point without an entry, the overlap map holding all owned IDs, makes the
    contact table throw the range error of the contact lists. *)
Theorem contact_table_needs_an_entry_for_every_owned_point
    (contact : gmap Z (list Z)) (map1 overlap : Epetra_BlockMap) :
  NoDup (MyGlobalElements map1) →
  let built := createRebalancedContactNeighborhoodData contact map1 overlap in
  ((∃ table, built = Ok table) ↔
   ∀ g, g ∈ MyGlobalElements map1 →
        LID overlap g ≠ -1 ∧ is_Some (contact !! g)) ∧
  built ≠ Undefined ∧
  ((∃ g, g ∈ MyGlobalElements map1 ∧ LID overlap g = -1) →
   built = Throw invalidOverlapIndex ∧
   ∀ bond ids,
     createRebalancedNeighborhoodData map1 overlap bond ids
     = Throw invalidOverlapIndex) ∧
  ((∀ g, g ∈ MyGlobalElements map1 → LID overlap g ≠ -1) →
   (∃ g, g ∈ MyGlobalElements map1 ∧ contact !! g = None) →
   built = Throw invalidContactIndex).
Proof.
  intros Hnodup built.
  pose proof (createRebalancedContactNeighborhoodData_outcome contact map1
                overlap Hnodup) as Hout.
  fold built in Hout.
  pose proof (recordOwnedIDs_outcome map1 overlap) as Howned.
  split; [|split; [|split]].
  - split.
    + intros [table Htable]. by rewrite Htable in Hout.
    + intros Hall. destruct built as [table|e|]; simpl in Hout; [by eexists|..].
      * destruct Hout as [(_ & g & Hg & Hlid)|(_ & g & Hg & Hnone)];
          destruct (Hall g Hg) as [Hlid' Hsome]; [done|].
        rewrite Hnone in Hsome. by destruct Hsome.
      * done.
  - intros Hundefined. by rewrite Hundefined in Hout.
  - intros (g & Hg & Hlid).
    assert (recordOwnedIDs map1 overlap = Throw invalidOverlapIndex) as Hthrow.
    { destruct (recordOwnedIDs map1 overlap) as [nd|e|]; simpl in Howned.
      - rewrite Forall_forall in Howned. by destruct (Howned g Hg).
      - by destruct Howned as [-> _].
      - done. }
    split.
    + subst built. unfold createRebalancedContactNeighborhoodData.
      by rewrite Hthrow.
    + intros bond ids. unfold createRebalancedNeighborhoodData.
      by rewrite Hthrow.
  - intros Hresolved (g & Hg & Hnone).
    destruct built as [table|e|]; simpl in Hout.
    + destruct (Hout g Hg) as [_ Hsome]. rewrite Hnone in Hsome.
      by destruct Hsome.
    + destruct Hout as [(_ & g' & Hg' & Hlid)|[-> _]]; [|done].
      by destruct (Hresolved g' Hg').
    + done.
Qed.

(** * The decomposition and the contact models *)

Section EdgeProperties.
Context `{Collaborators}.

Lemma localDecomp_sized (numGlobal : Z) (st : ContactManager) :
  pointsSized st → localDecomp numGlobal st = Ok (decompOf numGlobal st).
Proof.
  intros [Hy Hvolume]. unfold localDecomp, memcpy.
  set (n := NumMyElements (oneDimensionalContactMap st)) in *.
  assert (0 ≤ n) as Hn by (unfold n, NumMyElements, len; lia).
  assert (n = len (MyGlobalElements (oneDimensionalContactMap st))) as Hgids
    by done.
  rewrite !decide_True by lia.
  cbn [mbind result_bind]. unfold decompOf. fold n. f_equal. f_equal.
  - apply take_ge. unfold n, NumMyElements, len. lia.
  - apply take_ge. unfold len in *. lia.
  - apply take_ge. unfold len in *. lia.
Qed.

(** X13: the decomposition [currentConfigurationDecomp] hands to the load
    balancer describes every rank by its owned global IDs, its current
    positions and its volumes, with the number of points of all ranks as
    the global count; it is undefined when this rank holds fewer positions
    than three per owned point, or fewer volumes than owned points. *)
Theorem currentConfigurationDecomp_describes_current_positions
    (peers : list ContactManager) (st : ContactManager) :
  let n := NumMyElements (oneDimensionalContactMap st) in
  let numGlobal :=
    sum_list ((λ rank, NumMyElements (oneDimensionalContactMap rank))
                <$> st :: peers) in
  (pointsSized st → Forall pointsSized peers →
   currentConfigurationDecomp peers st
   = Ok (getLoadBalancedDiscretization (decompOf numGlobal <$> peers)
           (decompOf numGlobal st))) ∧
  (len (contactY st) < 3 * n ∨ len (contactVolume st) < n →
   currentConfigurationDecomp peers st = Undefined).
Proof.
  intros n numGlobal. unfold currentConfigurationDecomp.
  assert (NumGlobalElements (oneDimensionalContactMap <$> st :: peers)
          = numGlobal) as ->.
  { unfold NumGlobalElements, numGlobal. by rewrite <- list_fmap_compose. }
  split.
  - intros Hst Hpeers. rewrite localDecomp_sized by done.
    cbn [mbind result_bind].
    rewrite (mapM_result_intro _ peers (decompOf numGlobal <$> peers)); [done|].
    apply Forall2_fmap_r, Forall_Forall2_diag.
    eapply Forall_impl; [done|]. intros rank Hrank. by apply localDecomp_sized.
  - intros Hshort. unfold localDecomp, memcpy. fold n.
    assert (0 ≤ n) as Hn by (unfold n, NumMyElements, len; lia).
    assert (n = len (MyGlobalElements (oneDimensionalContactMap st))) as Hgids
      by done.
    rewrite (decide_True
               (P := 0 ≤ n ≤ len (MyGlobalElements (oneDimensionalContactMap st))))
      by lia.
    cbn [mbind result_bind].
    destruct (decide (0 ≤ n * 3 ≤ len (contactY st))) as [Hy|Hy]; [|done].
    cbn [mbind result_bind].
    destruct (decide (0 ≤ n ≤ len (contactVolume st))) as [Hvolume|Hvolume];
      [lia|done].
Qed.

(** X7: [initialize] reads the contact models once per contact block.  With
    no contact block it returns whatever the parameters hold; with a block
    whose horizon is known, it throws when the parameters have no "Models"
    list or when the first entry of that list is not a list, and it is
    undefined when the "Models" list is empty. *)
Theorem initialize_reads_models_per_block
    (map1 map3 overlap1 bond : Epetra_BlockMap)
    (blockHorizonValues : gmap string float) (st : ContactManager) :
  let initialized :=
    initialize map1 map3 overlap1 bond blockHorizonValues st in
  (contactBlocks st = [] → ∃ st', initialized = Ok st') ∧
  (∀ b rest horizon,
     contactBlocks st = b :: rest →
     blockHorizon blockHorizonValues (getName b) = Ok horizon →
     (getEntry "Models" (params st) = None →
      initialized = Throw (InvalidParameterName "Models")) ∧
     (getEntry "Models" (params st) = Some (PSublist []) →
      initialized = Undefined) ∧
     (∀ name e others,
        getEntry "Models" (params st) = Some (PSublist ((name, e) :: others)) →
        (∀ l, e ≠ PSublist l) →
        initialized = Throw (InvalidParameterType name))).
Proof.
  intros initialized. subst initialized. unfold initialize. split.
  - intros ->. cbn [mapM mbind result_bind mret result_ret].
    unfold Epetra_BlockMap_new. rewrite decide_True; [by eexists|].
    unfold NumMyElements, len. lia.
  - intros b rest horizon -> Hhorizon.
    assert (∀ r, contactModelParameters (params st) horizon = r →
                 (∀ p, r ≠ Ok p) →
                 initializeBlock (params st) blockHorizonValues b
                 = match r with Ok _ => Undefined | Throw e => Throw e
                   | Undefined => Undefined end) as Hblock.
    { intros r Hr Hnot. unfold initializeBlock. rewrite Hhorizon.
      cbn [mbind result_bind]. rewrite Hr. destruct r; [by destruct (Hnot a)|done..]. }
    split; [|split].
    + intros Hmodels. cbn [mapM]. erewrite Hblock; [| |].
      2: { unfold contactModelParameters, sublist. by rewrite Hmodels. }
      all: done.
    + intros Hmodels. cbn [mapM]. erewrite Hblock; [| |].
      2: { unfold contactModelParameters, sublist. by rewrite Hmodels. }
      all: done.
    + intros name e others Hmodels He. cbn [mapM]. erewrite Hblock; [| |].
      2: { unfold contactModelParameters, sublist. rewrite Hmodels.
           cbn [mbind result_bind getEntry]. rewrite decide_True by done.
           destruct e; try done. by destruct (He l). }
      all: done.
Qed.

End EdgeProperties.

(** * The properties on concrete inputs *)

Module Witnesses.
Import Examples.


Lemma rebalance_off_cadence_witness : rebalance [rankB] 3 rankA = Ok rankA.
Proof.
  apply rebalance_off_cadence; simpl; [lia|]. intros [k Hk]. lia.
Defined.

Lemma initialize_horizon_of_block_witness :
  (∃ st' model,
     initialize (constantMap [1; 3] 1) (constantMap [1; 3] 3)
       (constantMap [1; 3; 2; 4] 1) (constantMap [1; 3] 1) horizons
       (set_contactBlocks [block "block_7" 7 []] rankA) = Ok st' ∧
     getEntry "Horizon" model = Some (PDouble 3%float) ∧
     contactBlocks st' !! 0%nat
     = Some (setContactModel model (block "block_7" 7 []))) ∧
  initialize (constantMap [1; 3] 1) (constantMap [1; 3] 3)
    (constantMap [1; 3; 2; 4] 1) (constantMap [1; 3] 1) ∅
    (set_contactBlocks [block "block_7" 7 []] rankA)
  = Throw (LogicError (noHorizonMessage "block_7")).
Proof.
  split.
  - destruct (initialize_horizon_of_block horizons (block "block_7" 7 []))
      as [Hdefault _]; [reflexivity|].
    pose (st' :=
      match initialize (constantMap [1; 3] 1) (constantMap [1; 3] 3)
              (constantMap [1; 3; 2; 4] 1) (constantMap [1; 3] 1) horizons
              (set_contactBlocks [block "block_7" 7 []] rankA) with
      | Ok st' => st'
      | _ => rankA
      end).
    assert (initialize (constantMap [1; 3] 1) (constantMap [1; 3] 3)
              (constantMap [1; 3; 2; 4] 1) (constantMap [1; 3] 1) horizons
              (set_contactBlocks [block "block_7" 7 []] rankA) = Ok st')
      as Hinit by (vm_compute; reflexivity).
    destruct (Hdefault 3%float eq_refl _ _ _ _
                (set_contactBlocks [block "block_7" 7 []] rankA) st' 0%nat
                eq_refl Hinit)
      as (created & model & _ & Hhorizon & Hmodel & Hblock).
    injection Hmodel as <-. exists st', created.
    split; [exact Hinit|]. split; [exact Hhorizon|exact Hblock].
  - destruct (initialize_horizon_of_block ∅ (block "block_7" 7 []))
      as [_ Hnone]; [reflexivity|].
    destruct (Hnone eq_refl) as (_ & _ & Hthrow).
    apply (Hthrow _ _ _ _ _ [] []); [reflexivity|constructor].
Defined.

Lemma initialize_friction_coefficient_witness :
  ∃ st' b' model,
    initialize (constantMap [1; 3] 1) (constantMap [1; 3] 3)
      (constantMap [1; 3; 2; 4] 1) (constantMap [1; 3] 1) horizons rankA
    = Ok st' ∧
    contactBlocks st' !! 0%nat = Some b' ∧
    getContactModel b' = Some model ∧
    getEntry "Friction Coefficient" model = Some (PDouble 0%float) ∧
    getEntry "Spring Constant" model = Some (PDouble 1000%float).
Proof.
  destruct (initialize_friction_coefficient (constantMap [1; 3] 1)
    (constantMap [1; 3] 3) (constantMap [1; 3; 2; 4] 1) (constantMap [1; 3] 1)
    horizons rankA "My Contact Model"
    [("Contact Model"%string, PString "Short Range Force");
     ("Spring Constant"%string, PDouble 1000%float)] []) as [Hok _].
  { reflexivity. }
  pose (st' :=
    match initialize (constantMap [1; 3] 1) (constantMap [1; 3] 3)
            (constantMap [1; 3; 2; 4] 1) (constantMap [1; 3] 1) horizons
            rankA with
    | Ok st' => st'
    | _ => rankA
    end).
  assert (initialize (constantMap [1; 3] 1) (constantMap [1; 3] 3)
            (constantMap [1; 3; 2; 4] 1) (constantMap [1; 3] 1) horizons rankA
          = Ok st') as Hinit by (vm_compute; reflexivity).
  specialize (Hok eq_refl st' Hinit).
  destruct (Forall2_lookup_l _ _ _ 0%nat _ Hok eq_refl)
    as (b' & Hb' & horizon & created & model & _ & _ & Hfriction & _
        & Hothers & Hmodel & ->).
  injection Hmodel as <-. eexists st', _, created.
  split; [exact Hinit|]. split; [exact Hb'|]. split; [reflexivity|].
  split; [exact Hfriction|]. by rewrite Hothers.
Defined.

Lemma rebalanceTopology_rankA :
  rebalanceTopology [rankB] rankA = Ok rebalancedA.
Proof. vm_compute. reflexivity. Qed.

Lemma contact_neighbors_exclude_bonded_witness :
  ∃ contact off,
    contactSearch rankA (constantMap [1; 2] 1) (constantMap [1; 2] 1) [2; 1]
      decompA ∅ ∅ = Ok (contact, off) ∧
    (∀ P N,
       N ∈ default [] (contact !! P) ↔
       ∃ i found,
         [1; 2] !! i = Some P ∧ [[2]; [1; 3]] !! i = Some found ∧
         N ∈ found ∧ N ∉ bondSegment (constantMap [1; 2] 1) [2; 1] P) ∧
    (∀ P N,
       N ∈ default [] (contact !! P) →
       N ∉ bondSegment (constantMap [1; 2] 1) [2; 1] P).
Proof.
  apply (contact_neighbors_exclude_bonded rankA (constantMap [1; 2] 1)
           (constantMap [1; 2] 1) [2; 1] decompA [[2]; [1; 3]]);
    [reflexivity..|].
  split; [reflexivity|]. split; [|reflexivity].
  repeat constructor; simpl; lia.
Defined.

Lemma owned_and_ghost_entries_disjoint_witness :
  ∃ offProcessorIDs_ : gset Z,
    MyGlobalElements (oneDimensionalOverlapContactMap rebalancedRankA)
    = [1; 2] ++ set_iter offProcessorIDs_ ∧
    ∀ g, g ∈ [1; 2] → g ∉ set_iter offProcessorIDs_.
Proof.
  destruct (owned_and_ghost_entries_disjoint [summedRankB] 4 summedRankA
              rebalancedRankA)
    as (off & Hoverlap & _ & Hdisjoint & _).
  - simpl. lia.
  - exists 2. reflexivity.
  - vm_compute. reflexivity.
  - exists off. split; [exact Hoverlap|exact Hdisjoint].
Defined.

Lemma tables_reference_overlap_slots_witness :
  (∃ bonded contact,
     tableNeighbors (neighborhoodData rebalancedRankA) 1
     = Some (LID (oneDimensionalOverlapContactMap rebalancedRankA) <$> bonded) ∧
     tableNeighbors (contactNeighborhoodData rebalancedRankA) 1
     = Some (LID (oneDimensionalOverlapContactMap rebalancedRankA)
               <$> contact)) ∧
  createRebalancedNeighborhoodData (constantMap [1; 2] 1)
    (constantMap [1; 2] 1) (constantMap [1; 2] 1) [3; 1]
  = Throw invalidOverlapIndex.
Proof.
  destruct (tables_reference_overlap_slots [summedRankB] 4 summedRankA
              rebalancedRankA)
    as (r & _ & _ & Htables & Hthrows).
  - simpl. lia.
  - exists 2. reflexivity.
  - vm_compute. reflexivity.
  - split.
    + destruct (Htables 1%nat 2) as (bonded & _ & Hbond & _ & Hcontact & _).
      { reflexivity. }
      eexists _, _. split; [exact Hbond|exact Hcontact].
    + apply (Hthrows _ _ _ _ 1 3).
      * split; [reflexivity|]. split; [|reflexivity].
        repeat constructor; simpl; lia.
      * apply (bool_decide_unpack _). vm_compute. exact I.
      * apply (bool_decide_unpack _). vm_compute. exact I.
      * apply (bool_decide_unpack _). vm_compute. exact I.
      * reflexivity.
Defined.

(** C3: with the owned points 10, 20, 30 and bonds for 20 (two) and 30
    (one) only, the count recorded for point 20, whose bond-map slot is 0, is
    the element size of slot 1, and the count of point 30 is read outside
    the bond map: the loop indexes the bond map by the owned slot. *)
Theorem numberOfBonds_reads_owned_slot :
  LID (bondContactMap rankIsolated) 20 = 0 ∧
  ElementSize (bondContactMap rankIsolated) 0 = Ok 2 ∧
  numberOfBondsBody rankIsolated 1 [0; 0; 0] = Ok [0; 1; 0] ∧
  numberOfBondsBody rankIsolated 2 [0; 1; 0] = Undefined ∧
  numberOfBonds rankIsolated = Undefined.
Proof. repeat split; vm_compute; reflexivity. Qed.

Lemma float_list_ne (x y : float) (l k : list float) :
  PrimFloat.eqb x x = true → PrimFloat.eqb y x = false → x :: l ≠ y :: k.
Proof.
  intros Hx Hy Heq. injection Heq as Heq _. rewrite <- Heq in Hy. congruence.
Qed.

(** C7 as it was stated fails: after the contact forces are summed and a
    full cycle of [rebalance] has run, the contact force of rank A is the
    migrated one, not zero. *)
Lemma rebalance_keeps_contact_force :
  contactContactForce <$> rebalance [summedRankB] 4 summedRankA
  = Ok [3; 0; 0; 1; 0; 0]%float ∧
  [3; 0; 0; 1; 0; 0]%float ≠ replicate 6 0%float.
Proof.
  split; [vm_compute; reflexivity|]. by apply float_list_ne.
Qed.

Lemma rebalance_migrates_all_columns_witness :
  elementValues (threeDimensionalContactMap rebalancedRankA)
    (contactContactForce rebalancedRankA) 1
  = Some [1; 0; 0]%float.
Proof.
  destruct (rebalance_migrates_all_columns [summedRankB] 4 summedRankA
              rebalancedRankA)
    as (_ & (_ & _ & _ & _ & Hforce & _) & _).
  - simpl. lia.
  - exists 2. reflexivity.
  - vm_compute. reflexivity.
  - apply (Hforce 1%nat 2 3); reflexivity.
Defined.

(** C8 as it was stated fails: the caller's buffer after the export holds
    the summed contribution and nothing of what it held before; accumulated,
    it would hold both. *)
Lemma exportData_replaces_caller_values :
  snd <$> exportData [] [5; 5; 5; 5; 5; 5]%float rankA
  = Ok [3; 0; 0; 3; 0; 0]%float ∧
  snd <$> exportContactForces_accumulating [] [5; 5; 5; 5; 5; 5]%float rankA
  = Ok [8; 5; 5; 8; 5; 5]%float ∧
  [3; 0; 0; 3; 0; 0]%float ≠ [8; 5; 5; 8; 5; 5]%float.
Proof.
  split; [vm_compute; reflexivity|]. split; [vm_compute; reflexivity|].
  by apply float_list_ne.
Qed.

Lemma exportData_sums_and_overwrites_witness :
  contactContactForce summedRankA = [3; 0; 0; 3; 0; 0]%float ∧
  elementValues (constantMap [1; 3] 3) [3; 0; 0; 3; 0; 0]%float 1
  = Some [3; 0; 0]%float.
Proof.
  destruct (exportData_sums_and_overwrites [] [5; 5; 5; 5; 5; 5]%float
              [3; 0; 0; 3; 0; 0]%float rankA summedRankA)
    as ((contributions & Hall & Hsum) & (peers' & Hpeers & _ & Hvalues)).
  { vm_compute. reflexivity. }
  split; [reflexivity|]. injection Hpeers as <-.
  assert (mapLayout
            (SourceMap
               (threeDimensionalMothershipToContactMothershipImporter rankA)))
    as Hlayout by (repeat constructor; simpl; lia).
  exact (Hvalues Hlayout 1%nat 3 [5; 5; 5]%float eq_refl eq_refl).
Defined.

Lemma blockIDOf_decimal_suffix_witness :
  blockIDOf invalidBlockNameMessage "block_12" = Ok 12
  ∧ blockIDOf invalidBlockNameMessage "block12"
    = Throw (LogicError invalidBlockNameMessage)
  ∧ blockIDOf invalidBlockNameMessage "block_" = Undefined.
Proof.
  destruct (blockIDOf_decimal_suffix invalidBlockNameMessage)
    as (Hnone & Hsome & Hdecimal).
  split; [exact (Hdecimal "block"%string 12)|].
  split; [apply Hnone; reflexivity|].
  destruct (Hsome "block_"%string eq_refl) as (prefix & suffix & _ & _ & Hid).
  destruct (blank suffix); [exact Hid|].
  destruct Hid as (id & Hid & _). vm_compute in Hid. discriminate Hid.
Defined.

Lemma constructor_requires_search_parameters_witness :
  ContactManager_new fieldIds noData [] [] namedDeck
  = Throw (InvalidParameter
      ("Contact parameter " +:+ quote +:+ "Search Radius" +:+ quote
       +:+ " not specified.")).
Proof.
  destruct (constructor_requires_search_parameters fieldIds noData [] []
              namedDeck) as [Hradius _].
  - intros label. by eexists.
  - apply Hradius. reflexivity.
Defined.

Lemma constructor_blocks_follow_deck_witness :
  ∃ explicit,
    contactBlocks constructedNamed = explicit ++ [] ∧
    nameAndParams <$> explicit
    = [("block_1"%string, [("Block Names"%string, PString "block_1 block_12")]);
       ("block_12"%string, [("Block Names"%string, PString "block_1 block_12")])].
Proof.
  destruct (constructor_blocks_follow_deck fieldIds noData modelParams []
              namedDeck constructedNamed)
    as (deck & explicit & added & Hdeck & Hblocks & Hnames & _ & Hnone).
  - vm_compute. reflexivity.
  - injection Hdeck as <-. exists explicit. rewrite Hnone in Hblocks.
    + split; [exact Hblocks|exact Hnames].
    + apply Forall_forall. vm_compute listedBlockNames.
      repeat constructor; intros [Hd|Hd]; discriminate Hd.
Defined.

Lemma constructor_default_blocks_cover_discretization_witness :
  Forall (λ name, name ∈ getName <$> contactBlocks constructedDefault)
    ["block_1"; "block_2"; "block_2"]%string.
Proof.
  destruct (constructor_default_blocks_cover_discretization fieldIds noData
              modelParams ["block_1"; "block_2"; "block_2"]%string defaultDeck
              [("Steel"%string,
                PSublist [("Block Names"%string, PString "block_1")]);
               ("Others"%string,
                PSublist [("Block Names"%string, PString "default");
                          ("Density"%string, PDouble 1%float)])]
              constructedDefault) as [Hcover _].
  - vm_compute. reflexivity.
  - reflexivity.
  - exists ("default"%string,
            [("Block Names"%string, PString "default");
             ("Density"%string, PDouble 1%float)]).
    split; [|by right]. vm_compute listedBlockNames.
    apply elem_of_cons. right. apply elem_of_cons. by left.
  - apply Forall_forall. exact Hcover.
Defined.

Lemma zero_search_frequency_is_not_rejected_witness :
  rebalance [] 7 initializedZero = Undefined.
Proof.
  destruct (zero_search_frequency_is_not_rejected fieldIds noData
              zeroFrequencyParams [] namedDeck (constantMap [1; 3] 1)
              (constantMap [1; 3] 3) (constantMap [1; 3; 2; 4] 1)
              (constantMap [1; 3] 1) horizons constructedZero initializedZero)
    as [_ Hundefined].
  - reflexivity.
  - vm_compute. reflexivity.
  - vm_compute. reflexivity.
  - apply Hundefined.
Defined.

Lemma initialize_publishes_maps_and_models_witness :
  oneDimensionalContactMap initializedNamed = constantMap [1; 3] 1
  ∧ contactContactForce initializedNamed = replicate 6 0%float.
Proof.
  destruct (initialize_publishes_maps_and_models (constantMap [1; 3] 1)
              (constantMap [1; 3] 3) (constantMap [1; 3; 2; 4] 1)
              (constantMap [1; 3] 1) horizons constructedNamed initializedNamed)
    as ((_ & _ & _ & _ & Hmap & _) & _ & _ & (_ & _ & _ & _ & Hforce & _) & _).
  - vm_compute. reflexivity.
  - split; [exact Hmap|exact Hforce].
Defined.

Lemma rebalance_keeps_mesh_maps_witness :
  threeDimensionalOverlapMap rebalancedRankA
  = threeDimensionalOverlapMap summedRankA
  ∧ importersFollowMaps rebalancedRankA.
Proof.
  destruct (rebalance_keeps_mesh_maps [summedRankB] 4 summedRankA
              rebalancedRankA) as (_ & (_ & _ & _ & Hoverlap3 & _) & Himporters).
  - vm_compute. reflexivity.
  - split; [exact Hoverlap3|]. apply Himporters. split; reflexivity.
Defined.

Lemma loadAllMothershipData_after_initialize_witness :
  ∃ loaded,
    loadAllMothershipData (pieces (constantMap [1; 3] 1) [1; 1]%float ++ [])
      (pieces (constantMap [1; 3] 1) [2; 2]%float ++ [])
      (pieces (constantMap [1; 3] 3) [0; 0; 0; 2; 0; 0]%float ++ [])
      (pieces (constantMap [1; 3] 3) [0; 0; 0; 0; 0; 0]%float ++ [])
      initializedNamed = Ok loaded ∧
    contactY loaded = [0; 0; 0; 2; 0; 0]%float.
Proof.
  destruct (loadAllMothershipData_after_initialize (constantMap [1; 3] 1)
              (constantMap [1; 3] 3) (constantMap [1; 3; 2; 4] 1)
              (constantMap [1; 3] 1) horizons constructedNamed initializedNamed
              [1; 1]%float [2; 2]%float [0; 0; 0; 2; 0; 0]%float
              [0; 0; 0; 0; 0; 0]%float [] [] [] [])
    as (loaded & Hloaded & _ & _ & Hy & _).
  - vm_compute. reflexivity.
  - split; [reflexivity|]. repeat constructor; simpl; lia.
  - split; [reflexivity|]. repeat constructor; simpl; lia.
  - repeat constructor; set_solver.
  - repeat constructor; set_solver.
  - reflexivity.
  - reflexivity.
  - reflexivity.
  - reflexivity.
  - exists loaded. split; [exact Hloaded|exact Hy].
Defined.

Lemma importData_copies_and_distributes_witness :
  contactY importedRankA = [0; 1; 0; 2; 1; 0]%float
  ∧ contactContactForce importedRankA = contactContactForce rankA.
Proof.
  destruct (importData_copies_and_distributes rankA importedRankA
              [2; 2]%float [0; 1; 0; 2; 1; 0]%float [1; 1; 1; 1; 1; 1]%float
              [] [] [])
    as ((_ & Hy & _) & (_ & Hforce & _) & _).
  - split; [split; reflexivity|]. split; [reflexivity|]. split; [reflexivity|].
    split; [split; [reflexivity|repeat constructor; simpl; lia]|].
    split; [split; [reflexivity|repeat constructor; simpl; lia]|].
    split; repeat constructor; set_solver.
  - repeat split; reflexivity.
  - reflexivity.
  - reflexivity.
  - reflexivity.
  - vm_compute. reflexivity.
  - split; [exact Hy|exact Hforce].
Defined.

Lemma exportData_hands_over_summed_force_witness :
  [3; 0; 0; 3; 0; 0]%float = contactContactForce summedRankA.
Proof.
  apply (exportData_hands_over_summed_force [] [5; 5; 5; 5; 5; 5]%float
           [3; 0; 0; 3; 0; 0]%float rankA summedRankA).
  - split; [split; reflexivity|]. split; [reflexivity|]. split; [reflexivity|].
    split; [split; [reflexivity|repeat constructor; simpl; lia]|].
    split; [split; [reflexivity|repeat constructor; simpl; lia]|].
    split; repeat constructor; set_solver.
  - repeat split; reflexivity.
  - reflexivity.
  - vm_compute. reflexivity.
Defined.

Lemma contactSearch_entries_and_ghosts_witness :
  3 ∈ ({[3]} : gset Z) ↔
  LID (constantMap [1; 2] 1) 3 = -1
  ∧ ∃ P l, (<[2 := [3]]> (<[1 := []]> ∅) : gmap Z (list Z)) !! P = Some l
           ∧ 3 ∈ l.
Proof.
  destruct (contactSearch_entries_and_ghosts rankA (constantMap [1; 2] 1)
              (constantMap [1; 2] 1) [2; 1] decompA
              (<[2 := [3]]> (<[1 := []]> ∅)) {[3]}) as [_ Hghosts].
  - vm_compute. reflexivity.
  - exact (Hghosts 3).
Defined.

Lemma rebalance_ghosts_are_the_referenced_points_witness :
  ∃ ghosts,
    MyGlobalElements (oneDimensionalOverlapContactMap rebalancedRankA)
    = MyGlobalElements (oneDimensionalContactMap rebalancedRankA) ++ ghosts
    ∧ StronglySorted Z.lt ghosts.
Proof.
  destruct (rebalance_ghosts_are_the_referenced_points [summedRankB] 4
              summedRankA rebalancedRankA)
    as (r & ghosts & _ & Hoverlap & Hsorted & _).
  - simpl. lia.
  - exists 2. reflexivity.
  - vm_compute. reflexivity.
  - exists ghosts. split; [exact Hoverlap|exact Hsorted].
Defined.

Lemma rebalanced_table_reads_back_bonded_ids_witness :
  ∃ r,
    rebalanceTopology [summedRankB] summedRankA = Ok r ∧
    neighborGlobalIDs rebalancedRankA = Ok (rebalancedNeighborGlobalIDs r).
Proof.
  apply (rebalanced_table_reads_back_bonded_ids [summedRankB] 4 summedRankA
           rebalancedRankA).
  - simpl. lia.
  - exists 2. reflexivity.
  - vm_compute. reflexivity.
  - change (NoDup [1; 2]). repeat constructor; set_solver.
Defined.

Lemma rebalanced_bond_table_is_packed_witness :
  OwnedIDs (neighborhoodData rebalancedRankA) = [0; 1]
  ∧ NeighborhoodListSize (neighborhoodData rebalancedRankA)
    = len (NeighborhoodList (neighborhoodData rebalancedRankA)).
Proof.
  destruct (rebalanced_bond_table_is_packed [summedRankB] 4 summedRankA
              rebalancedRankA) as (r & _ & _ & Howned & _ & _ & Hsize & _).
  - simpl. lia.
  - exists 2. reflexivity.
  - vm_compute. reflexivity.
  - change (NoDup [1; 2]). repeat constructor; set_solver.
  - split; [exact Howned|exact Hsize].
Defined.

Lemma numberOfBonds_when_every_point_is_bonded_witness :
  numberOfBonds rankA = Ok [1; 1].
Proof.
  apply (numberOfBonds_when_every_point_is_bonded rankA); reflexivity.
Defined.

Lemma contact_table_needs_an_entry_for_every_owned_point_witness :
  createRebalancedContactNeighborhoodData (<[1 := []]> ∅)
    (constantMap [1; 2] 1) (constantMap [1; 2; 3] 1)
  = Throw invalidContactIndex.
Proof.
  destruct (contact_table_needs_an_entry_for_every_owned_point
              (<[1 := []]> ∅) (constantMap [1; 2] 1) (constantMap [1; 2; 3] 1))
    as (_ & _ & _ & Hthrows).
  - repeat constructor; set_solver.
  - apply Hthrows.
    + intros g Hg. apply LID_elem_of. simpl. set_solver.
    + exists 2. split; [|reflexivity]. simpl. set_solver.
Defined.

Lemma currentConfigurationDecomp_describes_current_positions_witness :
  currentConfigurationDecomp [] rankA = Ok (leftHalf [] (decompOf 2 rankA)).
Proof.
  destruct (currentConfigurationDecomp_describes_current_positions [] rankA)
    as [Hsized _].
  apply Hsized; [split; reflexivity|constructor].
Defined.

Lemma initialize_reads_models_per_block_witness :
  ∃ st',
    initialize (constantMap [1; 3] 1) (constantMap [1; 3] 3)
      (constantMap [1; 3; 2; 4] 1) (constantMap [1; 3] 1) ∅
      (set_contactBlocks [] rankA) = Ok st'.
Proof.
  destruct (initialize_reads_models_per_block (constantMap [1; 3] 1)
              (constantMap [1; 3] 3) (constantMap [1; 3; 2; 4] 1)
              (constantMap [1; 3] 1) ∅ (set_contactBlocks [] rankA))
    as [Hnone _].
  apply Hnone. reflexivity.
Defined.

End Witnesses.
